(** * Equivalent water height from spherical-harmonic gravity coefficients

    A shallow embedding of [pyfunc/plot_grav_field_libs.py] and of the
    computation of [example.py] (the filter set-up, the coefficient
    differences and [ewh_calc]; reading the coefficient files and plotting
    are left out), with the properties of the specification proved (or
    refuted) on it, and further properties of the code.

    Numeric model.  NumPy's float64 values are modelled by the real numbers of
    the Standard Library: rounding, infinities and NaN are not represented,
    and [sqrt], [cos], [sin], [exp], [ln] are the real functions.  Python
    integers are [Z]; array indices follow NumPy's rules (a negative index
    counts from the end, an index outside the axis raises [IndexError]);
    element-wise operations follow NumPy's broadcasting rules and raise
    [ValueError] on shapes that cannot be broadcast.  A maximum degree is a
    natural number.  Python's division raises [ZeroDivisionError] on a zero
    divisor; NumPy's division, which answers a zero divisor with inf or nan
    and a warning, is written with the total division of the reals, and no
    statement below depends on the value of a quotient by zero.  Two places
    where the exceptional values decide the outcome are modelled with them:
    the seed of [GaussFilterCoeff], which is [inf] at a filter radius of 0,
    and the coefficient matrices given to [waterheight] ([waterheight_x]). *)

From Stdlib Require Import Reals Lra List ZArith Lia Bool Arith Classical Sorted
  Permutation Machin.
Import ListNotations.

Open Scope R_scope.

(** ** Exceptions and the error monad *)

Inductive exn : Type :=
| IndexError
| ValueError
| ZeroDivisionError
| OverflowError.

Inductive res (A : Type) : Type :=
| Ok (a : A)
| Raise (e : exn).

Arguments Ok {A} a.
Arguments Raise {A} e.

Definition bind {A B : Type} (m : res A) (k : A -> res B) : res B :=
  match m with
  | Ok a => k a
  | Raise e => Raise e
  end.

Notation "x <- m ;; k" := (bind m (fun x => k))
  (at level 61, m at next level, right associativity).
Notation "' p <- m ;; k" := (bind m (fun x => match x with p => k end))
  (at level 61, p pattern, m at next level, right associativity).

(** [raises m]: the computation ends in an exception, whatever its class. *)
Definition raises {A : Type} (m : res A) : Prop := exists e, m = Raise e.

(** A Python [for x in l: s = f x s] whose body may raise. *)
Fixpoint foldM {A S : Type} (f : A -> S -> res S) (l : list A) (s : S) : res S :=
  match l with
  | [] => Ok s
  | x :: l' => s' <- f x s ;; foldM f l' s'
  end.

(** [range a b] is Python's [range(a, b)]. *)
Definition range (a b : Z) : list Z :=
  map (fun k => (a + Z.of_nat k)%Z) (seq 0 (Z.to_nat (b - a))).

(** Python's true division by an integer: [x / d] raises on [d = 0]. *)
Definition pydiv_int (x : R) (d : Z) : res R :=
  if (d =? 0)%Z then Raise ZeroDivisionError else Ok (x / IZR d).

(** Python's division of two floats. *)
Definition pydiv (x y : R) : res R :=
  if Req_dec_T y 0 then Raise ZeroDivisionError else Ok (x / y).

(** ** Two-dimensional arrays *)

(** An array of shape [(length rows, ncols)]; every row has [ncols] entries
    ([wf]).  The column count is kept so that an array without rows still has
    a shape, as in NumPy. *)
Record ndarray : Type := NDArray { ncols : nat; rows : list (list R) }.

Definition nrows (a : ndarray) : nat := length (rows a).

Definition wf (a : ndarray) : Prop :=
  Forall (fun r => length r = ncols a) (rows a).

Definition has_shape (a : ndarray) (r c : nat) : Prop :=
  nrows a = r /\ ncols a = c /\ wf a.

(** The array whose entry [(i, j)] is [f i j]. *)
Definition tab (r c : nat) (f : nat -> nat -> R) : ndarray :=
  NDArray c (map (fun i => map (f i) (seq 0 c)) (seq 0 r)).

(** [np.zeros((r, c))] and [np.ones((r, c))]. *)
Definition zeros (r c : nat) : ndarray := NDArray c (repeat (repeat 0 c) r).
Definition ones (r c : nat) : ndarray := NDArray c (repeat (repeat 1 c) r).

Definition get (a : ndarray) (i j : nat) : R := nth j (nth i (rows a) []) 0.

Fixpoint list_set {A : Type} (i : nat) (v : A) (l : list A) : list A :=
  match l, i with
  | [], _ => []
  | _ :: l', O => v :: l'
  | x :: l', S i' => x :: list_set i' v l'
  end.

Definition upd (a : ndarray) (i j : nat) (v : R) : ndarray :=
  NDArray (ncols a) (list_set i (list_set j v (nth i (rows a) [])) (rows a)).

(** NumPy's reading of an index [i] on an axis of length [n]. *)
Definition norm_index (n : nat) (i : Z) : res nat :=
  if ((0 <=? i) && (i <? Z.of_nat n))%Z then Ok (Z.to_nat i)
  else if ((- Z.of_nat n <=? i) && (i <? 0))%Z then Ok (Z.to_nat (i + Z.of_nat n))
  else Raise IndexError.

(** [a[i, j]] *)
Definition getitem (a : ndarray) (i j : Z) : res R :=
  i' <- norm_index (nrows a) i ;;
  j' <- norm_index (ncols a) j ;;
  Ok (get a i' j').

(** [a[i, j] = v] *)
Definition setitem (a : ndarray) (i j : Z) (v : R) : res ndarray :=
  i' <- norm_index (nrows a) i ;;
  j' <- norm_index (ncols a) j ;;
  Ok (upd a i' j' v).

(** ** LegendreFunctions *)

Record LegendreFunctions : Type := MkLegendre {
  LF1 : ndarray;
  LF2 : ndarray;
  maxdegree : nat
}.

(** [LegendreFunctions.__init__] *)
Definition LegendreFunctions_init (maxdegree : nat) : res LegendreFunctions :=
  let D := (Z.of_nat maxdegree + 1)%Z in
  LF1 <- setitem (zeros (S maxdegree) (S maxdegree)) 1 1 (sqrt 3) ;;
  let LF2 := zeros (S maxdegree) (S maxdegree) in
  LF1 <- foldM (fun n LF1 =>
            q <- pydiv_int (IZR (2 * n + 1)) (2 * n) ;;
            setitem LF1 n n (sqrt q))
          (range 2 D) LF1 ;;
  ' (LF1, LF2) <- foldM (fun m st =>
            foldM (fun n '(LF1, LF2) =>
                f <- pydiv_int (IZR (2 * n + 1)) ((n + m) * (n - m)) ;;
                LF1 <- setitem LF1 n m (sqrt (f * IZR (2 * n - 1))) ;;
                q <- pydiv_int (f * IZR (n - m - 1) * IZR (n + m - 1)) (2 * n - 3) ;;
                LF2 <- setitem LF2 n m (sqrt q) ;;
                Ok (LF1, LF2))
              (range (m + 1) D) st)
          (range 0 (Z.of_nat maxdegree)) (LF1, LF2) ;;
  Ok (MkLegendre LF1 LF2 maxdegree).

(** [LegendreFunctions.__call__] *)
Definition LegendreFunctions_call (self : LegendreFunctions) (theta : R) : res ndarray :=
  let cosTheta := cos theta in
  let sinTheta := sin theta in
  let D := (Z.of_nat (maxdegree self) + 1)%Z in
  let Pnm := zeros (S (maxdegree self)) (S (maxdegree self)) in
  Pnm <- setitem Pnm 0 0 1 ;;
  Pnm <- foldM (fun n Pnm =>
            l <- getitem (LF1 self) n n ;;
            p <- getitem Pnm (n - 1) (n - 1) ;;
            setitem Pnm n n (l * sinTheta * p))
          (range 1 D) Pnm ;;
  Pnm <- foldM (fun m Pnm =>
            l <- getitem (LF1 self) (m + 1) m ;;
            p <- getitem Pnm m m ;;
            setitem Pnm (m + 1) m (l * cosTheta * p))
          (range 0 (Z.of_nat (maxdegree self))) Pnm ;;
  foldM (fun m Pnm =>
      foldM (fun n Pnm =>
          l1 <- getitem (LF1 self) n m ;;
          p1 <- getitem Pnm (n - 1) m ;;
          l2 <- getitem (LF2 self) n m ;;
          p2 <- getitem Pnm (n - 2) m ;;
          setitem Pnm n m (l1 * cosTheta * p1 - l2 * p2))
        (range (m + 2) D) Pnm)
    (range 0 (Z.of_nat (maxdegree self))) Pnm.

(** ** coeffisort *)

(** Python's [int(x)] on a float: truncation towards zero. *)
Definition py_int (x : R) : Z :=
  if Rle_dec 0 x then Int_part x else (- Int_part (- x))%Z.

(** One row [(degree, order, C, S)] of the coefficient list, four floats. *)
Record coeff_row : Type := Row { row0 : R; row1 : R; row2 : R; row3 : R }.

(** The loop of [coeffisort]; [break] leaves it with the current matrices. *)
Fixpoint coeffisort_loop (mat : list coeff_row) (maxdegree : nat)
    (cnm snm : ndarray) : res (ndarray * ndarray) :=
  match mat with
  | [] => Ok (cnm, snm)
  | row :: mat' =>
      if Rgt_dec (row0 row) (INR maxdegree) then Ok (cnm, snm)
      else
        cnm <- setitem cnm (py_int (row0 row)) (py_int (row1 row)) (row2 row) ;;
        snm <- setitem snm (py_int (row0 row)) (py_int (row1 row)) (row3 row) ;;
        coeffisort_loop mat' maxdegree cnm snm
  end.

Definition coeffisort (mat : list coeff_row) (maxdegree : nat)
    : res (ndarray * ndarray) :=
  let cnm := zeros (S maxdegree) (S maxdegree) in
  let snm := zeros (S maxdegree) (S maxdegree) in
  coeffisort_loop mat maxdegree cnm snm.

(** ** Element-wise operations, broadcasting and reductions *)

(** The common length of two axes under broadcasting. *)
Definition bdim (n1 n2 : nat) : res nat :=
  if n1 =? n2 then Ok n1
  else if n1 =? 1 then Ok n2
  else if n2 =? 1 then Ok n1
  else Raise ValueError.

(** Entry [(i, j)] of [a] stretched along its axes of length one. *)
Definition bget (a : ndarray) (i j : nat) : R :=
  get a (if nrows a =? 1 then 0 else i) (if ncols a =? 1 then 0 else j).

(** [a op b] for two arrays. *)
Definition broadcast2 (f : R -> R -> R) (a b : ndarray) : res ndarray :=
  r <- bdim (nrows a) (nrows b) ;;
  c <- bdim (ncols a) (ncols b) ;;
  Ok (tab r c (fun i j => f (bget a i j) (bget b i j))).

(** A scalar function or a scalar operand applied to every entry. *)
Definition amap (f : R -> R) (a : ndarray) : ndarray :=
  NDArray (ncols a) (map (map f) (rows a)).

(** [a.flatten()], as [np.outer] does to its arguments. *)
Definition flatten (a : ndarray) : list R := concat (rows a).

(** [np.outer(x, y)] *)
Definition outer (x y : list R) : ndarray :=
  NDArray (length y) (map (fun xi => map (fun yj => xi * yj) y) x).

(** [np.transpose(a)] *)
Definition transpose (a : ndarray) : ndarray :=
  tab (ncols a) (nrows a) (fun i j => get a j i).

(** [a[k:, :]] *)
Definition rows_from (k : nat) (a : ndarray) : ndarray :=
  NDArray (ncols a) (skipn k (rows a)).

Definition rsum (l : list R) : R := fold_right Rplus 0 l.

(** [np.sum(a)] *)
Definition asum (a : ndarray) : R := rsum (map rsum (rows a)).

(** [np.arange(a, b)] *)
Definition arange (a b : Z) : list R := map IZR (range a b).

(** ** waterheight *)

Definition waterheight (lambdao : list R) (thetao : R) (cnm snm : ndarray)
    (deg_max : nat) (lf : LegendreFunctions) (kn : list R) (R0 : R)
    : res ndarray :=
  let rho_e := 5540 in
  let rho_w := 1000 in
  let ewh := zeros 1 (length lambdao + 1) in
  ewh <- setitem ewh 0 0 thetao ;;
  Pnm <- LegendreFunctions_call lf thetao ;;
  let ilong := 1%Z in
  let ord_mat := outer (flatten (ones (deg_max + 1) 1))
                       (arange 0 (Z.of_nat deg_max + 1)) in
  let deg_mat := transpose ord_mat in
  let kn_mat := outer (firstn (deg_max + 1) kn)
                      (flatten (ones (deg_max + 1) 1)) in
  ' (ewh, ilong) <- foldM (fun long '(ewh, ilong) =>
        let lam_mat := amap (Rmult long) ord_mat in
        mt1 <- broadcast2 Rmult cnm (amap cos lam_mat) ;;
        mt2 <- broadcast2 Rmult snm (amap sin lam_mat) ;;
        s12 <- broadcast2 Rplus mt1 mt2 ;;
        mt3 <- broadcast2 Rmult Pnm s12 ;;
        mfak <- broadcast2 Rdiv (amap (fun x => 2 * x + 1) deg_mat)
                                (amap (fun x => 1 + x) kn_mat) ;;
        herg <- broadcast2 Rmult (rows_from 2 mfak) (rows_from 2 mt3) ;;
        let sumo := asum herg in
        ewh <- setitem ewh 0 ilong (R0 * rho_e / (3 * rho_w) * sumo) ;;
        Ok (ewh, (ilong + 1)%Z))
      lambdao (ewh, ilong) ;;
  Ok ewh.

(** The sum [sumo] that one iteration of the loop of [waterheight] computes
    for the longitude [long], given the Legendre matrix [Pnm]. *)
Definition ewh_sum (cnm snm Pnm : ndarray) (deg_max : nat) (kn : list R)
    (long : R) : res R :=
  let ord_mat := outer (flatten (ones (deg_max + 1) 1))
                       (arange 0 (Z.of_nat deg_max + 1)) in
  let deg_mat := transpose ord_mat in
  let kn_mat := outer (firstn (deg_max + 1) kn)
                      (flatten (ones (deg_max + 1) 1)) in
  let lam_mat := amap (Rmult long) ord_mat in
  mt1 <- broadcast2 Rmult cnm (amap cos lam_mat) ;;
  mt2 <- broadcast2 Rmult snm (amap sin lam_mat) ;;
  s12 <- broadcast2 Rplus mt1 mt2 ;;
  mt3 <- broadcast2 Rmult Pnm s12 ;;
  mfak <- broadcast2 Rdiv (amap (fun x => 2 * x + 1) deg_mat)
                          (amap (fun x => 1 + x) kn_mat) ;;
  herg <- broadcast2 Rmult (rows_from 2 mfak) (rows_from 2 mt3) ;;
  Ok (asum herg).

(** One iteration of the loop of [waterheight], on the state
    [(ewh, ilong)]. *)
Definition ewh_step (cnm snm Pnm : ndarray) (deg_max : nat) (kn : list R)
    (R0 : R) (long : R) (st : ndarray * Z) : res (ndarray * Z) :=
  let '(ewh, ilong) := st in
  sumo <- ewh_sum cnm snm Pnm deg_max kn long ;;
  ewh <- setitem ewh 0 ilong (R0 * 5540 / (3 * 1000) * sumo) ;;
  Ok (ewh, (ilong + 1)%Z).

(** ** GaussFilterCoeff and the filter set-up of the example *)

(** The seed [b] of [GaussFilterCoeff]: a finite number, or the [inf] with
    which NumPy answers the division [np.log(2)/0.0] (and a warning). *)
Inductive bseed : Type :=
| Bfin (b : R)
| Binf.

(** [np.log(2)/d] *)
Definition seed_of (d : R) : bseed :=
  if Req_dec_T d 0 then Binf else Bfin (ln 2 / d).

(** [np.exp(k*b)] for the negative factors [k] of the code:
    [exp(-inf) = 0]. *)
Definition exp_times (k : R) (b : bseed) : R :=
  match b with
  | Bfin r => exp (k * r)
  | Binf => 0
  end.

(** [x/b] for a finite [x]: [x/inf = 0]. *)
Definition over (x : R) (b : bseed) : R :=
  match b with
  | Bfin r => x / r
  | Binf => 0
  end.

Definition GaussFilterCoeff (R0 fr : R) (maxdegree : nat) : res ndarray :=
  x <- pydiv fr R0 ;;
  let b := seed_of (1 - cos x) in
  let coeff := zeros (maxdegree + 1) 1 in
  coeff <- setitem coeff 0 0 1 ;;
  coeff <- setitem coeff 1 0
             ((1 + exp_times (-1) b) / (1 - exp_times (-2) b) - over 1 b) ;;
  foldM (fun n coeff =>
      c1 <- getitem coeff (n - 1) 0 ;;
      c2 <- getitem coeff (n - 2) 0 ;;
      setitem coeff n 0 (- (over (IZR (2 * n - 1)) b) * c1 + c2))
    (range 2 (Z.of_nat maxdegree + 1)) coeff.

(** The filter weights as [example.py] sets them up: the Gaussian weights for
    a positive filter radius, all ones otherwise. *)
Definition filter_coeff (R0 filterradius : R) (deg_max : nat) : res ndarray :=
  if Rgt_dec filterradius 0 then
    fc <- GaussFilterCoeff R0 filterradius deg_max ;;
    Ok (outer (flatten fc) (flatten (ones (deg_max + 1) 1)))
  else Ok (ones (deg_max + 1) 1).

(** ** LoveNumbers *)

Definition kl : ndarray := NDArray 2
  [ [2; -0.303]; [3; -0.194]; [4; -0.132]; [5; -0.104]; [6; -0.089];
    [7; -0.081]; [8; -0.076]; [9; -0.072]; [10; -0.069]; [12; -0.064];
    [15; -0.058]; [20; -0.051]; [30; -0.040]; [40; -0.033]; [50; -0.027];
    [70; -0.020]; [100; -0.014]; [150; -0.010]; [200; -0.007] ].

(** [a[:, k]] *)
Definition column (k : nat) (a : ndarray) : list R :=
  map (fun r => nth k r 0) (rows a).

(** [np.interp] at one point [x] not below the first sample: the segment
    [xp[j] <= x < xp[j+1]] is looked up and the line through its end points
    evaluated; at and beyond the last sample the last value is returned. *)
Fixpoint interp_scan (x : R) (xp fp : list R) : R :=
  match xp, fp with
  | x0 :: xp', y0 :: fp' =>
      match xp', fp' with
      | x1 :: _, y1 :: _ =>
          if Rlt_dec x x1 then
            if Req_dec_T x0 x then y0
            else (y1 - y0) / (x1 - x0) * (x - x0) + y0
          else interp_scan x xp' fp'
      | _, _ => y0
      end
  | _, _ => 0
  end.

Definition interp1 (x : R) (xp fp : list R) : R :=
  if Rlt_dec x (hd 0 xp) then hd 0 fp else interp_scan x xp fp.

(** [np.interp(x, xp, fp)] for increasing sample points [xp]. *)
Definition np_interp (x xp fp : list R) : res (list R) :=
  if length xp =? 0 then Raise ValueError
  else if negb (length xp =? length fp) then Raise ValueError
  else Ok (map (fun xi => interp1 xi xp fp) x).

Definition LoveNumbers (maxdegree : nat) : res (list R) :=
  let degs := arange 2 (Z.of_nat maxdegree + 1) in
  erg <- np_interp degs (column 0 kl) (column 1 kl) ;;
  Ok ([0; 0] ++ erg).

(** ** Reference definitions, written from the specification *)

(** [sum_from a n f] is the sum of [f k] for [k = a .. a + n - 1]. *)
Definition sum_from (a n : nat) (f : nat -> R) : R := rsum (map f (seq a n)).

(** The series of the specification for one longitude:
    (R rho_earth)/(3 rho_water) times the sum over n = 2..maxdegree and
    m = 0..n of (2n+1)/(1+k_n) (dC_nm cos(m lambda) + dS_nm sin(m lambda)) P_nm. *)
Definition ewh_series (R0 : R) (maxdegree : nat) (dC dS Pnm : ndarray)
    (kn : list R) (lam : R) : R :=
  (R0 * 5540) / (3 * 1000) *
  sum_from 2 (maxdegree - 1) (fun n =>
    sum_from 0 (n + 1) (fun m =>
      (2 * INR n + 1) / (1 + nth n kn 0) *
      (get dC n m * cos (INR m * lam) + get dS n m * sin (INR m * lam)) *
      get Pnm n m)).

(** The value at [x] of the line through [(x0, y0)] and [(x1, y1)]. *)
Definition line_through (x0 y0 x1 y1 x : R) : R :=
  y0 + (y1 - y0) * (x - x0) / (x1 - x0).

(** [pw_linear t x y]: [y] is the piecewise-linear interpolation at [x] of
    the table [t] of sample points, [x] lying on one of its segments. *)
Inductive pw_linear : list (R * R) -> R -> R -> Prop :=
| pw_here : forall x0 y0 x1 y1 t x,
    x0 <= x <= x1 ->
    pw_linear ((x0, y0) :: (x1, y1) :: t) x (line_through x0 y0 x1 y1 x)
| pw_later : forall p t x y,
    pw_linear t x y -> pw_linear (p :: t) x y.

(** The reference table of Love numbers as (degree, value) pairs. *)
Definition kl_table : list (R * R) := combine (column 0 kl) (column 1 kl).

(** ** Predicates on arrays used in the statements *)

(** Every entry above the diagonal is zero. *)
Definition lower_triangular (a : ndarray) : Prop :=
  forall i j : nat, (i < j)%nat -> get a i j = 0.

(** Every entry whose indices have an odd sum (equivalently, an odd
    difference) is zero. *)
Definition odd_zero (a : ndarray) : Prop :=
  forall i j : nat, Nat.odd (i + j) = true -> get a i j = 0.

(** ** Notions used in the statements on [coeffisort] *)

(** The rows come in non-decreasing degree order. *)
Definition degree_sorted (mat : list coeff_row) : Prop :=
  forall i j : nat, (i < j)%nat -> (j < length mat)%nat ->
    row0 (nth i mat (Row 0 0 0 0)) <= row0 (nth j mat (Row 0 0 0 0)).


(** The matrix cell a row is written to, after NumPy's reading of the two
    indices on a [(maxdegree+1) x (maxdegree+1)] matrix. *)
Definition cell (maxdegree : nat) (row : coeff_row) : res (nat * nat) :=
  i <- norm_index (S maxdegree) (py_int (row0 row)) ;;
  j <- norm_index (S maxdegree) (py_int (row1 row)) ;;
  Ok (i, j).

(** Rows of degree at most [maxdegree] that are written to the same cell
    carry the same two values. *)
Definition consistent (maxdegree : nat) (mat : list coeff_row) : Prop :=
  forall r r' ij, In r mat -> In r' mat ->
    row0 r <= INR maxdegree -> row0 r' <= INR maxdegree ->
    cell maxdegree r = Ok ij -> cell maxdegree r' = Ok ij ->
    row2 r = row2 r' /\ row3 r = row3 r'.

(** ** Shapes that [waterheight] accepts *)

(** An axis of length [n] can be broadcast against an axis of length [d]
    (of at least two): it has that length or length one. *)
Definition broadcastable (n d : nat) : bool := (n =? d)%nat || (n =? 1)%nat.

(** The shapes of the arguments of [waterheight] can be broadcast to
    [(deg_max+1, deg_max+1)]: both axes of both coefficient matrices, the
    Legendre matrix of an engine built for [lf_deg], and the Love numbers
    kept by the slice [kn[0:deg_max+1]]. *)
Definition shapes_broadcast (deg_max lf_deg : nat) (cnm snm : ndarray)
    (kn : list R) : bool :=
  let d := (deg_max + 1)%nat in
  broadcastable (nrows cnm) d && broadcastable (ncols cnm) d &&
  broadcastable (nrows snm) d && broadcastable (ncols snm) d &&
  (lf_deg =? deg_max)%nat &&
  broadcastable (Nat.min d (length kn)) d.

(** ** The recursion of the Legendre functions *)

(** [legendre_recursion lf theta P]: the matrix [P] obeys the recursion of
    [__call__] with the tables of [lf]: the seed [P[0,0] = 1], the diagonal,
    the first sub-diagonal and the three-term recursion below it. *)
Definition legendre_recursion (lf : LegendreFunctions) (theta : R)
    (P : ndarray) : Prop :=
  get P 0 0 = 1 /\
  (forall n : nat, (1 <= n <= maxdegree lf)%nat ->
     get P n n = get (LF1 lf) n n * sin theta * get P (n - 1) (n - 1)) /\
  (forall m : nat, (m < maxdegree lf)%nat ->
     get P (m + 1) m = get (LF1 lf) (m + 1) m * cos theta * get P m m) /\
  (forall n m : nat, (m + 2 <= n <= maxdegree lf)%nat ->
     get P n m = get (LF1 lf) n m * cos theta * get P (n - 1) m -
                 get (LF2 lf) n m * get P (n - 2) m).

(** ** The recursion tables *)

(** The entry [(n, m)] that [__init__] leaves in [LF1]: the off-diagonal
    coefficient below the diagonal, the diagonal seed on it, zero elsewhere. *)
Definition LF1_entry (n m : nat) : R :=
  let zn := Z.of_nat n in
  let zm := Z.of_nat m in
  if (m <? n)%nat then
    sqrt (IZR (2 * zn + 1) / IZR ((zn + zm) * (zn - zm)) * IZR (2 * zn - 1))
  else if (n =? m)%nat then
    if (n =? 0)%nat then 0
    else if (n =? 1)%nat then sqrt 3
    else sqrt (IZR (2 * zn + 1) / IZR (2 * zn))
  else 0.

(** The entry [(n, m)] that [__init__] leaves in [LF2]. *)
Definition LF2_entry (n m : nat) : R :=
  let zn := Z.of_nat n in
  let zm := Z.of_nat m in
  if (m <? n)%nat then
    sqrt (IZR (2 * zn + 1) / IZR ((zn + zm) * (zn - zm)) *
          IZR (zn - zm - 1) * IZR (zn + zm - 1) / IZR (2 * zn - 3))
  else 0.

(** ** The coefficient differences and the grid of [example.py] *)

(** [(cnm2 - cnm1) * filter_coeff] *)
Definition filtered_difference (cnm2 cnm1 fc : ndarray) : res ndarray :=
  d <- broadcast2 Rminus cnm2 cnm1 ;;
  broadcast2 Rmult d fc.

(** The default of the parameter [R] of [waterheight], in metres. *)
Definition R_default : R := 6378136.46.

(** The outcomes of a list of workers read in order, as [res[hi].get()] does:
    the first exception ends the reading. *)
Fixpoint collect {A : Type} (l : list (res A)) : res (list A) :=
  match l with
  | [] => Ok []
  | m :: l' => x <- m ;; xs <- collect l' ;; Ok (x :: xs)
  end.

(** [a[i, :] = v] for a two-dimensional [v]: [v] needs a single row, as long
    as the rows of [a] or of length one. *)
Definition setrow (a : ndarray) (i : Z) (v : ndarray) : res ndarray :=
  i' <- norm_index (nrows a) i ;;
  if negb (nrows v =? 1)%nat then Raise ValueError
  else if (ncols v =? ncols a)%nat then
    Ok (NDArray (ncols a) (list_set i' (nth 0 (rows v) []) (rows a)))
  else if (ncols v =? 1)%nat then
    Ok (NDArray (ncols a) (list_set i' (repeat (get v 0 0) (ncols a)) (rows a)))
  else Raise ValueError.

(** [a[idx]] for a list of row indices *)
Definition take_rows (idx : list nat) (a : ndarray) : res ndarray :=
  if forallb (fun i => (i <? nrows a)%nat) idx
  then Ok (NDArray (ncols a) (map (fun i => nth i (rows a) []) idx))
  else Raise IndexError.

(** [np.delete(a, np.s_[0], axis=1)] *)
Definition delete_col0 (a : ndarray) : res ndarray :=
  if (ncols a =? 0)%nat then Raise IndexError
  else Ok (NDArray (ncols a - 1) (map (@tl R) (rows a))).

(** What NumPy promises of [keys.argsort()]: the indices of [keys], each
    once, in an order that sorts the keys.  The order among equal keys is
    left open (the default sort is not stable). *)
Definition is_argsort (keys : list R) (idx : list nat) : Prop :=
  Permutation idx (seq 0 (length keys)) /\
  StronglySorted Rle (map (fun i => nth i keys 0) idx).

(** [ewh_calc] of [example.py], with the globals it reads as arguments.  The
    pool evaluates [waterheight] at every colatitude of [rlat]; a worker's
    [get()] hands back its row or raises the exception it ended with.  The
    processes themselves are not modelled.  [argsort] stands for NumPy's. *)
Definition ewh_calc (argsort : list R -> list nat) (rlam rlat : list R)
    (dc ds : ndarray) (deg_max : nat) (lf : LegendreFunctions) (kn : list R)
    : res ndarray :=
  let results :=
    map (fun ele => waterheight rlam ele dc ds deg_max lf kn R_default) rlat in
  let ewh := zeros (length rlat) (length rlam + 1) in
  ewh <- foldM (fun hi ewh =>
            row <- nth (Z.to_nat hi) results (Raise IndexError) ;;
            setrow ewh hi row)
          (range 0 (Z.of_nat (length rlat))) ewh ;;
  ewh <- take_rows (argsort (column 0 ewh)) ewh ;;
  delete_col0 ewh.

(** The script of [example.py] from the coefficient rows of the two epochs
    (as [np.loadtxt] delivers them) to the grid. *)
Definition example_grid (argsort : list R -> list nat)
    (coeffi1 coeffi2 : list coeff_row) (deg_max : nat) (R0 filterradius : R)
    (rlam rlat : list R) : res ndarray :=
  fc <- filter_coeff R0 filterradius deg_max ;;
  ' (cnm1, snm1) <- coeffisort coeffi1 deg_max ;;
  ' (cnm2, snm2) <- coeffisort coeffi2 deg_max ;;
  dc <- filtered_difference cnm2 cnm1 fc ;;
  ds <- filtered_difference snm2 snm1 fc ;;
  kn <- LoveNumbers deg_max ;;
  lf <- LegendreFunctions_init deg_max ;;
  ewh_calc argsort rlam rlat dc ds deg_max lf kn.

(** An argsort by insertion; [after_ties] puts an index behind the indices
    of equal keys already placed (a stable sort) or in front of them. *)
Fixpoint insert_idx (after_ties : bool) (keys : list R) (i : nat)
    (l : list nat) : list nat :=
  match l with
  | [] => [i]
  | j :: l' =>
      if Rlt_dec (nth j keys 0) (nth i keys 0)
      then j :: insert_idx after_ties keys i l'
      else if Rlt_dec (nth i keys 0) (nth j keys 0) then i :: l
      else if after_ties then j :: insert_idx after_ties keys i l'
      else i :: l
  end.

Definition argsort_ins (after_ties : bool) (keys : list R) : list nat :=
  fold_left (fun acc i => insert_idx after_ties keys i acc)
            (seq 0 (length keys)) [].

(** ** The colatitude of the equator *)

(** [np.pi]: the binary64 number nearest to pi,
    [884279719003555 / 2^48 = 3.141592653589793115997963...].  Halving it is
    exact, so [np.pi/2] is [np_pi / 2]. *)
Definition np_pi : R := 884279719003555 / 281474976710656.

(** ** Coefficient matrices with exceptional values *)

(** A binary64 value as far as its exceptional values go: a finite number (a
    real; rounding and the sign of zero are not modelled), an infinity with
    its sign, or NaN. *)
Inductive xfloat : Type :=
| Fin (r : R)
| Inf (negative : bool)
| NaN.

(** The least magnitude that rounds to an infinity, [2^1024 - 2^970]. *)
Definition overflow_bound : R := IZR (2 ^ 1024 - 2 ^ 970).

Definition is_neg (r : R) : bool := if Rlt_dec r 0 then true else false.

(** A real result as a float: it overflows to the infinity of its sign. *)
Definition of_real (r : R) : xfloat :=
  if Rlt_dec (Rabs r) overflow_bound then Fin r else Inf (is_neg r).

Definition xmul (x y : xfloat) : xfloat :=
  match x, y with
  | NaN, _ | _, NaN => NaN
  | Fin a, Fin b => of_real (a * b)
  | Fin a, Inf s | Inf s, Fin a =>
      if Req_dec_T a 0 then NaN else Inf (xorb (is_neg a) s)
  | Inf s, Inf t => Inf (xorb s t)
  end.

Definition xadd (x y : xfloat) : xfloat :=
  match x, y with
  | NaN, _ | _, NaN => NaN
  | Fin a, Fin b => of_real (a + b)
  | Fin _, Inf s | Inf s, Fin _ => Inf s
  | Inf s, Inf t => if Bool.eqb s t then Inf s else NaN
  end.

Definition xdiv (x y : xfloat) : xfloat :=
  match x, y with
  | NaN, _ | _, NaN => NaN
  | Fin a, Fin b =>
      if Req_dec_T b 0
      then if Req_dec_T a 0 then NaN else Inf (is_neg a)
      else of_real (a / b)
  | Fin _, Inf _ => Fin 0
  | Inf s, Fin b => Inf (xorb s (is_neg b))
  | Inf _, Inf _ => NaN
  end.

(** Arrays of such values, with the operations of the arrays of reals. *)
Record xarray : Type := XArray { xncols : nat; xrows : list (list xfloat) }.

Definition xnrows (a : xarray) : nat := length (xrows a).

Definition xhas_shape (a : xarray) (r c : nat) : Prop :=
  xnrows a = r /\ xncols a = c /\
  Forall (fun row => length row = xncols a) (xrows a).

Definition xtab (r c : nat) (f : nat -> nat -> xfloat) : xarray :=
  XArray c (map (fun i => map (f i) (seq 0 c)) (seq 0 r)).

Definition xzeros (r c : nat) : xarray :=
  XArray c (repeat (repeat (Fin 0) c) r).

Definition xget (a : xarray) (i j : nat) : xfloat :=
  nth j (nth i (xrows a) []) (Fin 0).

Definition xupd (a : xarray) (i j : nat) (v : xfloat) : xarray :=
  XArray (xncols a)
         (list_set i (list_set j v (nth i (xrows a) [])) (xrows a)).

Definition xsetitem (a : xarray) (i j : Z) (v : xfloat) : res xarray :=
  i' <- norm_index (xnrows a) i ;;
  j' <- norm_index (xncols a) j ;;
  Ok (xupd a i' j' v).

(** An array of reals as an array of finite floats. *)
Definition inject (a : ndarray) : xarray :=
  XArray (ncols a) (map (map Fin) (rows a)).

Definition xbget (a : xarray) (i j : nat) : xfloat :=
  xget a (if xnrows a =? 1 then 0 else i) (if xncols a =? 1 then 0 else j).

Definition xbroadcast2 (f : xfloat -> xfloat -> xfloat) (a b : xarray)
    : res xarray :=
  r <- bdim (xnrows a) (xnrows b) ;;
  c <- bdim (xncols a) (xncols b) ;;
  Ok (xtab r c (fun i j => f (xbget a i j) (xbget b i j))).

Definition xrows_from (k : nat) (a : xarray) : xarray :=
  XArray (xncols a) (skipn k (xrows a)).

Definition xlsum (l : list xfloat) : xfloat := fold_right xadd (Fin 0) l.

(** [np.sum(a)] *)
Definition xsum (a : xarray) : xfloat := xlsum (map xlsum (xrows a)).

(** [waterheight] on coefficient matrices that may hold infinities and NaN.
    The colatitude, the longitudes, the Love numbers and the radius are
    finite, and the Legendre matrix is the one of the engine. *)
Definition waterheight_x (lambdao : list R) (thetao : R) (cnm snm : xarray)
    (deg_max : nat) (lf : LegendreFunctions) (kn : list R) (R0 : R)
    : res xarray :=
  let rho_e := 5540 in
  let rho_w := 1000 in
  let ewh := xzeros 1 (length lambdao + 1) in
  ewh <- xsetitem ewh 0 0 (Fin thetao) ;;
  Pnm <- LegendreFunctions_call lf thetao ;;
  let ilong := 1%Z in
  let ord_mat := outer (flatten (ones (deg_max + 1) 1))
                       (arange 0 (Z.of_nat deg_max + 1)) in
  let deg_mat := transpose ord_mat in
  let kn_mat := outer (firstn (deg_max + 1) kn)
                      (flatten (ones (deg_max + 1) 1)) in
  ' (ewh, ilong) <- foldM (fun long '(ewh, ilong) =>
        let lam_mat := amap (Rmult long) ord_mat in
        mt1 <- xbroadcast2 xmul cnm (inject (amap cos lam_mat)) ;;
        mt2 <- xbroadcast2 xmul snm (inject (amap sin lam_mat)) ;;
        s12 <- xbroadcast2 xadd mt1 mt2 ;;
        mt3 <- xbroadcast2 xmul (inject Pnm) s12 ;;
        mfak <- xbroadcast2 xdiv
                  (inject (amap (fun x => 2 * x + 1) deg_mat))
                  (inject (amap (fun x => 1 + x) kn_mat)) ;;
        herg <- xbroadcast2 xmul (xrows_from 2 mfak) (xrows_from 2 mt3) ;;
        let sumo := xsum herg in
        ewh <- xsetitem ewh 0 ilong
                 (xmul (xdiv (xmul (Fin R0) (Fin rho_e))
                             (xmul (Fin 3) (Fin rho_w))) sumo) ;;
        Ok (ewh, (ilong + 1)%Z))
      lambdao (ewh, ilong) ;;
  Ok ewh.

(** The part of one iteration of [waterheight_x] that depends on the
    coefficient matrices: [mt3]. *)
Definition xmt3 (cnm snm : xarray) (Pnm : ndarray) (deg_max : nat) (long : R)
    : res xarray :=
  let ord_mat := outer (flatten (ones (deg_max + 1) 1))
                       (arange 0 (Z.of_nat deg_max + 1)) in
  let lam_mat := amap (Rmult long) ord_mat in
  mt1 <- xbroadcast2 xmul cnm (inject (amap cos lam_mat)) ;;
  mt2 <- xbroadcast2 xmul snm (inject (amap sin lam_mat)) ;;
  s12 <- xbroadcast2 xadd mt1 mt2 ;;
  xbroadcast2 xmul (inject Pnm) s12.

(** The rest of an iteration of [waterheight_x], from [mt3] on. *)
Definition xewh_tail (mt3 : xarray) (deg_max : nat) (kn : list R) (R0 : R)
    (st : xarray * Z) : res (xarray * Z) :=
  let '(ewh, ilong) := st in
  let ord_mat := outer (flatten (ones (deg_max + 1) 1))
                       (arange 0 (Z.of_nat deg_max + 1)) in
  let deg_mat := transpose ord_mat in
  let kn_mat := outer (firstn (deg_max + 1) kn)
                      (flatten (ones (deg_max + 1) 1)) in
  mfak <- xbroadcast2 xdiv
            (inject (amap (fun x => 2 * x + 1) deg_mat))
            (inject (amap (fun x => 1 + x) kn_mat)) ;;
  herg <- xbroadcast2 xmul (xrows_from 2 mfak) (xrows_from 2 mt3) ;;
  ewh <- xsetitem ewh 0 ilong
           (xmul (xdiv (xmul (Fin R0) (Fin 5540)) (xmul (Fin 3) (Fin 1000)))
                 (xsum herg)) ;;
  Ok (ewh, (ilong + 1)%Z).

(** A finite value of magnitude at most [2^1022]: two of them, each times a
    cosine or a sine, add up without overflow. *)
Definition bounded_fin (x : xfloat) : Prop :=
  exists r, x = Fin r /\ Rabs r <= IZR (2 ^ 1022).

(** ** coeffisort on rows with exceptional values *)

(** A row as [np.loadtxt] may deliver it: any of its four floats may be an
    infinity or NaN. *)
Record xcoeff_row : Type :=
  XRow { xrow0 : xfloat; xrow1 : xfloat; xrow2 : xfloat; xrow3 : xfloat }.

(** Python's [int(x)]: NaN raises [ValueError], an infinity
    [OverflowError]. *)
Definition x_int (x : xfloat) : res Z :=
  match x with
  | Fin r => Ok (py_int r)
  | Inf _ => Raise OverflowError
  | NaN => Raise ValueError
  end.

(** [x > y] for a float [x] and a finite [y]: false on NaN. *)
Definition x_gt (x : xfloat) (y : R) : bool :=
  match x with
  | Fin r => if Rgt_dec r y then true else false
  | Inf negative => negb negative
  | NaN => false
  end.

Fixpoint coeffisort_x_loop (mat : list xcoeff_row) (maxdegree : nat)
    (cnm snm : xarray) : res (xarray * xarray) :=
  match mat with
  | [] => Ok (cnm, snm)
  | row :: mat' =>
      if x_gt (xrow0 row) (INR maxdegree) then Ok (cnm, snm)
      else
        i <- x_int (xrow0 row) ;;
        j <- x_int (xrow1 row) ;;
        cnm <- xsetitem cnm i j (xrow2 row) ;;
        i <- x_int (xrow0 row) ;;
        j <- x_int (xrow1 row) ;;
        snm <- xsetitem snm i j (xrow3 row) ;;
        coeffisort_x_loop mat' maxdegree cnm snm
  end.

(** [coeffisort] on such rows. *)
Definition coeffisort_x (mat : list xcoeff_row) (maxdegree : nat)
    : res (xarray * xarray) :=
  coeffisort_x_loop mat maxdegree
    (xzeros (S maxdegree) (S maxdegree)) (xzeros (S maxdegree) (S maxdegree)).

(** The exception a row raises when it is written, if any: the degree is
    converted first, then the order, then the pair is used as an index. *)
Definition row_fault (maxdegree : nat) (r : xcoeff_row) : option exn :=
  match xrow0 r, xrow1 r with
  | NaN, _ => Some ValueError
  | Inf _, _ => Some OverflowError
  | Fin _, NaN => Some ValueError
  | Fin _, Inf _ => Some OverflowError
  | Fin a, Fin b =>
      match cell maxdegree (Row a b 0 0) with
      | Ok _ => None
      | Raise e => Some e
      end
  end.

(** A row of finite numbers among the rows with exceptional values. *)
Definition lift_row (r : coeff_row) : xcoeff_row :=
  XRow (Fin (row0 r)) (Fin (row1 r)) (Fin (row2 r)) (Fin (row3 r)).

(** The zero matrix for maximum degree 3 with the value [v] at [(2, 3)],
    above the diagonal. *)
Definition upper_entry (v : xfloat) : xarray :=
  xtab (3 + 1) (3 + 1)
       (fun i j => if (i =? 2)%nat && (j =? 3)%nat then v else Fin 0).

(** * Properties *)

(** ** The error monad and loops *)

Lemma bind_Ok_inv {A B : Type} (m : res A) (k : A -> res B) (b : B) :
  bind m k = Ok b -> exists a, m = Ok a /\ k a = Ok b.
Proof.
  destruct m as [a|e]; simpl; intros H; [eauto | discriminate].
Qed.

(** An invariant kept by every iteration that returns is kept by the loop. *)
Lemma foldM_inv {A S : Type} (I : S -> Prop) (f : A -> S -> res S) (l : list A) :
  (forall x s s', In x l -> I s -> f x s = Ok s' -> I s') ->
  forall s s', I s -> foldM f l s = Ok s' -> I s'.
Proof.
  induction l as [|x l IH]; intros Hstep s s' Hs; simpl.
  - intros [= <-]; exact Hs.
  - intros H; apply bind_Ok_inv in H as (s1 & H1 & H2).
    apply (IH (fun y t t' Hy => Hstep y t t' (or_intror Hy)) s1 s'); auto.
    apply (Hstep x s s1); simpl; auto.
Qed.

(** A loop whose iterations all return, under an invariant, returns. *)
Lemma foldM_total {A S : Type} (I : S -> Prop) (f : A -> S -> res S) (l : list A) :
  (forall x s, In x l -> I s -> exists s', f x s = Ok s' /\ I s') ->
  forall s, I s -> exists s', foldM f l s = Ok s' /\ I s'.
Proof.
  induction l as [|x l IH]; intros Hstep s Hs; simpl.
  - eauto.
  - destruct (Hstep x s (or_introl eq_refl) Hs) as (s1 & -> & Hs1); simpl.
    apply IH; auto. intros y t Hy; apply Hstep; simpl; auto.
Qed.

Lemma in_range (a b n : Z) : In n (range a b) <-> (a <= n < b)%Z.
Proof.
  unfold range; rewrite in_map_iff; split.
  - intros (k & <- & Hk); apply in_seq in Hk; lia.
  - intros H; exists (Z.to_nat (n - a)); split; [lia|].
    apply in_seq; lia.
Qed.

Lemma range_empty (a b : Z) : (b <= a)%Z -> range a b = [].
Proof.
  intros H; unfold range. replace (Z.to_nat (b - a)) with O by lia. reflexivity.
Qed.

Lemma range_length (a b : Z) : length (range a b) = Z.to_nat (b - a).
Proof. unfold range; rewrite length_map, length_seq; reflexivity. Qed.

Lemma nth_range (a b : Z) (k : nat) (d : Z) :
  (k < Z.to_nat (b - a))%nat -> nth k (range a b) d = (a + Z.of_nat k)%Z.
Proof.
  intros H; unfold range.
  rewrite (nth_indep _ d (a + Z.of_nat 0)%Z) by (rewrite length_map, length_seq; exact H).
  rewrite (map_nth (fun k => (a + Z.of_nat k)%Z)), seq_nth by exact H.
  reflexivity.
Qed.

(** ** Lists updated at an index *)

Lemma length_list_set {A : Type} (i : nat) (v : A) (l : list A) :
  length (list_set i v l) = length l.
Proof.
  revert i; induction l as [|x l IH]; intros [|i]; simpl; auto.
Qed.

Lemma nth_list_set {A : Type} (i k : nat) (v d : A) (l : list A) :
  nth k (list_set i v l) d =
  if (k =? i)%nat && (i <? length l)%nat then v else nth k l d.
Proof.
  revert i k; induction l as [|x l IH]; intros [|i] [|k]; simpl; auto;
    rewrite ?andb_false_r; auto.
Qed.

(** ** Index normalisation, reads and writes *)

Lemma norm_index_nonneg (n : nat) (i : Z) :
  (0 <= i < Z.of_nat n)%Z -> norm_index n i = Ok (Z.to_nat i).
Proof.
  intros H; unfold norm_index.
  replace ((0 <=? i)%Z && (i <? Z.of_nat n)%Z) with true; [reflexivity|].
  symmetry; apply andb_true_iff; split; [apply Z.leb_le | apply Z.ltb_lt]; lia.
Qed.

Lemma norm_index_lt (n : nat) (i : Z) (k : nat) :
  norm_index n i = Ok k -> (k < n)%nat.
Proof.
  unfold norm_index.
  destruct ((0 <=? i)%Z && (i <? Z.of_nat n)%Z) eqn:E1.
  - intros [= <-]. apply andb_true_iff in E1 as [H1 H2].
    apply Z.leb_le in H1; apply Z.ltb_lt in H2; lia.
  - destruct ((- Z.of_nat n <=? i)%Z && (i <? 0)%Z) eqn:E2; [|discriminate].
    intros [= <-]. apply andb_true_iff in E2 as [H1 H2].
    apply Z.leb_le in H1; apply Z.ltb_lt in H2; lia.
Qed.

(** The only exception an index can raise is [IndexError]. *)
Lemma norm_index_cases (n : nat) (i : Z) :
  (exists k, norm_index n i = Ok k /\ (k < n)%nat) \/ norm_index n i = Raise IndexError.
Proof.
  destruct (norm_index n i) as [k|e] eqn:E.
  - left; exists k; split; [reflexivity | eapply norm_index_lt; eauto].
  - right; revert E; unfold norm_index.
    destruct (_ && _); [discriminate|]. destruct (_ && _); [discriminate|].
    intros [= <-]; reflexivity.
Qed.

Lemma has_shape_zeros (r c : nat) : has_shape (zeros r c) r c.
Proof.
  unfold has_shape, nrows, wf, zeros; simpl; repeat split.
  - apply repeat_length.
  - apply Forall_forall; intros x Hx. apply repeat_spec in Hx; subst.
    apply repeat_length.
Qed.

Lemma has_shape_ones (r c : nat) : has_shape (ones r c) r c.
Proof.
  unfold has_shape, nrows, wf, ones; simpl; repeat split.
  - apply repeat_length.
  - apply Forall_forall; intros x Hx. apply repeat_spec in Hx; subst.
    apply repeat_length.
Qed.

Lemma nth_repeat_default {A : Type} (x : A) (n k : nat) :
  nth k (repeat x n) x = x.
Proof.
  revert k; induction n as [|n IH]; intros [|k]; simpl; auto.
Qed.

Lemma get_zeros (r c i j : nat) : get (zeros r c) i j = 0.
Proof.
  unfold get, zeros; simpl.
  destruct (Nat.lt_ge_cases i r) as [Hi|Hi].
  - rewrite (nth_indep _ [] (repeat 0 c)) by (rewrite repeat_length; exact Hi).
    rewrite nth_repeat_default. apply nth_repeat_default.
  - rewrite (nth_overflow (repeat (repeat 0 c) r))
      by (rewrite repeat_length; exact Hi).
    destruct j; reflexivity.
Qed.

Lemma get_ones (r c i j : nat) :
  (i < r)%nat -> (j < c)%nat -> get (ones r c) i j = 1.
Proof.
  intros Hi Hj; unfold get, ones; simpl.
  rewrite (nth_indep _ [] (repeat 1 c)) by (rewrite repeat_length; exact Hi).
  rewrite nth_repeat_default.
  rewrite (nth_indep _ 0 1) by (rewrite repeat_length; exact Hj).
  apply nth_repeat_default.
Qed.

Lemma wf_row_length (a : ndarray) (i : nat) :
  wf a -> (i < nrows a)%nat -> length (nth i (rows a) []) = ncols a.
Proof.
  intros Hwf Hi. unfold wf in Hwf. rewrite Forall_forall in Hwf.
  apply Hwf, nth_In, Hi.
Qed.

Lemma has_shape_upd (a : ndarray) (r c i j : nat) (v : R) :
  has_shape a r c -> has_shape (upd a i j v) r c.
Proof.
  intros (Hr & Hc & Hwf); unfold has_shape, nrows, wf, upd in *; simpl.
  repeat split; [rewrite length_list_set; exact Hr | exact Hc |].
  apply Forall_forall; intros x Hx.
  apply In_nth with (d := []) in Hx as (k & Hk & <-).
  rewrite length_list_set in Hk. rewrite nth_list_set.
  rewrite Forall_forall in Hwf.
  destruct ((k =? i)%nat && (i <? length (rows a))%nat) eqn:E.
  - rewrite length_list_set. apply andb_true_iff in E as [_ E].
    apply Nat.ltb_lt in E. apply Hwf, nth_In, E.
  - apply Hwf, nth_In, Hk.
Qed.

Lemma get_upd (a : ndarray) (i j x y : nat) (v : R) :
  wf a -> (i < nrows a)%nat -> (j < ncols a)%nat ->
  get (upd a i j v) x y = if (x =? i)%nat && (y =? j)%nat then v else get a x y.
Proof.
  intros Hwf Hi Hj; unfold get, upd; simpl.
  rewrite nth_list_set.
  apply Nat.ltb_lt in Hi as Hi'; unfold nrows in Hi'; rewrite Hi', andb_true_r.
  destruct (x =? i)%nat eqn:E; simpl; [|reflexivity].
  apply Nat.eqb_eq in E; subst x.
  rewrite nth_list_set, wf_row_length by assumption.
  apply Nat.ltb_lt in Hj; rewrite Hj, andb_true_r. reflexivity.
Qed.

Lemma getitem_nonneg (a : ndarray) (i j : Z) :
  (0 <= i < Z.of_nat (nrows a))%Z -> (0 <= j < Z.of_nat (ncols a))%Z ->
  getitem a i j = Ok (get a (Z.to_nat i) (Z.to_nat j)).
Proof.
  intros Hi Hj; unfold getitem.
  rewrite !norm_index_nonneg by assumption. reflexivity.
Qed.

Lemma setitem_nonneg (a : ndarray) (i j : Z) (v : R) :
  (0 <= i < Z.of_nat (nrows a))%Z -> (0 <= j < Z.of_nat (ncols a))%Z ->
  setitem a i j v = Ok (upd a (Z.to_nat i) (Z.to_nat j) v).
Proof.
  intros Hi Hj; unfold setitem.
  rewrite !norm_index_nonneg by assumption. reflexivity.
Qed.

(** ** The Legendre engine *)

Ltac inv_bind H :=
  let a := fresh "a" in
  let E := fresh "E" in
  apply bind_Ok_inv in H as (a & E & H).

Section LegendreCall.

Variable self : LegendreFunctions.
Variable theta : R.

Let N : nat := maxdegree self.

(** What every stage of [__call__] keeps true of [Pnm]. *)
Let Inv (P : ndarray) : Prop :=
  has_shape P (S N) (S N) /\ lower_triangular P /\ get P 0 0 = 1 /\
  (cos theta = 0 -> odd_zero P).

Lemma call_seed_inv : Inv (upd (zeros (S N) (S N)) 0 0 1).
Proof.
  destruct (has_shape_zeros (S N) (S N)) as (Hr & Hc & Hwf).
  assert (G : forall x y, get (upd (zeros (S N) (S N)) 0 0 1) x y =
                          if (x =? 0)%nat && (y =? 0)%nat then 1 else 0).
  { intros x y. rewrite get_upd by (rewrite ?Hr, ?Hc; auto; lia).
    rewrite get_zeros. reflexivity. }
  split; [apply has_shape_upd, has_shape_zeros|].
  split; [|split].
  - intros i j Hij. rewrite G. destruct i, j; simpl; auto; lia.
  - apply G.
  - intros _ i j Hij. rewrite G. destruct i, j; simpl; auto. discriminate.
Qed.

(** A write below or on the diagonal, outside row 0, of a value that
    vanishes at odd positions when [cos theta = 0]. *)
Lemma call_write_inv (P : ndarray) (i j : nat) (v : R) :
  Inv P -> (i < S N)%nat -> (j <= i)%nat -> (1 <= i)%nat ->
  (cos theta = 0 -> Nat.odd (i + j) = true -> v = 0) ->
  Inv (upd P i j v).
Proof.
  intros (Hs & Hl & H0 & Ho) Hi Hj Hi1 Hv.
  destruct Hs as (Hr & Hc & Hwf).
  assert (G : forall x y, get (upd P i j v) x y =
                          if (x =? i)%nat && (y =? j)%nat then v else get P x y).
  { intros x y. apply get_upd; auto; lia. }
  split; [apply has_shape_upd; repeat split; auto|].
  split; [|split].
  - intros x y Hxy. rewrite G.
    destruct (x =? i)%nat eqn:E1, (y =? j)%nat eqn:E2; simpl; auto.
    apply Nat.eqb_eq in E1, E2. lia.
  - rewrite G. destruct i; [lia|]. simpl. exact H0.
  - intros Hc0 x y Hxy. rewrite G.
    destruct (x =? i)%nat eqn:E1, (y =? j)%nat eqn:E2; simpl;
      try (apply Ho; assumption).
    apply Nat.eqb_eq in E1, E2; subst. auto.
Qed.

Lemma call_setitem_inv (P P' : ndarray) (n m : Z) (v : R) :
  Inv P -> (1 <= n < Z.of_nat N + 1)%Z -> (0 <= m <= n)%Z ->
  (cos theta = 0 -> Nat.odd (Z.to_nat n + Z.to_nat m) = true -> v = 0) ->
  setitem P n m v = Ok P' -> Inv P'.
Proof.
  intros HI Hn Hm Hv H.
  destruct HI as ((Hr & Hc & Hwf) & HI).
  rewrite setitem_nonneg in H by lia. injection H as <-.
  apply call_write_inv; try lia; auto.
  repeat split; auto; apply HI.
Qed.

Lemma call_getitem (P : ndarray) (n m : Z) (p : R) :
  Inv P -> (0 <= n < Z.of_nat N + 1)%Z -> (0 <= m < Z.of_nat N + 1)%Z ->
  getitem P n m = Ok p -> p = get P (Z.to_nat n) (Z.to_nat m).
Proof.
  intros ((Hr & Hc & Hwf) & _) Hn Hm H.
  rewrite getitem_nonneg in H by lia. congruence.
Qed.

(** [__call__], when it returns, returns a lower-triangular matrix of shape
    [(maxdegree+1, maxdegree+1)] with [Pnm[0,0] = 1], whose entries at odd
    [n + m] vanish when [cos theta = 0]. *)
Lemma call_inv (P : ndarray) :
  LegendreFunctions_call self theta = Ok P ->
  has_shape P (S N) (S N) /\ lower_triangular P /\ get P 0 0 = 1 /\
  (cos theta = 0 -> odd_zero P).
Proof.
  unfold LegendreFunctions_call; fold N. intros H.
  inv_bind H. rename a into P0.
  assert (I0 : Inv P0).
  { destruct (has_shape_zeros (S N) (S N)) as (Hr & Hc & _).
    rewrite setitem_nonneg in E by lia. injection E as <-.
    apply call_seed_inv. }
  inv_bind H. rename a into P1.
  assert (I1 : Inv P1).
  { apply (foldM_inv Inv _ _) with (s := P0) (s' := P1) in E0; auto.
    intros n s s' Hn Hs Hb. apply in_range in Hn.
    inv_bind Hb. inv_bind Hb.
    refine (call_setitem_inv s s' n n _ Hs _ _ _ Hb); try lia.
    intros _ Hodd. exfalso.
    replace (Z.to_nat n + Z.to_nat n)%nat with (2 * Z.to_nat n)%nat in Hodd by lia.
    rewrite Nat.odd_even in Hodd. discriminate. }
  inv_bind H. rename a into P2.
  assert (I2 : Inv P2).
  { apply (foldM_inv Inv _ _) with (s := P1) (s' := P2) in E1; auto.
    intros m s s' Hm Hs Hb. apply in_range in Hm.
    inv_bind Hb. inv_bind Hb.
    refine (call_setitem_inv s s' (m + 1) m _ Hs _ _ _ Hb); try lia.
    intros Hc0 _. rewrite Hc0. ring. }
  apply (foldM_inv Inv _ _) with (s := P2) (s' := P) in H; auto.
  intros m s s' Hm Hs Hf. apply in_range in Hm.
  apply (foldM_inv Inv _ _) with (s := s) (s' := s') in Hf; auto.
  intros n t t' Hn Ht Hb. apply in_range in Hn.
  inv_bind Hb. inv_bind Hb. inv_bind Hb. inv_bind Hb.
  refine (call_setitem_inv t t' n m _ Ht _ _ _ Hb); try lia.
  intros Hc0 Hodd.
  apply call_getitem in E5; auto; try lia. subst.
  destruct Ht as (_ & _ & _ & Ho). rewrite Ho, Hc0; auto; [ring|].
  rewrite <- Hodd.
  replace (Z.to_nat n) with (S (S (Z.to_nat (n - 2)))) by lia.
  simpl. reflexivity.
Qed.

(** With recursion tables of the right shape [__call__] returns. *)
Lemma call_total :
  has_shape (LF1 self) (S N) (S N) -> has_shape (LF2 self) (S N) (S N) ->
  exists P, LegendreFunctions_call self theta = Ok P.
Proof.
  intros (Hr1 & Hc1 & _) (Hr2 & Hc2 & _).
  unfold LegendreFunctions_call; fold N.
  set (Sh := fun P : ndarray => has_shape P (S N) (S N)).
  assert (W : forall P n m v, Sh P ->
              (0 <= n < Z.of_nat N + 1)%Z -> (0 <= m < Z.of_nat N + 1)%Z ->
              exists P', setitem P n m v = Ok P' /\ Sh P').
  { intros P n m v HP Hn Hm. destruct HP as (Hr & Hc & Hwf).
    rewrite setitem_nonneg by lia. eexists; split; [reflexivity|].
    apply has_shape_upd; repeat split; auto. }
  assert (G : forall P n m, Sh P ->
              (0 <= n < Z.of_nat N + 1)%Z -> (0 <= m < Z.of_nat N + 1)%Z ->
              exists p, getitem P n m = Ok p).
  { intros P n m (Hr & Hc & Hwf) Hn Hm.
    rewrite getitem_nonneg by lia. eauto. }
  assert (G1 : forall n m,
              (0 <= n < Z.of_nat N + 1)%Z -> (0 <= m < Z.of_nat N + 1)%Z ->
              exists p, getitem (LF1 self) n m = Ok p).
  { intros n m Hn Hm. rewrite getitem_nonneg by lia. eauto. }
  assert (G2 : forall n m,
              (0 <= n < Z.of_nat N + 1)%Z -> (0 <= m < Z.of_nat N + 1)%Z ->
              exists p, getitem (LF2 self) n m = Ok p).
  { intros n m Hn Hm. rewrite getitem_nonneg by lia. eauto. }
  destruct (W (zeros (S N) (S N)) 0%Z 0%Z 1) as (P0 & -> & S0);
    [apply has_shape_zeros | lia | lia |]; simpl.
  destruct (foldM_total Sh
    (fun n Pnm => l <- getitem (LF1 self) n n ;;
                  p <- getitem Pnm (n - 1) (n - 1) ;;
                  setitem Pnm n n (l * sin theta * p))
    (range 1 (Z.of_nat N + 1))) with (s := P0) as (P1 & -> & S1); auto.
  { intros n s Hn Hs. apply in_range in Hn.
    destruct (G1 n n) as (l & ->); try lia; simpl.
    destruct (G s (n - 1)%Z (n - 1)%Z) as (p & ->); auto; try lia; simpl.
    apply W; auto; lia. }
  simpl.
  destruct (foldM_total Sh
    (fun m Pnm => l <- getitem (LF1 self) (m + 1) m ;;
                  p <- getitem Pnm m m ;;
                  setitem Pnm (m + 1) m (l * cos theta * p))
    (range 0 (Z.of_nat N))) with (s := P1) as (P2 & -> & S2); auto.
  { intros m s Hm Hs. apply in_range in Hm.
    destruct (G1 (m + 1)%Z m) as (l & ->); try lia; simpl.
    destruct (G s m m) as (p & ->); auto; try lia; simpl.
    apply W; auto; lia. }
  simpl.
  match goal with
  | |- exists P, foldM ?f ?l P2 = Ok P =>
      destruct (foldM_total Sh f l) with (s := P2) as (P3 & -> & _); eauto
  end.
  intros m s Hm Hs. apply in_range in Hm.
  apply foldM_total; auto.
  intros n t Hn Ht. apply in_range in Hn.
  destruct (G1 n m) as (l1 & ->); try lia; simpl.
  destruct (G t (n - 1)%Z m) as (p1 & ->); auto; try lia; simpl.
  destruct (G2 n m) as (l2 & ->); try lia; simpl.
  destruct (G t (n - 2)%Z m) as (p2 & ->); auto; try lia; simpl.
  apply W; auto; lia.
Qed.

End LegendreCall.

Lemma pydiv_int_nonzero (x : R) (d : Z) :
  d <> 0%Z -> pydiv_int x d = Ok (x / IZR d).
Proof.
  intros H; unfold pydiv_int. apply Z.eqb_neq in H; rewrite H. reflexivity.
Qed.

(** For a maximum degree of at least one, [__init__] returns an engine with
    both recursion tables of shape [(maxdegree+1, maxdegree+1)]. *)
Lemma init_total (n : nat) :
  (1 <= n)%nat ->
  exists lf, LegendreFunctions_init n = Ok lf /\ maxdegree lf = n /\
             has_shape (LF1 lf) (S n) (S n) /\ has_shape (LF2 lf) (S n) (S n).
Proof.
  intros Hn. unfold LegendreFunctions_init.
  set (Sh := fun a : ndarray => has_shape a (S n) (S n)).
  assert (W : forall a i j v, Sh a ->
              (0 <= i < Z.of_nat n + 1)%Z -> (0 <= j < Z.of_nat n + 1)%Z ->
              exists a', setitem a i j v = Ok a' /\ Sh a').
  { intros a i j v (Hr & Hc & Hwf) Hi Hj.
    rewrite setitem_nonneg by lia. eexists; split; [reflexivity|].
    apply has_shape_upd; repeat split; auto. }
  destruct (W (zeros (S n) (S n)) 1%Z 1%Z (sqrt 3)) as (A0 & -> & S0);
    [apply has_shape_zeros | lia | lia |]; cbn [bind].
  match goal with
  | |- context [foldM ?f ?l A0] =>
      destruct (foldM_total Sh f l) with (s := A0) as (A1 & -> & S1); auto
  end.
  { intros k a Hk Ha. apply in_range in Hk.
    rewrite pydiv_int_nonzero by lia; cbn [bind]. apply W; auto; lia. }
  cbn [bind].
  match goal with
  | |- context [foldM ?f ?l (A1, ?B)] =>
      destruct (foldM_total (fun st => Sh (fst st) /\ Sh (snd st)) f l)
        with (s := (A1, B)) as ([A2 B2] & -> & S2 & S2')
  end.
  { intros m st Hm Hst. apply in_range in Hm.
    apply foldM_total; auto.
    intros k [a b] Hk [Ha Hb]. apply in_range in Hk. cbn [fst snd] in Ha, Hb.
    rewrite pydiv_int_nonzero by (apply Z.neq_mul_0; lia); cbn [bind].
    destruct (W a k m (sqrt (IZR (2 * k + 1) / IZR ((k + m) * (k - m)) * IZR (2 * k - 1))))
      as (a' & -> & Ha'); auto; try lia; cbn [bind].
    rewrite pydiv_int_nonzero by lia; cbn [bind].
    match goal with
    | |- context [setitem b k m ?v] =>
        destruct (W b k m v) as (b' & -> & Hb'); auto; try lia
    end.
    cbn [bind]. eauto. }
  { split; cbn [fst snd]; [exact S1 | apply has_shape_zeros]. }
  simpl. eexists; split; [reflexivity|]. simpl. auto.
Qed.

(** The engine built by [__init__] evaluates at every colatitude. *)
Lemma init_call_total (n : nat) (lf : LegendreFunctions) (theta : R) :
  LegendreFunctions_init n = Ok lf ->
  exists P, LegendreFunctions_call lf theta = Ok P.
Proof.
  intros H. destruct n as [|n]; [discriminate H|].
  destruct (init_total (S n)) as (lf' & E & Hm & H1 & H2); [lia|].
  rewrite E in H; injection H as <-.
  apply call_total; rewrite Hm; assumption.
Qed.

Lemma init_maxdegree (n : nat) (lf : LegendreFunctions) :
  LegendreFunctions_init n = Ok lf -> maxdegree lf = n.
Proof.
  intros H. destruct n as [|n]; [discriminate H|].
  destruct (init_total (S n)) as (lf' & E & Hm & _); [lia|].
  congruence.
Qed.

(** C5.  At maximum degree 0 the construction of the engine does not return:
    the seed assignment [LF1[1,1] = sqrt(3)] indexes a 1x1 table out of its
    bounds and raises [IndexError]. *)
Theorem legendre_init_degree_zero : LegendreFunctions_init 0 = Raise IndexError.
Proof. reflexivity. Qed.

(** At maximum degree 1 the engine is built and evaluates, at every
    colatitude, to a 2x2 matrix with [Pnm[0][0] = 1]. *)
Lemma legendre_degree_one (theta : R) :
  exists lf Pnm,
    LegendreFunctions_init 1 = Ok lf /\
    LegendreFunctions_call lf theta = Ok Pnm /\
    has_shape Pnm 2 2 /\ get Pnm 0 0 = 1.
Proof.
  destruct (init_total 1) as (lf & E & Hm & H1 & H2); [lia|].
  destruct (init_call_total 1 lf theta E) as (Pnm & HP).
  exists lf, Pnm. repeat split; auto;
    destruct (call_inv lf theta Pnm HP) as (Hs & _ & H0 & _);
    rewrite Hm in Hs; auto; apply Hs.
Qed.

(** ** coeffisort *)

Lemma py_int_IZR (z : Z) : py_int (IZR z) = z.
Proof.
  unfold py_int. destruct (Rle_dec 0 (IZR z)) as [H|H].
  - symmetry; apply Int_part_spec; lra.
  - rewrite <- opp_IZR.
    replace (Int_part (IZR (- z))) with (- z)%Z; [lia|].
    apply Int_part_spec; lra.
Qed.

(** The loop stops at an over-limit row: whatever follows it is not read. *)
Lemma coeffisort_loop_break (pre post : list coeff_row) (row : coeff_row)
    (maxdeg : nat) (cnm snm : ndarray) :
  row0 row > INR maxdeg ->
  coeffisort_loop (pre ++ row :: post) maxdeg cnm snm =
  coeffisort_loop pre maxdeg cnm snm.
Proof.
  intros Hrow. revert cnm snm.
  induction pre as [|r pre IH]; intros cnm snm; simpl.
  - destruct (Rgt_dec (row0 row) (INR maxdeg)); [reflexivity | contradiction].
  - destruct (Rgt_dec (row0 r) (INR maxdeg)); [reflexivity|].
    destruct (setitem cnm _ _ _); simpl; [|reflexivity].
    destruct (setitem snm _ _ _); simpl; [|reflexivity].
    apply IH.
Qed.

(** C4.  When [row] is the first row whose degree exceeds the maximum degree,
    the outcome of [coeffisort] is that of the rows before it alone: the rows
    after it are ignored, whatever their degree. *)
Theorem coeffisort_early_exit (pre post : list coeff_row) (row : coeff_row)
    (maxdeg : nat) :
  Forall (fun r => ~ row0 r > INR maxdeg) pre ->
  row0 row > INR maxdeg ->
  coeffisort (pre ++ row :: post) maxdeg = coeffisort pre maxdeg.
Proof.
  intros _ Hrow. unfold coeffisort. apply coeffisort_loop_break, Hrow.
Qed.

Lemma coeffisort_early_exit_witness :
  coeffisort ([Row 1 0 5 6] ++ Row 3 0 7 8 :: [Row 1 1 9 9]) 2 =
  coeffisort [Row 1 0 5 6] 2.
Proof.
  apply (coeffisort_early_exit [Row 1 0 5 6] [Row 1 1 9 9] (Row 3 0 7 8) 2).
  - constructor; [simpl; lra | constructor].
  - simpl; lra.
Defined.

Lemma coeffisort_loop_within (r : coeff_row) (mat : list coeff_row)
    (maxdeg : nat) (cnm snm : ndarray) :
  row0 r <= INR maxdeg ->
  coeffisort_loop (r :: mat) maxdeg cnm snm =
  (cnm' <- setitem cnm (py_int (row0 r)) (py_int (row1 r)) (row2 r) ;;
   snm' <- setitem snm (py_int (row0 r)) (py_int (row1 r)) (row3 r) ;;
   coeffisort_loop mat maxdeg cnm' snm').
Proof.
  intros H; simpl.
  destruct (Rgt_dec (row0 r) (INR maxdeg)); [lra | reflexivity].
Qed.


(** Two arrays of one shape with the same entries are equal. *)
Lemma ndarray_ext (a b : ndarray) (r c : nat) :
  has_shape a r c -> has_shape b r c ->
  (forall i j, (i < r)%nat -> (j < c)%nat -> get a i j = get b i j) ->
  a = b.
Proof.
  destruct a as [ca ra], b as [cb rb].
  unfold has_shape, nrows, wf, get; simpl.
  intros (Hra & Hca & Hwa) (Hrb & Hcb & Hwb) H. subst ca cb.
  f_equal. apply (nth_ext _ _ [] []); [congruence|].
  intros i Hi. rewrite Forall_forall in Hwa, Hwb.
  assert (La : length (nth i ra []) = c) by (apply Hwa, nth_In; lia).
  assert (Lb : length (nth i rb []) = c) by (apply Hwb, nth_In; lia).
  apply (nth_ext _ _ 0 0); [congruence|].
  intros j Hj. apply H; lia.
Qed.

Lemma degree_sorted_tail (r : coeff_row) (mat : list coeff_row) :
  degree_sorted (r :: mat) -> degree_sorted mat.
Proof.
  intros H i j Hij Hj. apply (H (S i) (S j)); simpl; lia.
Qed.

Lemma degree_sorted_head (r r' : coeff_row) (mat : list coeff_row) :
  degree_sorted (r :: mat) -> In r' mat -> row0 r <= row0 r'.
Proof.
  intros H Hin. apply In_nth with (d := Row 0 0 0 0) in Hin as (k & Hk & <-).
  apply (H O (S k)); simpl; lia.
Qed.

(** A write of [coeffisort] goes to the cell of the row. *)
Lemma setitem_cell (a : ndarray) (maxdeg : nat) (r : coeff_row) (v : R) :
  has_shape a (S maxdeg) (S maxdeg) ->
  setitem a (py_int (row0 r)) (py_int (row1 r)) v =
  (ij <- cell maxdeg r ;; Ok (upd a (fst ij) (snd ij) v)).
Proof.
  intros (Hr & Hc & _). unfold setitem, cell. rewrite Hr, Hc.
  destruct (norm_index (S maxdeg) (py_int (row0 r))); simpl; [|reflexivity].
  destruct (norm_index (S maxdeg) (py_int (row1 r))); reflexivity.
Qed.

Lemma cell_cases (maxdeg : nat) (r : coeff_row) :
  (exists i j, cell maxdeg r = Ok (i, j) /\ (i < S maxdeg)%nat /\ (j < S maxdeg)%nat)
  \/ cell maxdeg r = Raise IndexError.
Proof.
  unfold cell.
  destruct (norm_index_cases (S maxdeg) (py_int (row0 r))) as [(i & -> & Hi)| ->];
    simpl; auto.
  destruct (norm_index_cases (S maxdeg) (py_int (row1 r))) as [(j & -> & Hj)| ->];
    simpl; auto.
  left; exists i, j; auto.
Qed.

Section CoeffisortSorted.

Variable maxdeg : nat.

(** The rows of [mat] that the loop reads when [mat] is sorted. *)
Let read (mat : list coeff_row) (r : coeff_row) : Prop :=
  In r mat /\ row0 r <= INR maxdeg.

(** The outcome of the loop on a sorted, consistent list: [IndexError] when
    a row of degree within the limit has an index outside the matrices,
    else every cell holds the values of the rows written to it, or its
    initial value when there is none. *)
Lemma coeffisort_loop_sorted (mat : list coeff_row) :
  forall cnm snm,
  has_shape cnm (S maxdeg) (S maxdeg) -> has_shape snm (S maxdeg) (S maxdeg) ->
  degree_sorted mat -> consistent maxdeg mat ->
  ((exists r, read mat r /\ cell maxdeg r = Raise IndexError) /\
   coeffisort_loop mat maxdeg cnm snm = Raise IndexError)
  \/
  ((forall r, read mat r -> exists ij, cell maxdeg r = Ok ij) /\
   exists cnm' snm',
     coeffisort_loop mat maxdeg cnm snm = Ok (cnm', snm') /\
     has_shape cnm' (S maxdeg) (S maxdeg) /\
     has_shape snm' (S maxdeg) (S maxdeg) /\
     forall i j,
       (forall r, read mat r -> cell maxdeg r = Ok (i, j) ->
                  get cnm' i j = row2 r /\ get snm' i j = row3 r) /\
       ((forall r, read mat r -> cell maxdeg r <> Ok (i, j)) ->
        get cnm' i j = get cnm i j /\ get snm' i j = get snm i j)).
Proof.
  induction mat as [|r mat IH]; intros cnm snm Hc Hs Hsort Hcons.
  - right. split; [intros r [[] _]|].
    exists cnm, snm. split; [reflexivity|]. split; [exact Hc|].
    split; [exact Hs|]. intros i j. split; [intros r [[] _] | auto].
  - destruct (Rgt_dec (row0 r) (INR maxdeg)) as [Hover|Hin].
    + (* every row is over the limit *)
      assert (Hnone : forall r', ~ read (r :: mat) r').
      { intros r' [[<-|Hr'] Hle]; [lra|].
        pose proof (degree_sorted_head r r' mat Hsort Hr'). lra. }
      right. split; [intros r' Hr'; destruct (Hnone r' Hr')|].
      exists cnm, snm. simpl.
      destruct (Rgt_dec (row0 r) (INR maxdeg)); [|contradiction].
      split; [reflexivity|]. split; [exact Hc|]. split; [exact Hs|].
      intros i j. split; [intros r' Hr'; destruct (Hnone r' Hr') | auto].
    + assert (Hle : row0 r <= INR maxdeg) by lra.
      rewrite coeffisort_loop_within by exact Hle.
      rewrite (setitem_cell cnm maxdeg r) by exact Hc.
      rewrite (setitem_cell snm maxdeg r) by exact Hs.
      destruct (cell_cases maxdeg r) as [(i0 & j0 & E0 & Hi0 & Hj0)|E0].
      2:{ left. split; [exists r; split; [split; simpl; auto | exact E0]|].
          rewrite E0; reflexivity. }
      rewrite E0; cbn [bind fst snd].
      assert (Hcons' : consistent maxdeg mat).
      { intros a b ij Ha Hb. apply Hcons; simpl; auto. }
      pose proof (IH (upd cnm i0 j0 (row2 r)) (upd snm i0 j0 (row3 r))
                    (has_shape_upd _ _ _ _ _ _ Hc) (has_shape_upd _ _ _ _ _ _ Hs)
                    (degree_sorted_tail r mat Hsort) Hcons') as IH'.
      destruct IH'
        as [((r' & (Hr' & Hle') & Er') & ->) | (Hall & c' & s' & -> & Hc' & Hs' & Hval)].
      * left. split; [|reflexivity].
        exists r'; split; [split; simpl; auto | exact Er'].
      * right. split.
        { intros r' [[<-|Hr'] Hle']; [eauto | apply Hall; split; auto]. }
        exists c', s'. split; [reflexivity|]. split; [exact Hc'|].
        split; [exact Hs'|]. intros i j.
        destruct (Hval i j) as (Hv1 & Hv2).
        destruct Hc as (Hcr & Hcc & Hcw), Hs as (Hsr & Hsc & Hsw).
        split.
        { intros r' [[<-|Hr'] Hle'] Er'; [|apply Hv1; [split|]; auto].
          destruct (classic (exists r'', read mat r'' /\ cell maxdeg r'' = Ok (i, j)))
            as [(r'' & Hr'' & Er'')|Hno].
          - destruct (Hv1 r'' Hr'' Er'') as [-> ->].
            destruct Hr'' as [Hr'' Hle''].
            destruct (Hcons r'' r (i, j)); simpl; auto.
          - destruct Hv2 as [-> ->].
            { intros r'' Hr'' Er''. apply Hno; eauto. }
            rewrite E0 in Er'. injection Er' as <- <-.
            rewrite !get_upd by (auto; lia).
            rewrite !Nat.eqb_refl. simpl. auto. }
        { intros Hno. destruct Hv2 as [-> ->].
          { intros r'' [Hr'' Hle'']. apply Hno. split; simpl; auto. }
          rewrite !get_upd by (auto; lia).
          destruct ((i =? i0)%nat && (j =? j0)%nat) eqn:E; auto.
          apply andb_true_iff in E as [E1 E2].
          apply Nat.eqb_eq in E1, E2; subst.
          exfalso; apply (Hno r); [split; simpl; auto | exact E0]. }
Qed.

End CoeffisortSorted.




(** ** Love numbers *)

Lemma nth_arange (a b : Z) (k : nat) (d : R) :
  (k < Z.to_nat (b - a))%nat -> nth k (arange a b) d = IZR (a + Z.of_nat k).
Proof.
  intros H; unfold arange.
  rewrite (nth_indep _ d (IZR 0)) by (rewrite length_map, range_length; exact H).
  rewrite map_nth, nth_range by exact H. reflexivity.
Qed.

Lemma arange_length (a b : Z) : length (arange a b) = Z.to_nat (b - a).
Proof. unfold arange; rewrite length_map; apply range_length. Qed.

Lemma line_through_left (x0 y0 x1 y1 : R) : line_through x0 y0 x1 y1 x0 = y0.
Proof. unfold line_through, Rdiv. ring. Qed.

Lemma line_through_right (x0 y0 x1 y1 : R) :
  x0 < x1 -> line_through x0 y0 x1 y1 x1 = y1.
Proof. intros H; unfold line_through. field. lra. Qed.

Lemma line_through_slope (x0 y0 x1 y1 x : R) :
  (y1 - y0) / (x1 - x0) * (x - x0) + y0 = line_through x0 y0 x1 y1 x.
Proof. unfold line_through, Rdiv. ring. Qed.

Lemma last_cons_indep {A : Type} (x : A) (l : list A) (d d' : A) :
  last (x :: l) d = last (x :: l) d'.
Proof.
  revert x; induction l as [|y l IH]; intros x; [reflexivity|].
  change (last (y :: l) d = last (y :: l) d'). apply IH.
Qed.

(** On increasing sample points, from the first to the last of them, the
    scan of [np.interp] computes the piecewise-linear interpolation. *)
Lemma interp_scan_pw_linear (x : R) (xp fp : list R) :
  forall x0 y0,
  xp <> [] -> length xp = length fp -> Sorted Rlt (x0 :: xp) ->
  x0 <= x <= last xp x0 ->
  pw_linear ((x0, y0) :: combine xp fp) x (interp_scan x (x0 :: xp) (y0 :: fp)).
Proof.
  revert fp; induction xp as [|x1 xp IH]; intros fp x0 y0 Hne Hlen Hs Hx;
    [contradiction|].
  destruct fp as [|y1 fp]; [discriminate|].
  assert (H01 : x0 < x1).
  { inversion Hs as [|? ? _ Hhd]; subst. inversion Hhd; subst; assumption. }
  assert (Hs' : Sorted Rlt (x1 :: xp)) by (inversion Hs; assumption).
  cbn [interp_scan combine].
  destruct (Rlt_dec x x1) as [Hlt|Hge].
  - destruct (Req_dec_T x0 x) as [->|Hneq].
    + assert (Hp : x <= x <= x1) by lra.
      pose proof (pw_here x y0 x1 y1 (combine xp fp) x Hp) as H.
      rewrite line_through_left in H. exact H.
    + rewrite line_through_slope. apply pw_here; lra.
  - destruct xp as [|x2 xp].
    + simpl in Hx. assert (x = x1) by lra; subst x.
      destruct fp; [|discriminate].
      cbn [interp_scan combine].
      assert (Hp : x0 <= x1 <= x1) by lra.
      pose proof (pw_here x0 y0 x1 y1 [] x1 Hp) as H.
      rewrite line_through_right in H by exact H01. exact H.
    + apply pw_later. apply IH; auto; try discriminate.
      split; [lra|]. destruct Hx as [_ Hx].
      rewrite (last_cons_indep x2 xp x1 x0). exact Hx.
Qed.

Lemma interp_scan_step (x x0 x1 y0 y1 : R) (xp fp : list R) :
  interp_scan x (x0 :: x1 :: xp) (y0 :: y1 :: fp) =
  if Rlt_dec x x1 then
    if Req_dec_T x0 x then y0 else (y1 - y0) / (x1 - x0) * (x - x0) + y0
  else interp_scan x (x1 :: xp) (y1 :: fp).
Proof. reflexivity. Qed.

(** Beyond the last sample point the scan returns the last sample value. *)
Lemma interp_scan_clamp (x : R) (xp fp : list R) :
  forall x0 y0,
  length xp = length fp -> Forall (fun e => e < x) xp ->
  interp_scan x (x0 :: xp) (y0 :: fp) = last fp y0.
Proof.
  revert fp; induction xp as [|x1 xp IH]; intros fp x0 y0 Hlen Hall;
    destruct fp as [|y1 fp]; try discriminate; [reflexivity|].
  inversion Hall as [|? ? H1 Hall']; subst.
  rewrite interp_scan_step.
  destruct (Rlt_dec x x1); [lra|].
  rewrite IH by (simpl in Hlen; auto; lia).
  destruct fp as [|y2 fp]; [reflexivity|].
  rewrite (last_cons_indep y2 fp y1 y0). reflexivity.
Qed.

Lemma kl_columns :
  column 0 kl = [2; 3; 4; 5; 6; 7; 8; 9; 10; 12; 15; 20; 30; 40; 50; 70; 100; 150; 200] /\
  column 1 kl = [-0.303; -0.194; -0.132; -0.104; -0.089; -0.081; -0.076; -0.072;
                 -0.069; -0.064; -0.058; -0.051; -0.040; -0.033; -0.027; -0.020;
                 -0.014; -0.010; -0.007].
Proof. split; reflexivity. Qed.

(** [LoveNumbers] always returns: two zeros followed by the interpolated
    values at the degrees 2, 3, ..., maxdegree. *)
Lemma LoveNumbers_eq (maxdeg : nat) :
  LoveNumbers maxdeg =
  Ok ([0; 0] ++ map (fun x => interp1 x (column 0 kl) (column 1 kl))
                    (arange 2 (Z.of_nat maxdeg + 1))).
Proof. reflexivity. Qed.

Lemma LoveNumbers_nth (maxdeg n : nat) (erg : list R) :
  LoveNumbers maxdeg = Ok erg -> (2 <= n <= maxdeg)%nat ->
  nth n erg 0 = interp1 (INR n) (column 0 kl) (column 1 kl).
Proof.
  rewrite LoveNumbers_eq. intros [= <-] Hn.
  destruct n as [|[|k]]; try lia.
  cbn [app nth].
  set (f := fun x => interp1 x (column 0 kl) (column 1 kl)).
  assert (Hk : (k < Z.to_nat (Z.of_nat maxdeg + 1 - 2))%nat) by lia.
  rewrite (nth_indep _ 0 (f 0)) by (rewrite length_map, arange_length; exact Hk).
  rewrite map_nth, nth_arange by exact Hk.
  unfold f. rewrite INR_IZR_INZ. do 2 f_equal. lia.
Qed.

(** C6.  For every maximum degree of at least 2, [LoveNumbers] returns a
    vector of [maxdegree + 1] entries; the entries 0 and 1 are zero; the
    entry at a degree [n] from 2 to 200 is the piecewise-linear interpolation
    of the reference table at [n]; the entry at a degree above 200 is the
    last tabulated value, -0.007. *)
Theorem love_numbers_spec (maxdeg : nat) :
  (2 <= maxdeg)%nat ->
  exists erg,
    LoveNumbers maxdeg = Ok erg /\
    length erg = (maxdeg + 1)%nat /\
    nth 0 erg 0 = 0 /\ nth 1 erg 0 = 0 /\
    (forall n : nat, (2 <= n <= 200)%nat -> (n <= maxdeg)%nat ->
       pw_linear kl_table (INR n) (nth n erg 0)) /\
    (forall n : nat, (200 < n)%nat -> (n <= maxdeg)%nat ->
       nth n erg 0 = -0.007).
Proof.
  intros Hd. eexists. split; [apply LoveNumbers_eq|].
  split; [|split; [reflexivity | split; [reflexivity|split]]].
  - cbn [app length]. rewrite length_map, arange_length. lia.
  - intros n Hn Hle.
    rewrite (LoveNumbers_nth maxdeg n _ (LoveNumbers_eq maxdeg)) by lia.
    destruct kl_columns as [-> ->].
    assert (H2 : 2 <= INR n) by (rewrite INR_IZR_INZ; apply IZR_le; lia).
    assert (H200 : INR n <= 200) by (rewrite INR_IZR_INZ; apply IZR_le; lia).
    unfold interp1. cbn [hd].
    destruct (Rlt_dec (INR n) 2); [lra|].
    apply interp_scan_pw_linear; [discriminate | reflexivity | | simpl; lra].
    repeat (constructor; try lra).
  - intros n Hn Hle.
    rewrite (LoveNumbers_nth maxdeg n _ (LoveNumbers_eq maxdeg)) by lia.
    destruct kl_columns as [-> ->].
    assert (H200 : 201 <= INR n) by (rewrite INR_IZR_INZ; apply IZR_le; lia).
    unfold interp1. cbn [hd].
    destruct (Rlt_dec (INR n) 2); [lra|].
    rewrite interp_scan_clamp; [reflexivity | reflexivity |].
    repeat (constructor; try lra).
Qed.

Lemma love_numbers_spec_witness :
  exists erg,
    LoveNumbers 250 = Ok erg /\
    length erg = (250 + 1)%nat /\
    nth 0 erg 0 = 0 /\ nth 1 erg 0 = 0 /\
    (forall n : nat, (2 <= n <= 200)%nat -> (n <= 250)%nat ->
       pw_linear kl_table (INR n) (nth n erg 0)) /\
    (forall n : nat, (200 < n)%nat -> (n <= 250)%nat ->
       nth n erg 0 = -0.007).
Proof.
  apply (love_numbers_spec 250). lia.
Defined.

(** C9, as stated, fails: below degree 2 the generator does not raise. *)
Lemma love_numbers_degenerate_counterexample :
  ~ (forall maxdeg : nat, (maxdeg < 2)%nat -> raises (LoveNumbers maxdeg)).
Proof.
  intros H. destruct (H 1%nat) as [e He]; [lia|].
  rewrite LoveNumbers_eq in He. discriminate He.
Qed.

(** C9, amended.  For every maximum degree below 2, [LoveNumbers] returns
    normally the two-entry vector [0, 0], which is not shorter than
    [maxdegree + 1]. *)
Theorem love_numbers_degenerate (maxdeg : nat) :
  (maxdeg < 2)%nat ->
  LoveNumbers maxdeg = Ok [0; 0] /\ (maxdeg + 1 <= length [0; 0])%nat.
Proof.
  intros H. split; [|simpl; lia].
  rewrite LoveNumbers_eq. unfold arange.
  rewrite range_empty by lia. reflexivity.
Qed.

Lemma love_numbers_degenerate_witness :
  LoveNumbers 0 = Ok [0; 0] /\ (0 + 1 <= length [0; 0])%nat.
Proof.
  apply (love_numbers_degenerate 0). lia.
Defined.

(** ** The filter set-up *)

(** [GaussFilterCoeff] itself has no special case for a filter radius that
    is not positive: called with [- fr] it computes what it computes for
    [fr].  The bypass is the test of [filter_coeff]. *)
Lemma GaussFilterCoeff_even (R0 fr : R) (maxdeg : nat) :
  GaussFilterCoeff R0 (- fr) maxdeg = GaussFilterCoeff R0 fr maxdeg.
Proof.
  unfold GaussFilterCoeff, pydiv.
  destruct (Req_dec_T R0 0) as [H0|H0]; [reflexivity|]. cbn [bind].
  replace (- fr / R0) with (- (fr / R0)) by (field; exact H0).
  rewrite cos_neg. reflexivity.
Qed.

(** ** Arrays given by their entries *)

Lemma has_shape_tab (r c : nat) (f : nat -> nat -> R) : has_shape (tab r c f) r c.
Proof.
  unfold has_shape, nrows, wf, tab; simpl. repeat split.
  - rewrite length_map, length_seq; reflexivity.
  - apply Forall_forall; intros x Hx. apply in_map_iff in Hx as (i & <- & _).
    rewrite length_map, length_seq; reflexivity.
Qed.

Lemma nth_map_seq {A : Type} (f : nat -> A) (n k : nat) (d : A) :
  (k < n)%nat -> nth k (map f (seq 0 n)) d = f k.
Proof.
  intros H.
  rewrite (nth_indep _ d (f 0%nat)) by (rewrite length_map, length_seq; exact H).
  rewrite map_nth, seq_nth by exact H. reflexivity.
Qed.

Lemma get_tab (r c : nat) (f : nat -> nat -> R) (i j : nat) :
  (i < r)%nat -> (j < c)%nat -> get (tab r c f) i j = f i j.
Proof.
  intros Hi Hj; unfold get, tab; simpl.
  rewrite nth_map_seq by exact Hi. apply nth_map_seq, Hj.
Qed.

Lemma tab_ext (r c : nat) (f g : nat -> nat -> R) :
  (forall i j, (i < r)%nat -> (j < c)%nat -> f i j = g i j) ->
  tab r c f = tab r c g.
Proof.
  intros H; unfold tab; f_equal.
  apply map_ext_in; intros i Hi. apply map_ext_in; intros j Hj.
  apply in_seq in Hi, Hj. apply H; lia.
Qed.

Lemma amap_tab (g : R -> R) (r c : nat) (f : nat -> nat -> R) :
  amap g (tab r c f) = tab r c (fun i j => g (f i j)).
Proof.
  unfold amap, tab; simpl; f_equal.
  rewrite map_map. apply map_ext; intros i. apply map_map.
Qed.

Lemma map_nth_seq {A B : Type} (f : A -> B) (l : list A) (d : A) :
  map f l = map (fun i => f (nth i l d)) (seq 0 (length l)).
Proof.
  apply (nth_ext _ _ (f d) (f d)).
  - rewrite !length_map, length_seq; reflexivity.
  - intros k Hk. rewrite length_map in Hk.
    rewrite map_nth, nth_map_seq by exact Hk. reflexivity.
Qed.

Lemma outer_tab (x y : list R) :
  outer x y = tab (length x) (length y) (fun i j => nth i x 0 * nth j y 0).
Proof.
  unfold outer, tab; f_equal.
  rewrite (map_nth_seq _ x 0). apply map_ext; intros i.
  apply (map_nth_seq (fun yj => nth i x 0 * yj) y 0).
Qed.

Lemma transpose_tab (r c : nat) (f : nat -> nat -> R) :
  transpose (tab r c f) = tab c r (fun i j => f j i).
Proof.
  unfold transpose. destruct (has_shape_tab r c f) as (-> & Hc & _).
  simpl. apply tab_ext; intros i j Hi Hj. apply get_tab; assumption.
Qed.

Lemma skipn_map_seq {A : Type} (f : nat -> A) (k n : nat) :
  skipn k (map f (seq 0 n)) = map (fun i => f (i + k)%nat) (seq 0 (n - k)).
Proof.
  rewrite skipn_map, skipn_seq.
  rewrite <- (map_map (fun i => (i + k)%nat) f). f_equal.
  apply (nth_ext _ _ O O).
  - rewrite length_map, !length_seq; reflexivity.
  - intros i Hi. rewrite length_seq in Hi.
    rewrite seq_nth by exact Hi.
    rewrite (nth_indep _ O (0 + k)%nat) by (rewrite length_map, length_seq; exact Hi).
    rewrite (map_nth (fun i => (i + k)%nat)), seq_nth by exact Hi. lia.
Qed.

Lemma rows_from_tab (k r c : nat) (f : nat -> nat -> R) :
  rows_from k (tab r c f) = tab (r - k) c (fun i j => f (i + k)%nat j).
Proof.
  unfold rows_from, tab; simpl; f_equal. apply skipn_map_seq.
Qed.

Lemma asum_tab (r c : nat) (f : nat -> nat -> R) :
  asum (tab r c f) = sum_from 0 r (fun i => sum_from 0 c (f i)).
Proof.
  unfold asum, sum_from, tab; simpl. rewrite map_map. reflexivity.
Qed.

Lemma bdim_same (n : nat) : bdim n n = Ok n.
Proof. unfold bdim. rewrite Nat.eqb_refl. reflexivity. Qed.

Lemma bget_in_shape (a : ndarray) (i j : nat) :
  (i < nrows a)%nat -> (j < ncols a)%nat -> bget a i j = get a i j.
Proof.
  intros Hi Hj; unfold bget.
  destruct (nrows a =? 1)%nat eqn:E1, (ncols a =? 1)%nat eqn:E2;
    try apply Nat.eqb_eq in E1; try apply Nat.eqb_eq in E2;
    repeat match goal with
           | H : (?k < ?n)%nat, E : ?n = 1%nat |- _ =>
               assert (k = 0%nat) by lia; subst k; clear H
           end; reflexivity.
Qed.

(** An element-wise operation on two arrays of the same shape. *)
Lemma broadcast2_same_shape (g : R -> R -> R) (a b : ndarray) (r c : nat) :
  has_shape a r c -> has_shape b r c ->
  broadcast2 g a b = Ok (tab r c (fun i j => g (get a i j) (get b i j))).
Proof.
  intros (Hra & Hca & _) (Hrb & Hcb & _). unfold broadcast2.
  rewrite Hra, Hrb, Hca, Hcb, !bdim_same. cbn [bind]. f_equal.
  apply tab_ext; intros i j Hi Hj.
  rewrite !bget_in_shape by lia. reflexivity.
Qed.

Lemma broadcast2_tab (g : R -> R -> R) (r c : nat) (f1 f2 : nat -> nat -> R) :
  broadcast2 g (tab r c f1) (tab r c f2) =
  Ok (tab r c (fun i j => g (f1 i j) (f2 i j))).
Proof.
  rewrite (broadcast2_same_shape g _ _ r c) by apply has_shape_tab.
  f_equal. apply tab_ext; intros i j Hi Hj. rewrite !get_tab by assumption.
  reflexivity.
Qed.

(** ** waterheight *)

Lemma foldM_ext {A S : Type} (f g : A -> S -> res S) (l : list A) (s : S) :
  (forall x t, f x t = g x t) -> foldM f l s = foldM g l s.
Proof.
  intros H; revert s; induction l as [|x l IH]; intros s; simpl; [reflexivity|].
  rewrite H. destruct (g x s); simpl; auto.
Qed.

(** [waterheight] is its prologue followed by the loop of [ewh_step]. *)
Lemma waterheight_unfold (lambdao : list R) (thetao : R) (cnm snm : ndarray)
    (deg_max : nat) (lf : LegendreFunctions) (kn : list R) (R0 : R) :
  waterheight lambdao thetao cnm snm deg_max lf kn R0 =
  (ewh <- setitem (zeros 1 (length lambdao + 1)) 0 0 thetao ;;
   Pnm <- LegendreFunctions_call lf thetao ;;
   st <- foldM (ewh_step cnm snm Pnm deg_max kn R0) lambdao (ewh, 1%Z) ;;
   Ok (fst st)).
Proof.
  unfold waterheight.
  destruct (setitem _ 0 0 thetao) as [ewh|]; cbn [bind]; [|reflexivity].
  destruct (LegendreFunctions_call lf thetao) as [Pnm|]; cbn [bind]; [|reflexivity].
  rewrite (foldM_ext _ (ewh_step cnm snm Pnm deg_max kn R0)).
  - destruct (foldM _ lambdao (ewh, 1%Z)) as [[e i]|]; reflexivity.
  - intros long [e i]. unfold ewh_step, ewh_sum.
    repeat match goal with
           | |- context [bind (broadcast2 ?g ?a ?b)] =>
               destruct (broadcast2 g a b); cbn [bind]; [|reflexivity]
           end.
    reflexivity.
Qed.

Lemma flatten_ones (n : nat) : flatten (ones n 1) = repeat 1 n.
Proof.
  unfold flatten, ones; simpl. induction n as [|n IH]; simpl; [|rewrite IH]; reflexivity.
Qed.

Lemma nth_repeat_lt {A : Type} (x d : A) (n i : nat) :
  (i < n)%nat -> nth i (repeat x n) d = x.
Proof.
  intros H. rewrite (nth_indep _ d x) by (rewrite repeat_length; exact H).
  apply nth_repeat_default.
Qed.

(** [ord_mat]: every row lists the orders 0, 1, ..., deg_max. *)
Lemma ord_mat_tab (d : nat) :
  outer (flatten (ones (d + 1) 1)) (arange 0 (Z.of_nat d + 1)) =
  tab (d + 1) (d + 1) (fun _ j => INR j).
Proof.
  rewrite flatten_ones, outer_tab, repeat_length, arange_length.
  replace (Z.to_nat (Z.of_nat d + 1 - 0)) with (d + 1)%nat by lia.
  apply tab_ext; intros i j Hi Hj.
  rewrite nth_repeat_lt by exact Hi.
  rewrite nth_arange by lia. rewrite INR_IZR_INZ, Z.add_0_l. ring.
Qed.

(** [kn_mat]: row [i] repeats the Love number of degree [i]. *)
Lemma kn_mat_tab (d : nat) (kn : list R) :
  outer (firstn (d + 1) kn) (flatten (ones (d + 1) 1)) =
  tab (Nat.min (d + 1) (length kn)) (d + 1) (fun i _ => nth i kn 0).
Proof.
  rewrite flatten_ones, outer_tab, repeat_length, length_firstn.
  apply tab_ext; intros i j Hi Hj.
  rewrite nth_repeat_lt by exact Hj. rewrite nth_firstn.
  replace (i <? d + 1)%nat with true by (symmetry; apply Nat.ltb_lt; lia).
  ring.
Qed.

Lemma broadcast2_l (g : R -> R -> R) (a : ndarray) (r c : nat)
    (f : nat -> nat -> R) :
  has_shape a r c ->
  broadcast2 g a (tab r c f) = Ok (tab r c (fun i j => g (get a i j) (f i j))).
Proof.
  intros Ha.
  rewrite (broadcast2_same_shape g _ _ r c Ha (has_shape_tab r c f)).
  f_equal. apply tab_ext; intros i j Hi Hj. rewrite get_tab by assumption.
  reflexivity.
Qed.

(** With coefficient matrices of shape [(deg_max+1, deg_max+1)] the sum of
    one iteration is determined by the product of [Pnm] with the matrix of
    the bracketed terms. *)
Lemma ewh_sum_prefix (cnm snm Pnm : ndarray) (d : nat) (kn : list R) (long : R) :
  has_shape cnm (d + 1) (d + 1) -> has_shape snm (d + 1) (d + 1) ->
  ewh_sum cnm snm Pnm d kn long =
  (mt3 <- broadcast2 Rmult Pnm
            (tab (d + 1) (d + 1) (fun i j =>
               get cnm i j * cos (long * INR j) + get snm i j * sin (long * INR j))) ;;
   mfak <- broadcast2 Rdiv
             (tab (d + 1) (d + 1) (fun i _ => 2 * INR i + 1))
             (tab (Nat.min (d + 1) (length kn)) (d + 1) (fun i _ => 1 + nth i kn 0)) ;;
   herg <- broadcast2 Rmult (rows_from 2 mfak) (rows_from 2 mt3) ;;
   Ok (asum herg)).
Proof.
  intros Hc Hs. unfold ewh_sum.
  rewrite ord_mat_tab, kn_mat_tab, transpose_tab, !amap_tab.
  rewrite (broadcast2_l Rmult cnm _ _ _ Hc), (broadcast2_l Rmult snm _ _ _ Hs).
  cbn [bind]. rewrite broadcast2_tab. cbn [bind]. reflexivity.
Qed.

(** ** Finite sums *)

Lemma sum_from_ext (a n : nat) (f g : nat -> R) :
  (forall k, (a <= k < a + n)%nat -> f k = g k) ->
  sum_from a n f = sum_from a n g.
Proof.
  intros H; unfold sum_from; f_equal.
  apply map_ext_in; intros k Hk. apply in_seq in Hk. apply H; lia.
Qed.

Lemma sum_from_shift (a n : nat) (f : nat -> R) :
  sum_from 0 n (fun i => f (i + a)%nat) = sum_from a n f.
Proof.
  unfold sum_from. f_equal.
  rewrite <- (map_map (fun i => (i + a)%nat) f). f_equal.
  apply (nth_ext _ _ O O).
  - rewrite length_map, !length_seq; reflexivity.
  - intros i Hi. rewrite length_map, length_seq in Hi.
    rewrite (nth_indep _ O (0 + a)%nat) by (rewrite length_map, length_seq; exact Hi).
    rewrite (map_nth (fun i => (i + a)%nat)), !seq_nth by exact Hi. lia.
Qed.

Lemma rsum_app (l1 l2 : list R) : rsum (l1 ++ l2) = rsum l1 + rsum l2.
Proof.
  induction l1 as [|x l1 IH]; simpl; [ring | rewrite IH; ring].
Qed.

Lemma sum_from_zero (a n : nat) (f : nat -> R) :
  (forall k, (a <= k < a + n)%nat -> f k = 0) -> sum_from a n f = 0.
Proof.
  revert a; induction n as [|n IH]; intros a H; [reflexivity|].
  unfold sum_from in *; simpl. rewrite IH, H by (intros; try apply H; lia). ring.
Qed.

(** Terms that vanish can be dropped from the end of a sum. *)
Lemma sum_from_drop_zeros (n1 n2 : nat) (f : nat -> R) :
  (n1 <= n2)%nat -> (forall k, (n1 <= k < n2)%nat -> f k = 0) ->
  sum_from 0 n2 f = sum_from 0 n1 f.
Proof.
  intros Hle Hz. replace n2 with (n1 + (n2 - n1))%nat by lia.
  unfold sum_from. rewrite seq_app, map_app, rsum_app.
  fold (sum_from (0 + n1) (n2 - n1) f).
  rewrite sum_from_zero by (intros; apply Hz; lia). ring.
Qed.

(** The sum of one iteration is the double series of the specification:
    the orders above the degree drop out because [Pnm] is lower
    triangular. *)
Lemma ewh_sum_series (cnm snm Pnm : ndarray) (d : nat) (kn : list R) (long : R) :
  has_shape cnm (d + 1) (d + 1) -> has_shape snm (d + 1) (d + 1) ->
  has_shape Pnm (d + 1) (d + 1) -> lower_triangular Pnm ->
  (d + 1 <= length kn)%nat ->
  ewh_sum cnm snm Pnm d kn long =
  Ok (sum_from 2 (d - 1) (fun n =>
        sum_from 0 (n + 1) (fun m =>
          (2 * INR n + 1) / (1 + nth n kn 0) *
          (get cnm n m * cos (INR m * long) + get snm n m * sin (INR m * long)) *
          get Pnm n m))).
Proof.
  intros Hc Hs HP Hlow Hkn.
  rewrite ewh_sum_prefix by assumption.
  rewrite (broadcast2_l Rmult Pnm _ _ _ HP). cbn [bind].
  rewrite Nat.min_l by exact Hkn.
  rewrite broadcast2_tab. cbn [bind].
  rewrite !rows_from_tab, broadcast2_tab. cbn [bind].
  rewrite asum_tab. f_equal.
  replace (d + 1 - 2)%nat with (d - 1)%nat by lia.
  rewrite <- (sum_from_shift 2 (d - 1)).
  apply sum_from_ext; intros i Hi.
  rewrite (sum_from_drop_zeros (i + 2 + 1) (d + 1)).
  - apply sum_from_ext; intros m Hm.
    rewrite (Rmult_comm long (INR m)). unfold Rdiv. ring.
  - lia.
  - intros k Hk. rewrite Hlow by lia. unfold Rdiv. ring.
Qed.

(** The loop of [waterheight] fills the row behind the colatitude with one
    value per longitude, in order. *)
Lemma ewh_loop (cnm snm Pnm : ndarray) (d : nat) (kn : list R) (R0 : R)
    (v : R -> R) (lambdao : list R) :
  (forall long, ewh_sum cnm snm Pnm d kn long = Ok (v long)) ->
  forall (pre rest : list R),
  length rest = length lambdao ->
  foldM (ewh_step cnm snm Pnm d kn R0) lambdao
        (NDArray (length pre + length lambdao) [pre ++ rest],
         Z.of_nat (length pre)) =
  Ok (NDArray (length pre + length lambdao)
        [pre ++ map (fun long => R0 * 5540 / (3 * 1000) * v long) lambdao],
      Z.of_nat (length pre + length lambdao)).
Proof.
  intros Hv. induction lambdao as [|long l IH]; intros pre rest Hlen.
  - destruct rest; [|discriminate]. simpl. rewrite Nat.add_0_r. reflexivity.
  - destruct rest as [|r0 rest]; [discriminate|].
    cbn [foldM ewh_step]. rewrite Hv. cbn [bind].
    rewrite setitem_nonneg
      by (unfold nrows; cbn [rows ncols length]; lia).
    cbn [bind].
    assert (E : upd (NDArray (length pre + length (long :: l)) [pre ++ r0 :: rest])
                    (Z.to_nat 0) (Z.to_nat (Z.of_nat (length pre)))
                    (R0 * 5540 / (3 * 1000) * v long) =
                NDArray (length (pre ++ [R0 * 5540 / (3 * 1000) * v long]) + length l)
                        [(pre ++ [R0 * 5540 / (3 * 1000) * v long]) ++ rest]).
    { unfold upd; cbn [rows ncols nth Z.to_nat list_set].
      rewrite Nat2Z.id, length_app. cbn [length]. f_equal; [lia|]. f_equal.
      rewrite <- app_assoc. cbn [app].
      clear. induction pre as [|p pre IHp]; simpl; [reflexivity|].
      rewrite IHp. reflexivity. }
    rewrite E.
    replace (Z.of_nat (length pre) + 1)%Z
      with (Z.of_nat (length (pre ++ [R0 * 5540 / (3 * 1000) * v long])))
      by (rewrite length_app; cbn [length]; lia).
    rewrite IH by (simpl in Hlen; lia).
    rewrite <- app_assoc, length_app. cbn [length app map].
    do 2 f_equal; [f_equal; lia | lia].
Qed.

Lemma ewh_prologue (n : nat) (thetao : R) :
  setitem (zeros 1 (n + 1)) 0 0 thetao =
  Ok (NDArray (length [thetao] + n) [[thetao] ++ repeat 0 n]).
Proof.
  rewrite setitem_nonneg
    by (destruct (has_shape_zeros 1 (n + 1)) as (Hr & Hc & _);
        rewrite ?Hr, ?Hc; lia).
  rewrite Nat.add_1_r. reflexivity.
Qed.

(** The engine built for [maxdeg] evaluates to a lower-triangular matrix of
    shape [(maxdeg+1, maxdeg+1)]. *)
Lemma init_call_shape (maxdeg : nat) (lf : LegendreFunctions) (theta : R) :
  LegendreFunctions_init maxdeg = Ok lf ->
  exists Pnm, LegendreFunctions_call lf theta = Ok Pnm /\
              has_shape Pnm (maxdeg + 1) (maxdeg + 1) /\ lower_triangular Pnm.
Proof.
  intros Hlf.
  destruct (init_call_total maxdeg lf theta Hlf) as (Pnm & HP).
  destruct (call_inv lf theta Pnm HP) as (Hs & Hl & _).
  rewrite (init_maxdegree maxdeg lf Hlf) in Hs.
  exists Pnm. rewrite Nat.add_1_r. auto.
Qed.



(** The product of a lower-triangular [Pnm] (of at least two rows) with a
    square matrix depends only on the lower triangle of that matrix, also
    when the two shapes are broadcast or do not match. *)
Lemma broadcast2_lower_triangular (Pnm : ndarray) (p d : nat)
    (g g' : nat -> nat -> R) :
  has_shape Pnm p p -> (2 <= p)%nat -> lower_triangular Pnm ->
  (forall i j, (j <= i)%nat -> (i < d)%nat -> g i j = g' i j) ->
  broadcast2 Rmult Pnm (tab d d g) = broadcast2 Rmult Pnm (tab d d g').
Proof.
  intros (Hr & Hc & _) Hp Hlow Hg. unfold broadcast2.
  destruct (has_shape_tab d d g) as (Hr1 & Hc1 & _).
  destruct (has_shape_tab d d g') as (Hr2 & Hc2 & _).
  rewrite Hr, Hc, Hr1, Hc1, Hr2, Hc2.
  destruct (bdim p d) as [r|e] eqn:E; cbn [bind]; [|reflexivity].
  f_equal. apply tab_ext; intros i j Hi Hj.
  assert (HP : bget Pnm i j = get Pnm i j).
  { unfold bget. rewrite Hr, Hc.
    replace (p =? 1)%nat with false by (symmetry; apply Nat.eqb_neq; lia).
    reflexivity. }
  rewrite HP. unfold bget. rewrite Hr1, Hc1, Hr2, Hc2.
  destruct (d =? 1)%nat eqn:E1.
  - apply Nat.eqb_eq in E1; subst d.
    rewrite !get_tab by lia. rewrite (Hg 0%nat 0%nat) by lia. reflexivity.
  - apply Nat.eqb_neq in E1.
    assert (r = d /\ p = d) as [-> ->].
    { revert E. unfold bdim.
      destruct (p =? d)%nat eqn:E2; [apply Nat.eqb_eq in E2; intros [= <-]; auto|].
      replace (p =? 1)%nat with false by (symmetry; apply Nat.eqb_neq; lia).
      replace (d =? 1)%nat with false by (symmetry; apply Nat.eqb_neq; lia).
      discriminate. }
    rewrite !get_tab by assumption.
    destruct (Nat.le_gt_cases j i) as [Hji|Hij].
    + rewrite (Hg i j) by assumption. reflexivity.
    + rewrite Hlow by exact Hij. ring.
Qed.

(** ** Shapes that do not match *)

Lemma bdim_against (n d : nat) :
  (2 <= d)%nat ->
  bdim n d = if broadcastable n d then Ok d else Raise ValueError.
Proof.
  intros Hd. unfold bdim, broadcastable.
  destruct (n =? d)%nat eqn:E1; [apply Nat.eqb_eq in E1; subst; reflexivity|].
  destruct (n =? 1)%nat eqn:E2; [reflexivity|].
  replace (d =? 1)%nat with false by (symmetry; apply Nat.eqb_neq; lia).
  reflexivity.
Qed.

Lemma bdim_against_l (n d : nat) :
  (2 <= d)%nat ->
  bdim d n = if broadcastable n d then Ok d else Raise ValueError.
Proof.
  intros Hd. unfold bdim, broadcastable. rewrite (Nat.eqb_sym d n).
  destruct (n =? d)%nat eqn:E1; [apply Nat.eqb_eq in E1; subst; reflexivity|].
  replace (d =? 1)%nat with false by (symmetry; apply Nat.eqb_neq; lia).
  destruct (n =? 1)%nat; reflexivity.
Qed.

(** An array against a [d x d] table: the operation returns a [d x d] table
    when both axes of the array can be broadcast, and raises [ValueError]
    otherwise. *)
Lemma broadcast2_against_tab (g : R -> R -> R) (a : ndarray) (d : nat)
    (f : nat -> nat -> R) :
  (2 <= d)%nat ->
  broadcast2 g a (tab d d f) =
  if broadcastable (nrows a) d && broadcastable (ncols a) d
  then Ok (tab d d (fun i j => g (bget a i j) (f i j)))
  else Raise ValueError.
Proof.
  intros Hd. unfold broadcast2.
  destruct (has_shape_tab d d f) as (Hr & Hc & _).
  rewrite Hr, Hc, !bdim_against by exact Hd.
  destruct (broadcastable (nrows a) d); cbn [bind andb]; [|reflexivity].
  destruct (broadcastable (ncols a) d); cbn [bind]; [|reflexivity].
  f_equal. apply tab_ext; intros i j Hi Hj.
  rewrite (bget_in_shape (tab d d f)), get_tab by (rewrite ?Hr, ?Hc; assumption).
  reflexivity.
Qed.

Lemma broadcast2_tab_rows (g : R -> R -> R) (d : nat) (f : nat -> nat -> R)
    (b : ndarray) :
  (2 <= d)%nat -> ncols b = d ->
  broadcast2 g (tab d d f) b =
  if broadcastable (nrows b) d
  then Ok (tab d d (fun i j => g (f i j) (bget b i j)))
  else Raise ValueError.
Proof.
  intros Hd Hb. unfold broadcast2.
  destruct (has_shape_tab d d f) as (Hr & Hc & _).
  rewrite Hr, Hc, Hb, bdim_against_l, bdim_same by exact Hd.
  destruct (broadcastable (nrows b) d); cbn [bind]; [|reflexivity].
  f_equal. apply tab_ext; intros i j Hi Hj.
  rewrite (bget_in_shape (tab d d f)), get_tab by (rewrite ?Hr, ?Hc; assumption).
  reflexivity.
Qed.

(** The outcome of one iteration, by the shapes alone: a sum when they can
    all be broadcast, [ValueError] when one of them cannot. *)
Lemma ewh_sum_outcome (cnm snm Pnm : ndarray) (d p : nat) (kn : list R) (long : R) :
  (1 <= d)%nat -> (1 <= p)%nat -> has_shape Pnm (p + 1) (p + 1) ->
  if shapes_broadcast d p cnm snm kn
  then exists v, ewh_sum cnm snm Pnm d kn long = Ok v
  else ewh_sum cnm snm Pnm d kn long = Raise ValueError.
Proof.
  intros Hd Hp (HPr & HPc & _).
  assert (Hd2 : (2 <= d + 1)%nat) by lia.
  unfold shapes_broadcast, ewh_sum.
  rewrite ord_mat_tab, kn_mat_tab, transpose_tab, !amap_tab.
  rewrite !broadcast2_against_tab by exact Hd2.
  destruct (broadcastable (nrows cnm) (d + 1) && broadcastable (ncols cnm) (d + 1));
    cbn [bind andb]; [|reflexivity].
  destruct (broadcastable (nrows snm) (d + 1) && broadcastable (ncols snm) (d + 1));
    cbn [bind andb]; [|reflexivity].
  rewrite broadcast2_tab. cbn [bind].
  rewrite broadcast2_against_tab by exact Hd2. rewrite HPr, HPc.
  assert (EP : broadcastable (p + 1) (d + 1) = (p =? d)%nat).
  { unfold broadcastable.
    replace (p + 1 =? 1)%nat with false by (symmetry; apply Nat.eqb_neq; lia).
    rewrite orb_false_r. destruct (Nat.eqb_spec p d), (Nat.eqb_spec (p + 1) (d + 1));
      auto; lia. }
  rewrite EP, andb_diag.
  destruct (p =? d)%nat; cbn [bind andb]; [|reflexivity].
  destruct (has_shape_tab (Nat.min (d + 1) (length kn)) (d + 1)
              (fun i _ : nat => 1 + nth i kn 0)) as (Hr2 & Hc2 & _).
  rewrite broadcast2_tab_rows by (exact Hd2 || exact Hc2). rewrite Hr2.
  destruct (broadcastable (Nat.min (d + 1) (length kn)) (d + 1));
    cbn [bind]; [|reflexivity].
  rewrite !rows_from_tab, broadcast2_tab. cbn [bind]. eauto.
Qed.

Lemma init_degree_positive (n : nat) (lf : LegendreFunctions) :
  LegendreFunctions_init n = Ok lf -> (1 <= n)%nat.
Proof. destruct n; [discriminate | lia]. Qed.

(** With shapes that can be broadcast, [waterheight] returns. *)
Lemma waterheight_shapes_ok (maxdeg lf_deg : nat) (lambdao : list R) (theta : R)
    (cnm snm : ndarray) (kn : list R) (lf : LegendreFunctions) (R0 : R) :
  (1 <= maxdeg)%nat -> LegendreFunctions_init lf_deg = Ok lf ->
  shapes_broadcast maxdeg lf_deg cnm snm kn = true ->
  exists ewh, waterheight lambdao theta cnm snm maxdeg lf kn R0 = Ok ewh.
Proof.
  intros Hd Hlf Hok.
  destruct (init_call_shape lf_deg lf theta Hlf) as (Pnm & HP & Hsh & _).
  pose proof (init_degree_positive lf_deg lf Hlf) as Hp.
  rewrite waterheight_unfold, ewh_prologue. cbn [bind]. rewrite HP. cbn [bind].
  set (v := fun long => match ewh_sum cnm snm Pnm maxdeg kn long with
                        | Ok x => x
                        | Raise _ => 0
                        end).
  assert (Hv : forall long, ewh_sum cnm snm Pnm maxdeg kn long = Ok (v long)).
  { intros long. unfold v.
    pose proof (ewh_sum_outcome cnm snm Pnm maxdeg lf_deg kn long Hd Hp Hsh) as H.
    rewrite Hok in H. destruct H as (x & ->). reflexivity. }
  change 1%Z with (Z.of_nat (length [theta])).
  rewrite (ewh_loop cnm snm Pnm maxdeg kn R0 v lambdao Hv) by apply repeat_length.
  cbn [bind]. eauto.
Qed.

(** C8, as stated, fails: a 1x1 coefficient matrix at maximum degree 2 is not
    of the shape 3x3 the degree asks for, yet it is broadcast like a scalar
    and a result is returned. *)
Lemma waterheight_shape_counterexample :
  ~ has_shape (NDArray 1 [[5]]) (2 + 1) (2 + 1) /\
  exists lf ewh,
    LegendreFunctions_init 2 = Ok lf /\
    waterheight [0] 0 (NDArray 1 [[5]]) (zeros 3 3) 2 lf [0; 0; 0] 1 = Ok ewh.
Proof.
  split.
  - intros (Hr & _). discriminate Hr.
  - destruct (init_total 2) as (lf & Hlf & _); [lia|].
    destruct (waterheight_shapes_ok 2 2 [0] 0 (NDArray 1 [[5]]) (zeros 3 3)
                [0; 0; 0] lf 1) as (ewh & H); auto.
    exists lf, ewh. auto.
Qed.

(** C8, amended.  At a maximum degree of at least 1 and with at least one
    longitude, [waterheight] raises NumPy's [ValueError] whenever the shapes
    cannot be broadcast to [(maxdegree+1, maxdegree+1)]: an axis of a
    coefficient matrix or the number of Love numbers kept by the slice is
    neither [maxdegree+1] nor 1, or the engine was built for another
    degree. *)
Theorem waterheight_shape_mismatch (maxdeg lf_deg : nat) (long : R)
    (lambdao : list R) (theta : R) (cnm snm : ndarray) (kn : list R)
    (lf : LegendreFunctions) (R0 : R) :
  (1 <= maxdeg)%nat -> LegendreFunctions_init lf_deg = Ok lf ->
  shapes_broadcast maxdeg lf_deg cnm snm kn = false ->
  waterheight (long :: lambdao) theta cnm snm maxdeg lf kn R0 = Raise ValueError.
Proof.
  intros Hd Hlf Hbad.
  destruct (init_call_shape lf_deg lf theta Hlf) as (Pnm & HP & Hsh & _).
  pose proof (init_degree_positive lf_deg lf Hlf) as Hp.
  rewrite waterheight_unfold, ewh_prologue. cbn [bind]. rewrite HP.
  cbn [bind foldM ewh_step].
  pose proof (ewh_sum_outcome cnm snm Pnm maxdeg lf_deg kn long Hd Hp Hsh) as H.
  rewrite Hbad in H. rewrite H. reflexivity.
Qed.

Lemma waterheight_shape_mismatch_witness :
  exists lf,
    LegendreFunctions_init 2 = Ok lf /\
    waterheight (0 :: []) 0 (zeros 2 3) (zeros 3 3) 2 lf [0; 0; 0] 1 =
    Raise ValueError.
Proof.
  destruct (init_total 2) as (lf & Hlf & _); [lia|].
  exists lf. split; [exact Hlf|].
  apply (waterheight_shape_mismatch 2 2 0 [] 0 (zeros 2 3) (zeros 3 3)
           [0; 0; 0] lf 1).
  - lia.
  - exact Hlf.
  - reflexivity.
Defined.

(** ** Worked examples *)

(** At maximum degree 1 the engine evaluates to the normalised functions
    [P00 = 1], [P10 = sqrt 3 cos theta], [P11 = sqrt 3 sin theta]. *)
Example legendre_degree_one_values (theta : R) :
  exists lf, LegendreFunctions_init 1 = Ok lf /\
  LegendreFunctions_call lf theta =
  Ok (NDArray 2 [[1; 0]; [sqrt 3 * cos theta; sqrt 3 * sin theta]]).
Proof.
  eexists. split.
  - cbv -[sqrt cos sin Rmult Rdiv Rplus Rminus Ropp IZR Rinv]. reflexivity.
  - cbv -[sqrt cos sin Rmult Rdiv Rplus Rminus Ropp IZR Rinv].
    replace (3 / 1 * 1) with 3 by field.
    replace (sqrt 3 * cos theta * 1) with (sqrt 3 * cos theta) by ring.
    replace (sqrt 3 * sin theta * 1) with (sqrt 3 * sin theta) by ring.
    reflexivity.
Qed.

(** At the equator the engine gives [P20 = - sqrt 5 / 2], the value of the
    normalised Legendre polynomial of degree 2 at 0. *)
Example legendre_P20_equator :
  exists lf Pnm, LegendreFunctions_init 2 = Ok lf /\
  LegendreFunctions_call lf (PI / 2) = Ok Pnm /\
  get Pnm 2 0 = - sqrt (5 / 4).
Proof.
  eexists. eexists. split; [|split].
  - cbv -[sqrt cos sin Rmult Rdiv Rplus Rminus Ropp IZR Rinv PI]. reflexivity.
  - cbv -[sqrt cos sin Rmult Rdiv Rplus Rminus Ropp IZR Rinv PI]. reflexivity.
  - cbv -[sqrt cos sin Rmult Rdiv Rplus Rminus Ropp IZR Rinv PI].
    rewrite cos_PI2. replace (5 / 4 * 1 * 1 / 1) with (5 / 4) by field. ring.
Qed.

(** Degree 11 lies between the samples at 10 and 12: its Love number is the
    mean of -0.069 and -0.064. *)
Example love_number_at_11 (erg : list R) :
  LoveNumbers 12 = Ok erg -> nth 11 erg 0 = -0.0665.
Proof.
  intros H. rewrite (LoveNumbers_nth 12 11 erg H) by lia.
  destruct kl_columns as [-> ->].
  replace (INR 11) with 11 by (simpl; lra).
  unfold interp1. cbn [hd]. destruct (Rlt_dec 11 2); [lra|].
  repeat (rewrite interp_scan_step; destruct (Rlt_dec 11 _); [try lra|]); try lra.
  destruct (Req_dec_T 10 11); lra.
Qed.

(** * Further properties of the code *)

(** ** Loops over a range, with the position known *)

Lemma range_cons (a b : Z) : (a < b)%Z -> range a b = a :: range (a + 1) b.
Proof.
  intros H. unfold range.
  replace (Z.to_nat (b - a)) with (S (Z.to_nat (b - (a + 1)))) by lia.
  cbn [seq map]. f_equal; [lia|].
  rewrite <- seq_shift, map_map. apply map_ext; intros k. lia.
Qed.

(** An invariant indexed by the loop variable: established before the
    first value and carried over every iteration that returns, it holds
    behind the last value when the loop returns. *)
Lemma foldM_range_inv {S : Type} (I : Z -> S -> Prop) (f : Z -> S -> res S)
    (a b : Z) :
  (a <= b)%Z ->
  (forall n s s', (a <= n < b)%Z -> I n s -> f n s = Ok s' -> I (n + 1)%Z s') ->
  forall s s', I a s -> foldM f (range a b) s = Ok s' -> I b s'.
Proof.
  intros Hab Hstep.
  remember (Z.to_nat (b - a)) as k eqn:Hk. revert a Hab Hstep Hk.
  induction k as [|k IH]; intros a Hab Hstep Hk s s' Hs H.
  - assert (a = b) by lia; subst a.
    rewrite range_empty in H by lia. injection H as <-. exact Hs.
  - rewrite range_cons in H by lia. cbn [foldM] in H.
    apply bind_Ok_inv in H as (s1 & H1 & H2).
    apply (IH (a + 1)%Z) with (s := s1); try lia; auto.
    + intros n t t' Hn. apply Hstep; lia.
    + apply (Hstep a s s1); auto; lia.
Qed.

Lemma getitem_nonneg_inv (a : ndarray) (i j : Z) (v : R) :
  (0 <= i)%Z -> (0 <= j)%Z -> getitem a i j = Ok v ->
  v = get a (Z.to_nat i) (Z.to_nat j).
Proof.
  intros Hi Hj. unfold getitem, norm_index.
  destruct ((0 <=? i)%Z && (i <? Z.of_nat (nrows a))%Z); cbn [bind].
  - destruct ((0 <=? j)%Z && (j <? Z.of_nat (ncols a))%Z); cbn [bind].
    + intros [= <-]; reflexivity.
    + replace (j <? 0)%Z with false by (symmetry; apply Z.ltb_ge; lia).
      rewrite andb_false_r. discriminate.
  - replace (i <? 0)%Z with false by (symmetry; apply Z.ltb_ge; lia).
    rewrite andb_false_r. discriminate.
Qed.

(** ** The recursion that [__call__] computes *)

Ltac split_eqb :=
  repeat match goal with
         | |- context [(?a =? ?b)%nat] => destruct (Nat.eqb_spec a b)
         end;
  cbn [andb]; try lia.

Section LegendreRecursion.

Variable self : LegendreFunctions.
Variable theta : R.

Let N : nat := maxdegree self.
Let F1 : nat -> nat -> R := get (LF1 self).
Let F2 : nat -> nat -> R := get (LF2 self).

Let Base (P : ndarray) : Prop := has_shape P (S N) (S N) /\ get P 0 0 = 1.

Let Dg (P : ndarray) (n : nat) : Prop :=
  get P n n = F1 n n * sin theta * get P (n - 1) (n - 1).

Let Sb (P : ndarray) (m : nat) : Prop :=
  get P (m + 1) m = F1 (m + 1) m * cos theta * get P m m.

Let Gn (P : ndarray) (n m : nat) : Prop :=
  get P n m = F1 n m * cos theta * get P (n - 1) m - F2 n m * get P (n - 2) m.

Let DgAll (P : ndarray) : Prop := forall n, (1 <= n <= N)%nat -> Dg P n.
Let SbAll (P : ndarray) : Prop := forall m, (m < N)%nat -> Sb P m.

(** A write below row 0 keeps the shape and the seed. *)
Lemma rec_base_upd (P : ndarray) (i j : nat) (v : R) :
  Base P -> (1 <= i < S N)%nat -> (j < S N)%nat -> Base (upd P i j v).
Proof.
  intros ((Hr & Hc & Hwf) & H0) Hi Hj. split.
  - apply has_shape_upd; repeat split; auto.
  - rewrite get_upd by (auto; lia). split_eqb; exact H0.
Qed.

Lemma rec_diagonal (P0 P1 : ndarray) :
  Base P0 ->
  foldM (fun n Pnm =>
           l <- getitem (LF1 self) n n ;;
           p <- getitem Pnm (n - 1) (n - 1) ;;
           setitem Pnm n n (l * sin theta * p))
        (range 1 (Z.of_nat N + 1)) P0 = Ok P1 ->
  Base P1 /\ DgAll P1.
Proof.
  intros HB H.
  apply (foldM_range_inv
           (fun k P => Base P /\
                       forall n, (1 <= n)%nat -> (Z.of_nat n < k)%Z -> Dg P n))
    in H; [| lia | | split; [exact HB | intros; lia]].
  - destruct H as (HB1 & HD). split; [exact HB1|].
    intros n Hn. apply HD; lia.
  - clear H. intros n P P' Hn (HBP & HD) Hb.
    inv_bind Hb. inv_bind Hb.
    apply getitem_nonneg_inv in E, E0; try lia. subst.
    pose proof HBP as ((Hr & Hc & Hwf) & _).
    rewrite setitem_nonneg in Hb by lia. injection Hb as <-.
    split; [apply rec_base_upd; auto; lia|].
    intros k Hk1 Hk. unfold Dg.
    rewrite !get_upd by (auto; lia).
    replace (Z.to_nat (n - 1)) with (Z.to_nat n - 1)%nat by lia.
    split_eqb; try (apply HD; lia). subst k. reflexivity.
Qed.

Lemma rec_subdiagonal (P1 P2 : ndarray) :
  Base P1 -> DgAll P1 ->
  foldM (fun m Pnm =>
           l <- getitem (LF1 self) (m + 1) m ;;
           p <- getitem Pnm m m ;;
           setitem Pnm (m + 1) m (l * cos theta * p))
        (range 0 (Z.of_nat N)) P1 = Ok P2 ->
  Base P2 /\ DgAll P2 /\ SbAll P2.
Proof.
  intros HB HD H.
  apply (foldM_range_inv
           (fun k P => Base P /\ DgAll P /\
                       forall m : nat, (Z.of_nat m < k)%Z -> Sb P m))
    in H; [| lia | | split; [exact HB | split; [exact HD | intros; lia]]].
  - destruct H as (HB2 & HD2 & HS). repeat split; auto; try apply HB2.
    intros m Hm. apply HS; lia.
  - clear H. intros m P P' Hm (HBP & HDP & HS) Hb.
    inv_bind Hb. inv_bind Hb.
    apply getitem_nonneg_inv in E, E0; try lia. subst.
    pose proof HBP as ((Hr & Hc & Hwf) & _).
    rewrite setitem_nonneg in Hb by lia. injection Hb as <-.
    replace (Z.to_nat (m + 1)) with (Z.to_nat m + 1)%nat by lia.
    split; [apply rec_base_upd; auto; lia|]. split.
    + intros k Hk. unfold Dg. rewrite !get_upd by (auto; lia).
      split_eqb; apply HDP; lia.
    + intros k Hk. unfold Sb. rewrite !get_upd by (auto; lia).
      split_eqb; try (apply HS; lia). subst k. reflexivity.
Qed.

Lemma rec_general (P2 P3 : ndarray) :
  Base P2 -> DgAll P2 -> SbAll P2 ->
  foldM (fun m Pnm =>
           foldM (fun n Pnm =>
                    l1 <- getitem (LF1 self) n m ;;
                    p1 <- getitem Pnm (n - 1) m ;;
                    l2 <- getitem (LF2 self) n m ;;
                    p2 <- getitem Pnm (n - 2) m ;;
                    setitem Pnm n m (l1 * cos theta * p1 - l2 * p2))
                 (range (m + 2) (Z.of_nat N + 1)) Pnm)
        (range 0 (Z.of_nat N)) P2 = Ok P3 ->
  Base P3 /\ DgAll P3 /\ SbAll P3 /\
  forall n m, (m + 2 <= n <= N)%nat -> Gn P3 n m.
Proof.
  intros HB HD HS H.
  apply (foldM_range_inv
           (fun k P => Base P /\ DgAll P /\ SbAll P /\
                       forall n m : nat, (Z.of_nat m < k)%Z ->
                         (m + 2 <= n <= N)%nat -> Gn P n m))
    in H; [| lia | | repeat split; auto; try apply HB; intros; lia].
  - destruct H as (HB3 & HD3 & HS3 & HG). repeat split; auto; try apply HB3.
    intros n m Hnm. apply HG; lia.
  - clear H. intros m P P' Hm (HBP & HDP & HSP & HG) Hcol.
    destruct (Z_le_gt_dec (Z.of_nat N + 1) (m + 2)) as [Hshort|Hlong].
    { rewrite range_empty in Hcol by lia. injection Hcol as <-.
      repeat split; auto; try apply HBP.
      intros n k Hk Hnk. apply HG; lia. }
    apply (foldM_range_inv
             (fun k Q => Base Q /\ DgAll Q /\ SbAll Q /\
                (forall n c : nat, (Z.of_nat c < m)%Z ->
                   (c + 2 <= n <= N)%nat -> Gn Q n c) /\
                (forall n : nat, (Z.to_nat m + 2 <= n)%nat ->
                   (Z.of_nat n < k)%Z -> Gn Q n (Z.to_nat m))))
      in Hcol; [| lia | | repeat split; auto; try apply HBP; intros; lia].
    + destruct Hcol as (HB' & HD' & HS' & HG' & HC).
      repeat split; auto; try apply HB'.
      intros n c Hc Hnc.
      destruct (Z.eq_dec (Z.of_nat c) m) as [<-|Hne].
      * rewrite Nat2Z.id in HC. apply HC; lia.
      * apply HG'; lia.
    + clear Hcol. intros n Q Q' Hn (HBQ & HDQ & HSQ & HGQ & HCQ) Hb.
      inv_bind Hb. inv_bind Hb. inv_bind Hb. inv_bind Hb.
      apply getitem_nonneg_inv in E, E0, E1, E2; try lia. subst.
      pose proof HBQ as ((Hr & Hc & Hwf) & _).
      rewrite setitem_nonneg in Hb by lia. injection Hb as <-.
      replace (Z.to_nat (n - 1)) with (Z.to_nat n - 1)%nat by lia.
      replace (Z.to_nat (n - 2)) with (Z.to_nat n - 2)%nat by lia.
      split; [apply rec_base_upd; auto; lia|]. split; [|split; [|split]].
      * intros k Hk. unfold Dg. rewrite !get_upd by (auto; lia).
        split_eqb; apply HDQ; lia.
      * intros k Hk. unfold Sb. rewrite !get_upd by (auto; lia).
        split_eqb; apply HSQ; lia.
      * intros k c Hc' Hkc. unfold Gn. rewrite !get_upd by (auto; lia).
        split_eqb; apply HGQ; lia.
      * intros k Hk1 Hk2. unfold Gn. rewrite !get_upd by (auto; lia).
        split_eqb; try (apply HCQ; lia). subst k. reflexivity.
Qed.

(** Whatever the tables, the matrix that [__call__] returns obeys the
    recursion. *)
Lemma call_recursion (P : ndarray) :
  LegendreFunctions_call self theta = Ok P -> legendre_recursion self theta P.
Proof.
  unfold LegendreFunctions_call; fold N. intros H.
  inv_bind H. rename a into P0.
  assert (B0 : Base P0).
  { destruct (has_shape_zeros (S N) (S N)) as (Hr & Hc & Hwf).
    rewrite setitem_nonneg in E by lia. injection E as <-. split.
    - apply has_shape_upd, has_shape_zeros.
    - rewrite get_upd by (auto; lia). reflexivity. }
  inv_bind H. destruct (rec_diagonal P0 a B0 E0) as (B1 & D1).
  inv_bind H. destruct (rec_subdiagonal a a0 B1 D1 E1) as (B2 & D2 & S2).
  destruct (rec_general a0 P B2 D2 S2 H) as (B3 & D3 & S3 & G3).
  repeat split.
  - apply B3.
  - exact D3.
  - exact S3.
  - exact G3.
Qed.

End LegendreRecursion.

(** X1.  For every engine the constructor builds, the evaluation at any
    colatitude returns; the matrix has shape [(maxdegree+1, maxdegree+1)],
    is zero above the diagonal, and obeys the recursion of the normalised
    Legendre functions with the tables of the engine. *)
Theorem legendre_call_correct (n : nat) (lf : LegendreFunctions) (theta : R) :
  LegendreFunctions_init n = Ok lf ->
  exists P,
    LegendreFunctions_call lf theta = Ok P /\
    has_shape P (n + 1) (n + 1) /\ lower_triangular P /\
    legendre_recursion lf theta P.
Proof.
  intros Hlf.
  destruct (init_call_shape n lf theta Hlf) as (P & HP & Hs & Hl).
  exists P. repeat split; auto; try apply Hs.
  all: apply (call_recursion lf theta P HP).
Qed.

Lemma legendre_call_correct_witness :
  exists lf P,
    LegendreFunctions_init 3 = Ok lf /\
    LegendreFunctions_call lf 1 = Ok P /\
    has_shape P (3 + 1) (3 + 1) /\ lower_triangular P /\
    legendre_recursion lf 1 P.
Proof.
  destruct (init_total 3) as (lf & Hlf & _); [lia|].
  destruct (legendre_call_correct 3 lf 1 Hlf) as (P & H).
  exists lf, P. split; [exact Hlf | exact H].
Defined.

(** X2.  At a pole ([sin theta = 0]) only the zonal functions survive:
    every entry of the returned matrix with order [m >= 1] is zero. *)
Theorem legendre_pole_zonal (n : nat) (lf : LegendreFunctions) (theta : R)
    (P : ndarray) :
  LegendreFunctions_init n = Ok lf ->
  LegendreFunctions_call lf theta = Ok P ->
  sin theta = 0 ->
  forall i j : nat, (1 <= j)%nat -> (i <= n)%nat -> get P i j = 0.
Proof.
  intros Hlf HP Hsin i j Hj.
  destruct (call_inv lf theta P HP) as (_ & Hlow & _).
  destruct (call_recursion lf theta P HP) as (_ & HD & HS & HG).
  rewrite (init_maxdegree n lf Hlf) in HD, HS, HG.
  induction i as [i IH] using lt_wf_ind. intros Hi.
  destruct (Nat.lt_trichotomy i j) as [Hlt|[Heq|Hgt]].
  - apply Hlow, Hlt.
  - subst i. rewrite HD by lia. rewrite Hsin. ring.
  - destruct (Nat.eq_dec i (j + 1)) as [->|Hne].
    + rewrite HS by lia. rewrite (IH j) by lia. ring.
    + rewrite HG by lia. rewrite (IH (i - 1)%nat), (IH (i - 2)%nat) by lia. ring.
Qed.

Lemma legendre_pole_zonal_witness :
  exists lf P,
    LegendreFunctions_init 3 = Ok lf /\
    LegendreFunctions_call lf 0 = Ok P /\
    forall i j : nat, (1 <= j)%nat -> (i <= 3)%nat -> get P i j = 0.
Proof.
  destruct (init_total 3) as (lf & Hlf & _); [lia|].
  destruct (init_call_total 3 lf 0 Hlf) as (P & HP).
  exists lf, P. split; [exact Hlf|]. split; [exact HP|].
  apply (legendre_pole_zonal 3 lf 0 P Hlf HP sin_0).
Defined.

(** X3.  Reflection about the equator: the matrix at colatitude
    [PI - theta] is the matrix at [theta] with the sign [(-1)^(n+m)] at
    entry [(n, m)]. *)
Theorem legendre_reflection (n : nat) (lf : LegendreFunctions) (theta : R)
    (P P' : ndarray) :
  LegendreFunctions_init n = Ok lf ->
  LegendreFunctions_call lf theta = Ok P ->
  LegendreFunctions_call lf (PI - theta) = Ok P' ->
  forall i j : nat, (i <= n)%nat -> (j <= n)%nat ->
    get P' i j = (-1) ^ (i + j) * get P i j.
Proof.
  intros Hlf HP HP' i j Hi Hjn.
  destruct (call_inv lf theta P HP) as (_ & Hlow & _).
  destruct (call_inv lf (PI - theta) P' HP') as (_ & Hlow' & _).
  destruct (call_recursion lf theta P HP) as (H0 & HD & HS & HG).
  destruct (call_recursion lf (PI - theta) P' HP') as (H0' & HD' & HS' & HG').
  rewrite (init_maxdegree n lf Hlf) in HD, HS, HG, HD', HS', HG'.
  rewrite Rtrigo_facts.cos_pi_minus in HS', HG'.
  rewrite Rtrigo_facts.sin_pi_minus in HD'.
  revert j Hjn Hi. induction i as [i IH] using lt_wf_ind. intros j Hjn Hi.
  destruct (Nat.lt_trichotomy i j) as [Hlt|[Heq|Hgt]].
  - rewrite Hlow, Hlow' by exact Hlt. ring.
  - subst j. destruct i as [|i].
    + rewrite H0, H0'. simpl. ring.
    + rewrite HD, HD' by lia.
      replace (S i - 1)%nat with i by lia.
      rewrite (IH i) by lia.
      replace (S i + S i)%nat with (S (S (i + i))) by lia.
      cbn [pow]. ring.
  - destruct (Nat.eq_dec i (j + 1)) as [->|Hne].
    + rewrite HS, HS' by lia. rewrite (IH j) by lia.
      replace (j + 1 + j)%nat with (S (j + j)) by lia.
      cbn [pow]. ring.
    + rewrite HG, HG' by lia.
      rewrite (IH (i - 1)%nat), (IH (i - 2)%nat) by lia.
      replace (i + j)%nat with (S (S (i - 2 + j))) by lia.
      replace (i - 1 + j)%nat with (S (i - 2 + j)) by lia.
      cbn [pow]. ring.
Qed.

Lemma legendre_reflection_witness :
  exists lf P P',
    LegendreFunctions_init 3 = Ok lf /\
    LegendreFunctions_call lf 1 = Ok P /\
    LegendreFunctions_call lf (PI - 1) = Ok P' /\
    forall i j : nat, (i <= 3)%nat -> (j <= 3)%nat ->
      get P' i j = (-1) ^ (i + j) * get P i j.
Proof.
  destruct (init_total 3) as (lf & Hlf & _); [lia|].
  destruct (init_call_total 3 lf 1 Hlf) as (P & HP).
  destruct (init_call_total 3 lf (PI - 1) Hlf) as (P' & HP').
  exists lf, P, P'. repeat (split; [assumption|]).
  apply (legendre_reflection 3 lf 1 P P' Hlf HP HP').
Defined.

(** ** The tables that [__init__] builds *)

Section LegendreTables.

Variable N : nat.

Let Sh (a : ndarray) : Prop := has_shape a (S N) (S N).

(** Cells that no loop writes in [LF1]: above the diagonal and [(0, 0)]. *)
Let Z1 (A : ndarray) : Prop :=
  forall i j : nat, (i < j)%nat \/ (i = 0%nat /\ j = 0%nat) -> get A i j = 0.

(** Cells that no loop writes in [LF2]: on and above the diagonal. *)
Let Z2 (B : ndarray) : Prop :=
  forall i j : nat, (i <= j)%nat -> get B i j = 0.

Lemma init_diagonal (A0 A1 : ndarray) :
  Sh A0 -> Z1 A0 -> get A0 1 1 = sqrt 3 ->
  foldM (fun n LF1 =>
           q <- pydiv_int (IZR (2 * n + 1)) (2 * n) ;;
           setitem LF1 n n (sqrt q))
        (range 2 (Z.of_nat N + 1)) A0 = Ok A1 ->
  Sh A1 /\ Z1 A1 /\
  forall i : nat, (1 <= i <= N)%nat -> get A1 i i = LF1_entry i i.
Proof.
  intros HS HZ H11 H.
  destruct (Z_le_gt_dec (Z.of_nat N + 1) 2) as [Hsmall|Hbig].
  { rewrite range_empty in H by lia. injection H as <-.
    repeat split; auto; try apply HS.
    intros i Hi. assert (i = 1%nat) by lia; subst i. exact H11. }
  apply (foldM_range_inv
           (fun k A => Sh A /\ Z1 A /\
                       forall i : nat, (1 <= i)%nat -> (Z.of_nat i < k)%Z ->
                         get A i i = LF1_entry i i))
    in H; [| lia | |].
  - destruct H as (HS1 & HZ1 & HD). repeat split; auto; try apply HS1.
    intros i Hi. apply HD; lia.
  - clear H. intros n A A' Hn (HSA & HZA & HD) Hb.
    inv_bind Hb. rewrite pydiv_int_nonzero in E by lia. injection E as <-.
    pose proof HSA as (Hr & Hc & Hwf).
    rewrite setitem_nonneg in Hb by lia. injection Hb as <-.
    split; [apply has_shape_upd; exact HSA|]. split.
    + intros i j Hij. rewrite get_upd by (auto; lia).
      split_eqb; apply HZA; exact Hij.
    + intros i Hi1 Hi. rewrite get_upd by (auto; lia).
      split_eqb; try (apply HD; lia).
      subst i. unfold LF1_entry. rewrite Nat.ltb_irrefl, Nat.eqb_refl.
      replace (Z.to_nat n =? 0)%nat with false by (symmetry; apply Nat.eqb_neq; lia).
      replace (Z.to_nat n =? 1)%nat with false by (symmetry; apply Nat.eqb_neq; lia).
      rewrite Z2Nat.id by lia. reflexivity.
  - repeat split; auto; try apply HS.
    intros i Hi1 Hi. assert (i = 1%nat) by lia; subst i. exact H11.
Qed.

Lemma init_columns (A1 B1 A2 B2 : ndarray) :
  Sh A1 -> Z1 A1 ->
  (forall i : nat, (1 <= i <= N)%nat -> get A1 i i = LF1_entry i i) ->
  Sh B1 -> Z2 B1 ->
  foldM (fun m st =>
           foldM (fun n '(LF1, LF2) =>
                    f <- pydiv_int (IZR (2 * n + 1)) ((n + m) * (n - m)) ;;
                    LF1 <- setitem LF1 n m (sqrt (f * IZR (2 * n - 1))) ;;
                    q <- pydiv_int (f * IZR (n - m - 1) * IZR (n + m - 1))
                                   (2 * n - 3) ;;
                    LF2 <- setitem LF2 n m (sqrt q) ;;
                    Ok (LF1, LF2))
                 (range (m + 1) (Z.of_nat N + 1)) st)
        (range 0 (Z.of_nat N)) (A1, B1) = Ok (A2, B2) ->
  forall i j : nat, (i <= N)%nat -> (j <= N)%nat ->
    get A2 i j = LF1_entry i j /\ get B2 i j = LF2_entry i j.
Proof.
  intros HSA HZA HDA HSB HZB H.
  set (Keep := fun st : ndarray * ndarray =>
         Sh (fst st) /\ Z1 (fst st) /\
         (forall i : nat, (1 <= i <= N)%nat -> get (fst st) i i = LF1_entry i i) /\
         Sh (snd st) /\ Z2 (snd st)).
  set (Low := fun (st : ndarray * ndarray) (i j : nat) =>
         get (fst st) i j = LF1_entry i j /\ get (snd st) i j = LF2_entry i j).
  apply (foldM_range_inv
           (fun k st => Keep st /\
                        forall i j : nat, (Z.of_nat j < k)%Z ->
                          (j < i <= N)%nat -> Low st i j))
    in H; [| lia | | split; [repeat split; auto; apply HSA || apply HSB
                            | intros; lia]].
  - destruct H as ((_ & HZ & HD & _ & HZ') & HL). cbn [fst snd] in *.
    intros i j Hi Hj.
    destruct (Nat.lt_trichotomy i j) as [Hlt|[Heq|Hgt]].
    + rewrite HZ, HZ' by (auto; lia). unfold LF1_entry, LF2_entry.
      replace (j <? i)%nat with false by (symmetry; apply Nat.ltb_ge; lia).
      replace (i =? j)%nat with false by (symmetry; apply Nat.eqb_neq; lia).
      auto.
    + subst j. rewrite HZ' by lia. split.
      * destruct i as [|i]; [rewrite HZ by auto; reflexivity | apply HD; lia].
      * unfold LF2_entry. rewrite Nat.ltb_irrefl. reflexivity.
    + apply (HL i j); lia.
  - clear H. intros m st st' Hm (HK & HL) Hcol.
    apply (foldM_range_inv
             (fun k st => Keep st /\
                (forall i j : nat, (Z.of_nat j < m)%Z ->
                   (j < i <= N)%nat -> Low st i j) /\
                (forall i : nat, (Z.to_nat m < i)%nat -> (Z.of_nat i < k)%Z ->
                   Low st i (Z.to_nat m))))
      in Hcol; [| lia | | split; [exact HK | split; [exact HL | intros; lia]]].
    + destruct Hcol as (HK' & HL' & HC). split; [exact HK'|].
      intros i j Hj Hij.
      destruct (Z.eq_dec (Z.of_nat j) m) as [<-|Hne].
      * rewrite Nat2Z.id in HC. apply HC; lia.
      * apply HL'; lia.
    + clear Hcol. intros n [A B] [A' B'] Hn ((HSa & HZa & HDa & HSb & HZb) & HLa & HCa) Hb.
      cbn [fst snd] in HSa, HZa, HDa, HSb, HZb.
      apply bind_Ok_inv in Hb as (f & Ef & Hb).
      rewrite pydiv_int_nonzero in Ef by (apply Z.neq_mul_0; lia).
      injection Ef as Ef.
      apply bind_Ok_inv in Hb as (A1' & EA & Hb).
      apply bind_Ok_inv in Hb as (q & Eq & Hb).
      rewrite pydiv_int_nonzero in Eq by lia. injection Eq as Eq.
      apply bind_Ok_inv in Hb as (B1' & EB & Hb).
      injection Hb as HA' HB'.
      pose proof HSa as (Hra & Hca & Hwa). pose proof HSb as (Hrb & Hcb & Hwb).
      rewrite setitem_nonneg in EA, EB by lia.
      injection EA as EA. injection EB as EB. subst.
      assert (New : Low (upd A (Z.to_nat n) (Z.to_nat m)
                           (sqrt (IZR (2 * n + 1) / IZR ((n + m) * (n - m)) *
                                  IZR (2 * n - 1))),
                         upd B (Z.to_nat n) (Z.to_nat m)
                           (sqrt (IZR (2 * n + 1) / IZR ((n + m) * (n - m)) *
                                  IZR (n - m - 1) * IZR (n + m - 1) /
                                  IZR (2 * n - 3))))
                        (Z.to_nat n) (Z.to_nat m)).
      { unfold Low; cbn [fst snd]. rewrite !get_upd by (auto; lia).
        rewrite !Nat.eqb_refl. cbn [andb].
        unfold LF1_entry, LF2_entry.
        replace (Z.to_nat m <? Z.to_nat n)%nat with true
          by (symmetry; apply Nat.ltb_lt; lia).
        rewrite !Z2Nat.id by lia. auto. }
      split; [|split].
      * unfold Keep; cbn [fst snd].
        split; [apply has_shape_upd; exact HSa|]. split; [|split; [|split]].
        -- intros i j Hij. rewrite get_upd by (auto; lia).
           split_eqb; apply HZa; exact Hij.
        -- intros i Hi. rewrite get_upd by (auto; lia).
           split_eqb; apply HDa; exact Hi.
        -- apply has_shape_upd; exact HSb.
        -- intros i j Hij. rewrite get_upd by (auto; lia).
           split_eqb; apply HZb; exact Hij.
      * intros i j Hj Hij. unfold Low; cbn [fst snd].
        rewrite !get_upd by (auto; lia).
        split_eqb; apply (HLa i j); lia.
      * intros i Hi1 Hi2.
        destruct (Nat.eq_dec i (Z.to_nat n)) as [->|Hne]; [exact New|].
        unfold Low; cbn [fst snd]. rewrite !get_upd by (auto; lia).
        split_eqb; apply (HCa i); lia.
Qed.

(** The tables of the engine that [__init__] returns. *)
Lemma init_tables (lf : LegendreFunctions) :
  LegendreFunctions_init N = Ok lf ->
  forall i j : nat, (i <= N)%nat -> (j <= N)%nat ->
    get (LF1 lf) i j = LF1_entry i j /\ get (LF2 lf) i j = LF2_entry i j.
Proof.
  intros H. pose proof (init_degree_positive N lf H) as HN.
  unfold LegendreFunctions_init in H.
  inv_bind H. rename a into A0.
  destruct (has_shape_zeros (S N) (S N)) as (Hr & Hc & Hwf).
  rewrite setitem_nonneg in E by lia. injection E as <-.
  inv_bind H. rename a into A1.
  destruct (init_diagonal (upd (zeros (S N) (S N)) (Z.to_nat 1) (Z.to_nat 1) (sqrt 3)) A1)
    as (HS1 & HZ1 & HD1); auto.
  { apply has_shape_upd, has_shape_zeros. }
  { intros i j Hij. rewrite get_upd by (auto; lia). rewrite get_zeros.
    split_eqb; reflexivity. }
  { rewrite get_upd by (auto; lia). reflexivity. }
  inv_bind H. destruct a as [A2 B2]. injection H as <-. cbn [LF1 LF2].
  apply (init_columns A1 (zeros (S N) (S N)) A2 B2); auto.
  - apply has_shape_zeros.
  - intros i j _. apply get_zeros.
Qed.

End LegendreTables.

(** X4.  The engine that [__init__] returns carries the maximum degree it
    was built for and the tables of recursion coefficients: every entry of
    [LF1] and [LF2] within the degree holds the coefficient the loops assign
    to it, written once and not overwritten, and the entries no loop
    reaches are zero. *)
Theorem legendre_init_tables (n : nat) (lf : LegendreFunctions) :
  LegendreFunctions_init n = Ok lf ->
  maxdegree lf = n /\
  forall i j : nat, (i <= n)%nat -> (j <= n)%nat ->
    get (LF1 lf) i j = LF1_entry i j /\ get (LF2 lf) i j = LF2_entry i j.
Proof.
  intros H. split; [exact (init_maxdegree n lf H) | exact (init_tables n lf H)].
Qed.

Lemma legendre_init_tables_witness :
  exists lf,
    LegendreFunctions_init 2 = Ok lf /\
    maxdegree lf = 2%nat /\
    forall i j : nat, (i <= 2)%nat -> (j <= 2)%nat ->
      get (LF1 lf) i j = LF1_entry i j /\ get (LF2 lf) i j = LF2_entry i j.
Proof.
  destruct (init_total 2) as (lf & Hlf & _); [lia|].
  exists lf. split; [exact Hlf|].
  apply (legendre_init_tables 2 lf Hlf).
Defined.

Lemma low_table_values :
  LF1_entry 1 0 = sqrt 3 /\ LF1_entry 1 1 = sqrt 3 /\
  LF1_entry 2 0 = sqrt 15 / 2 /\ LF1_entry 2 1 = sqrt 5 /\
  LF1_entry 2 2 = sqrt 5 / 2 /\ LF2_entry 2 0 = sqrt 5 / 2.
Proof.
  assert (S4 : sqrt 4 = 2).
  { replace 4 with (2 * 2) by lra. apply sqrt_square; lra. }
  assert (Q : forall x, 0 <= x -> sqrt (x / 4) = sqrt x / 2).
  { intros x Hx. rewrite sqrt_div by lra. rewrite S4. reflexivity. }
  unfold LF1_entry, LF2_entry.
  cbv -[sqrt Rmult Rdiv Rplus Rminus Ropp IZR Rinv].
  repeat apply conj.
  - f_equal; field.
  - reflexivity.
  - rewrite <- Q by lra. f_equal; field.
  - f_equal; field.
  - rewrite <- Q by lra. f_equal; field.
  - rewrite <- Q by lra. f_equal; field.
Qed.

(** X5.  For every maximum degree of at least 2 the entries of degree 0, 1
    and 2 are the fully normalised associated Legendre functions in closed
    form: 1; sqrt 3 cos, sqrt 3 sin; (sqrt 5 / 2)(3 cos^2 - 1),
    sqrt 15 sin cos, (sqrt 15 / 2) sin^2. *)
Theorem legendre_low_degrees (n : nat) (lf : LegendreFunctions) (theta : R)
    (P : ndarray) :
  (2 <= n)%nat ->
  LegendreFunctions_init n = Ok lf ->
  LegendreFunctions_call lf theta = Ok P ->
  get P 0 0 = 1 /\
  get P 1 0 = sqrt 3 * cos theta /\
  get P 1 1 = sqrt 3 * sin theta /\
  get P 2 0 = sqrt 5 / 2 * (3 * (cos theta * cos theta) - 1) /\
  get P 2 1 = sqrt 15 * sin theta * cos theta /\
  get P 2 2 = sqrt 15 / 2 * (sin theta * sin theta).
Proof.
  intros Hn Hlf HP.
  destruct (call_recursion lf theta P HP) as (H0 & HD & HS & HG).
  rewrite (init_maxdegree n lf Hlf) in HD, HS, HG.
  pose proof (init_tables n lf Hlf) as HT.
  destruct low_table_values as (T10 & T11 & T20 & T21 & T22 & U20).
  assert (S3 : sqrt 3 * sqrt 3 = 3) by (apply sqrt_sqrt; lra).
  assert (S15 : sqrt 15 = sqrt 5 * sqrt 3).
  { rewrite <- sqrt_mult by lra. f_equal. lra. }
  assert (P10 : get P 1 0 = sqrt 3 * cos theta).
  { pose proof (HS 0%nat ltac:(lia)) as E. cbn [Nat.add] in E. rewrite E.
    destruct (HT 1%nat 0%nat) as [-> _]; try lia. rewrite T10, H0. ring. }
  assert (P11 : get P 1 1 = sqrt 3 * sin theta).
  { rewrite (HD 1%nat) by lia. cbn [Nat.sub].
    destruct (HT 1%nat 1%nat) as [-> _]; try lia. rewrite T11, H0. ring. }
  split; [exact H0|]. split; [exact P10|]. split; [exact P11|].
  split; [|split].
  - rewrite (HG 2%nat 0%nat) by lia. cbn [Nat.sub].
    destruct (HT 2%nat 0%nat) as [-> ->]; try lia.
    rewrite T20, U20, P10, H0, S15.
    replace (3 * (cos theta * cos theta) - 1)
      with (sqrt 3 * sqrt 3 * (cos theta * cos theta) - 1)
      by (rewrite S3; reflexivity).
    field.
  - pose proof (HS 1%nat ltac:(lia)) as E. cbn [Nat.add] in E. rewrite E.
    destruct (HT 2%nat 1%nat) as [-> _]; try lia.
    rewrite T21, P11, S15. ring.
  - rewrite (HD 2%nat) by lia. cbn [Nat.sub].
    destruct (HT 2%nat 2%nat) as [-> _]; try lia.
    rewrite T22, P11, S15. field.
Qed.

Lemma legendre_low_degrees_witness :
  exists lf P,
    LegendreFunctions_init 2 = Ok lf /\
    LegendreFunctions_call lf 1 = Ok P /\
    get P 0 0 = 1 /\
    get P 1 0 = sqrt 3 * cos 1 /\
    get P 1 1 = sqrt 3 * sin 1 /\
    get P 2 0 = sqrt 5 / 2 * (3 * (cos 1 * cos 1) - 1) /\
    get P 2 1 = sqrt 15 * sin 1 * cos 1 /\
    get P 2 2 = sqrt 15 / 2 * (sin 1 * sin 1).
Proof.
  destruct (init_total 2) as (lf & Hlf & _); [lia|].
  destruct (init_call_total 2 lf 1 Hlf) as (P & HP).
  exists lf, P. split; [exact Hlf|]. split; [exact HP|].
  apply (legendre_low_degrees 2 lf 1 P); [lia | exact Hlf | exact HP].
Defined.

(** ** More on [coeffisort] *)

Lemma coeffisort_loop_raises (maxdeg : nat) (mat : list coeff_row) :
  forall cnm snm e,
  has_shape cnm (S maxdeg) (S maxdeg) -> has_shape snm (S maxdeg) (S maxdeg) ->
  (coeffisort_loop mat maxdeg cnm snm = Raise e <->
   e = IndexError /\
   exists pre r post,
     mat = pre ++ r :: post /\
     Forall (fun r' => row0 r' <= INR maxdeg) pre /\
     row0 r <= INR maxdeg /\
     cell maxdeg r = Raise IndexError).
Proof.
  induction mat as [|r mat IH]; intros cnm snm e Hc Hs.
  - split; [discriminate|].
    intros (_ & pre & r & post & E & _). destruct pre; discriminate E.
  - destruct (Rgt_dec (row0 r) (INR maxdeg)) as [Hover|Hin].
    + split.
      * simpl. destruct (Rgt_dec (row0 r) (INR maxdeg)); [discriminate|contradiction].
      * intros (_ & pre & r' & post & E & Hpre & Hr' & _).
        destruct pre as [|p pre]; injection E as <- _.
        -- lra.
        -- inversion Hpre; subst. lra.
    + assert (Hle : row0 r <= INR maxdeg) by lra.
      rewrite coeffisort_loop_within by exact Hle.
      rewrite (setitem_cell cnm maxdeg r) by exact Hc.
      rewrite (setitem_cell snm maxdeg r) by exact Hs.
      destruct (cell_cases maxdeg r) as [(i0 & j0 & E0 & Hi0 & Hj0)|E0].
      * rewrite E0; cbn [bind fst snd].
        rewrite IH by (apply has_shape_upd; assumption).
        split; intros (He & pre & r' & post & E & Hpre & Hr' & Hcell);
          (split; [exact He|]).
        -- exists (r :: pre), r', post. subst mat. repeat split; auto.
        -- destruct pre as [|p pre]; injection E as <- E.
           ++ congruence.
           ++ inversion Hpre; subst. exists pre, r', post. auto.
      * rewrite E0; cbn [bind]. split.
        -- intros [= <-]. split; [reflexivity|].
           exists [], r, mat. auto.
        -- intros (-> & _). reflexivity.
Qed.

(** X7.  On a list in non-decreasing degree order without conflicting
    duplicates, [coeffisort], when it returns, returns two matrices of shape
    [(maxdegree+1, maxdegree+1)] in which the cell of every row of degree
    within the limit holds the C and S values of that row, and every cell no
    such row is written to is zero. *)
Theorem coeffisort_lookup (mat : list coeff_row) (maxdeg : nat)
    (cnm snm : ndarray) :
  degree_sorted mat -> consistent maxdeg mat ->
  coeffisort mat maxdeg = Ok (cnm, snm) ->
  has_shape cnm (maxdeg + 1) (maxdeg + 1) /\
  has_shape snm (maxdeg + 1) (maxdeg + 1) /\
  (forall r i j, In r mat -> row0 r <= INR maxdeg ->
     cell maxdeg r = Ok (i, j) ->
     get cnm i j = row2 r /\ get snm i j = row3 r) /\
  (forall i j,
     (forall r, In r mat -> row0 r <= INR maxdeg -> cell maxdeg r <> Ok (i, j)) ->
     get cnm i j = 0 /\ get snm i j = 0).
Proof.
  intros Hsort Hcons H. unfold coeffisort in H.
  pose proof (has_shape_zeros (S maxdeg) (S maxdeg)) as Hz.
  destruct (coeffisort_loop_sorted maxdeg mat _ _ Hz Hz Hsort Hcons)
    as [(_ & E) | (_ & c & s & E & Hc & Hs & V)];
    rewrite E in H; [discriminate|].
  injection H as <- <-. rewrite Nat.add_1_r.
  split; [exact Hc|]. split; [exact Hs|]. split.
  - intros r i j Hr Hle Hcell. destruct (V i j) as (V1 & _).
    apply (V1 r); auto.
  - intros i j Hno. destruct (V i j) as (_ & V2).
    rewrite <- (get_zeros (S maxdeg) (S maxdeg) i j).
    apply V2. intros r [Hr Hle]. apply Hno; assumption.
Qed.

Lemma coeffisort_lookup_witness :
  exists cnm snm,
    coeffisort [Row 2 0 1 5; Row 2 1 3 4] 2 = Ok (cnm, snm) /\
    has_shape cnm (2 + 1) (2 + 1) /\
    has_shape snm (2 + 1) (2 + 1) /\
    (forall r i j, In r [Row 2 0 1 5; Row 2 1 3 4] -> row0 r <= INR 2 ->
       cell 2 r = Ok (i, j) ->
       get cnm i j = row2 r /\ get snm i j = row3 r) /\
    (forall i j,
       (forall r, In r [Row 2 0 1 5; Row 2 1 3 4] -> row0 r <= INR 2 ->
                  cell 2 r <> Ok (i, j)) ->
       get cnm i j = 0 /\ get snm i j = 0).
Proof.
  assert (S2 : degree_sorted [Row 2 0 1 5; Row 2 1 3 4]).
  { intros i j Hij Hj. simpl in Hj.
    destruct i as [|[|i]], j as [|[|j]]; simpl; try lia; lra. }
  assert (C2 : consistent 2 [Row 2 0 1 5; Row 2 1 3 4]).
  { intros r r' ij [<-|[<-|[]]] [<-|[<-|[]]] _ _; unfold cell;
      cbn [row0 row1 row2 row3]; rewrite !py_int_IZR;
      rewrite !norm_index_nonneg by lia; cbn [bind];
      intros E1 E2; auto; rewrite <- E1 in E2; injection E2; lia. }
  destruct (coeffisort [Row 2 0 1 5; Row 2 1 3 4] 2) as [[cnm snm]|e] eqn:E.
  - exists cnm, snm. split; [reflexivity|].
    apply (coeffisort_lookup [Row 2 0 1 5; Row 2 1 3 4] 2 cnm snm S2 C2 E).
  - exfalso. unfold coeffisort in E.
    apply (coeffisort_loop_raises 2 _ _ _ e (has_shape_zeros 3 3) (has_shape_zeros 3 3))
      in E as (_ & pre & r & post & E & _ & _ & Hcell).
    assert (Hr : In r [Row 2 0 1 5; Row 2 1 3 4]) by (rewrite E; apply in_elt).
    destruct Hr as [<-|[<-|[]]]; unfold cell in Hcell;
      cbn [row0 row1] in Hcell; rewrite !py_int_IZR in Hcell;
      rewrite !norm_index_nonneg in Hcell by lia; discriminate Hcell.
Defined.

Lemma coeffisort_loop_app (maxdeg : nat) (a l : list coeff_row) :
  forall cnm snm,
  Forall (fun r => row0 r <= INR maxdeg) a ->
  coeffisort_loop (a ++ l) maxdeg cnm snm =
  (st <- coeffisort_loop a maxdeg cnm snm ;;
   coeffisort_loop l maxdeg (fst st) (snd st)).
Proof.
  induction a as [|r a IH]; intros cnm snm Ha; [reflexivity|].
  inversion Ha as [|? ? Hr Ha']; subst.
  rewrite <- app_comm_cons, !coeffisort_loop_within by exact Hr.
  destruct (setitem cnm _ _ _); cbn [bind]; [|reflexivity].
  destruct (setitem snm _ _ _); cbn [bind]; [|reflexivity].
  apply IH, Ha'.
Qed.

(** Rows that are written elsewhere leave a cell as it is. *)
Lemma coeffisort_loop_frame (maxdeg : nat) (b : list coeff_row) :
  forall cnm snm cnm' snm',
  has_shape cnm (S maxdeg) (S maxdeg) -> has_shape snm (S maxdeg) (S maxdeg) ->
  Forall (fun r => row0 r <= INR maxdeg) b ->
  coeffisort_loop b maxdeg cnm snm = Ok (cnm', snm') ->
  has_shape cnm' (S maxdeg) (S maxdeg) /\ has_shape snm' (S maxdeg) (S maxdeg) /\
  forall i j, (forall r, In r b -> cell maxdeg r <> Ok (i, j)) ->
    get cnm' i j = get cnm i j /\ get snm' i j = get snm i j.
Proof.
  induction b as [|r b IH]; intros cnm snm cnm' snm' Hc Hs Hb H.
  - injection H as <- <-. auto.
  - inversion Hb as [|? ? Hr Hb']; subst.
    rewrite coeffisort_loop_within in H by exact Hr.
    rewrite (setitem_cell cnm maxdeg r), (setitem_cell snm maxdeg r) in H
      by assumption.
    destruct (cell_cases maxdeg r) as [(i0 & j0 & E0 & Hi0 & Hj0)|E0];
      rewrite E0 in H; cbn [bind fst snd] in H; [|discriminate].
    apply IH in H as (Hc' & Hs' & HF); auto using has_shape_upd.
    split; [exact Hc'|]. split; [exact Hs'|].
    intros i j Hno. destruct (HF i j) as [-> ->].
    { intros r' Hr'. apply Hno. right; exact Hr'. }
    destruct Hc as (Hcr & Hcc & Hcw), Hs as (Hsr & Hsc & Hsw).
    rewrite !get_upd by (auto; lia).
    destruct ((i =? i0)%nat && (j =? j0)%nat) eqn:E; auto.
    apply andb_true_iff in E as [E1 E2]. apply Nat.eqb_eq in E1, E2; subst.
    exfalso. apply (Hno r); [left; reflexivity | exact E0].
Qed.

(** X8.  A later row overwrites an earlier one: when no row of the list is
    over the degree limit, the cell of a row holds the values of that row
    unless a row behind it is written to the same cell. *)
Theorem coeffisort_last_write (maxdeg : nat) (a b : list coeff_row)
    (r : coeff_row) (cnm snm : ndarray) (i j : nat) :
  Forall (fun r' => row0 r' <= INR maxdeg) (a ++ r :: b) ->
  cell maxdeg r = Ok (i, j) ->
  (forall r', In r' b -> cell maxdeg r' <> Ok (i, j)) ->
  coeffisort (a ++ r :: b) maxdeg = Ok (cnm, snm) ->
  get cnm i j = row2 r /\ get snm i j = row3 r.
Proof.
  intros Hall Hcell Hno H. unfold coeffisort in H.
  apply Forall_app in Hall as (Ha & Hrb).
  inversion Hrb as [|? ? Hr Hb]; subst.
  rewrite coeffisort_loop_app in H by exact Ha.
  apply bind_Ok_inv in H as ([c1 s1] & E1 & H). cbn [fst snd] in H.
  pose proof (has_shape_zeros (S maxdeg) (S maxdeg)) as Hz.
  apply coeffisort_loop_frame in E1 as (Hc1 & Hs1 & _); auto.
  rewrite coeffisort_loop_within in H by exact Hr.
  rewrite (setitem_cell c1 maxdeg r), (setitem_cell s1 maxdeg r) in H
    by assumption.
  rewrite Hcell in H. cbn [bind fst snd] in H.
  apply coeffisort_loop_frame in H as (_ & _ & HF); auto using has_shape_upd.
  destruct (HF i j Hno) as [-> ->].
  destruct (cell_cases maxdeg r) as [(i0 & j0 & E0 & Hi0 & Hj0)|E0];
    rewrite E0 in Hcell; [injection Hcell as <- <-|discriminate].
  destruct Hc1 as (Hcr & Hcc & Hcw), Hs1 as (Hsr & Hsc & Hsw).
  rewrite !get_upd by (auto; lia). rewrite !Nat.eqb_refl. auto.
Qed.

Lemma coeffisort_last_write_witness :
  exists cnm snm,
    coeffisort ([Row 2 0 1 0] ++ Row 2 0 2 7 :: [Row 2 1 3 4]) 2 = Ok (cnm, snm) /\
    get cnm 2 0 = 2 /\ get snm 2 0 = 7.
Proof.
  assert (Cell : forall o c s, (0 <= o < 3)%Z ->
            cell 2 (Row 2 (IZR o) c s) = Ok (2%nat, Z.to_nat o)).
  { intros o c s Ho. unfold cell; cbn [row0 row1]. rewrite !py_int_IZR.
    rewrite !norm_index_nonneg by lia. reflexivity. }
  destruct (coeffisort ([Row 2 0 1 0] ++ Row 2 0 2 7 :: [Row 2 1 3 4]) 2)
    as [[cnm snm]|e] eqn:E.
  - exists cnm, snm. split; [reflexivity|].
    apply (coeffisort_last_write 2 [Row 2 0 1 0] [Row 2 1 3 4] (Row 2 0 2 7)
             cnm snm 2 0).
    + repeat constructor; simpl; lra.
    + apply (Cell 0%Z); lia.
    + intros r' [<-|[]]. rewrite (Cell 1%Z) by lia. discriminate.
    + exact E.
  - exfalso. unfold coeffisort in E.
    apply (coeffisort_loop_raises 2 _ _ _ e (has_shape_zeros 3 3) (has_shape_zeros 3 3))
      in E as (_ & pre & r & post & E & _ & _ & Hcell).
    assert (Hr : In r ([Row 2 0 1 0] ++ Row 2 0 2 7 :: [Row 2 1 3 4]))
      by (rewrite E; apply in_elt).
    destruct Hr as [<-|[<-|[<-|[]]]];
      [rewrite (Cell 0%Z) in Hcell by lia | rewrite (Cell 0%Z) in Hcell by lia
       | rewrite (Cell 1%Z) in Hcell by lia]; discriminate Hcell.
Defined.

Lemma norm_index_mod (n : nat) (i : Z) :
  (- Z.of_nat n <= i < Z.of_nat n)%Z ->
  norm_index n i = Ok (Z.to_nat (i mod Z.of_nat n)).
Proof.
  intros H. destruct (Z_lt_le_dec i 0) as [Hneg|Hpos].
  - unfold norm_index.
    replace ((0 <=? i)%Z && (i <? Z.of_nat n)%Z) with false
      by (symmetry; apply andb_false_iff; left; apply Z.leb_gt; lia).
    replace ((- Z.of_nat n <=? i)%Z && (i <? 0)%Z) with true
      by (symmetry; apply andb_true_iff; split;
          [apply Z.leb_le | apply Z.ltb_lt]; lia).
    do 2 f_equal.
    rewrite <- (Z_mod_plus_full i 1 (Z.of_nat n)), Z.mul_1_l.
    symmetry; apply Z.mod_small; lia.
  - rewrite norm_index_nonneg by lia. rewrite Z.mod_small by lia. reflexivity.
Qed.

(** X9.  Indices follow NumPy's arithmetic: a row whose degree and order
    are integers within [-(maxdegree+1), maxdegree] is accepted, and a
    negative degree or order counts from the end, so the row is written to
    the cell of its indices modulo [maxdegree + 1]. *)
Theorem coeffisort_index_wrap (maxdeg : nat) (zn zm : Z) (c s : R) :
  (- (Z.of_nat maxdeg + 1) <= zn <= Z.of_nat maxdeg)%Z ->
  (- (Z.of_nat maxdeg + 1) <= zm <= Z.of_nat maxdeg)%Z ->
  coeffisort [Row (IZR zn) (IZR zm) c s] maxdeg =
  Ok (upd (zeros (S maxdeg) (S maxdeg))
          (Z.to_nat (zn mod (Z.of_nat maxdeg + 1)))
          (Z.to_nat (zm mod (Z.of_nat maxdeg + 1))) c,
      upd (zeros (S maxdeg) (S maxdeg))
          (Z.to_nat (zn mod (Z.of_nat maxdeg + 1)))
          (Z.to_nat (zm mod (Z.of_nat maxdeg + 1))) s).
Proof.
  intros Hn Hm. unfold coeffisort.
  rewrite coeffisort_loop_within
    by (cbn [row0]; rewrite INR_IZR_INZ; apply IZR_le; lia).
  cbn [row0 row1 row2 row3]. rewrite !py_int_IZR.
  unfold setitem.
  destruct (has_shape_zeros (S maxdeg) (S maxdeg)) as (Hr & Hc & _).
  rewrite Hr, Hc.
  rewrite !norm_index_mod by lia.
  replace (Z.of_nat (S maxdeg)) with (Z.of_nat maxdeg + 1)%Z by lia.
  reflexivity.
Qed.

Lemma coeffisort_index_wrap_witness :
  coeffisort [Row (IZR 2) (IZR (-1)) 5 6] 3 =
  Ok (upd (zeros 4 4) (Z.to_nat (2 mod (Z.of_nat 3 + 1)))
          (Z.to_nat (-1 mod (Z.of_nat 3 + 1))) 5,
      upd (zeros 4 4) (Z.to_nat (2 mod (Z.of_nat 3 + 1)))
          (Z.to_nat (-1 mod (Z.of_nat 3 + 1))) 6).
Proof.
  apply (coeffisort_index_wrap 3 2 (-1) 5 6); lia.
Defined.

(** ** More on the Love numbers *)

Lemma sorted_Rlt_head (x0 : R) (xp : list R) :
  Sorted Rlt (x0 :: xp) -> Forall (fun x => x0 < x) xp.
Proof.
  intros H. apply Sorted_StronglySorted in H.
  - inversion H; assumption.
  - intros a b c; apply Rlt_trans.
Qed.

(** At a sample point the scan of [np.interp] returns the sample value. *)
Lemma interp_scan_sample (xp fp : list R) :
  forall x0 y0 x y,
  length xp = length fp -> Sorted Rlt (x0 :: xp) ->
  In (x, y) (combine (x0 :: xp) (y0 :: fp)) ->
  interp_scan x (x0 :: xp) (y0 :: fp) = y.
Proof.
  revert fp; induction xp as [|x1 xp IH]; intros fp x0 y0 x y Hlen Hs Hin;
    destruct fp as [|y1 fp]; try discriminate.
  - destruct Hin as [[= <- <-]|[]]. reflexivity.
  - rewrite interp_scan_step.
    pose proof (sorted_Rlt_head x0 (x1 :: xp) Hs) as Hhd.
    inversion Hhd as [|? ? H01 Hrest]; subst.
    destruct Hin as [[= <- <-]|Hin].
    + destruct (Rlt_dec x0 x1); [|lra].
      destruct (Req_dec_T x0 x0); [reflexivity | contradiction].
    + assert (Hs' : Sorted Rlt (x1 :: xp)) by (inversion Hs; assumption).
      assert (Hx : x1 <= x).
      { destruct Hin as [[= <- <-]|Hin]; [lra|].
        apply in_combine_l in Hin.
        pose proof (sorted_Rlt_head x1 xp Hs') as Hall.
        rewrite Forall_forall in Hall. apply Hall in Hin. lra. }
      destruct (Rlt_dec x x1); [lra|].
      apply IH; auto.
Qed.

(** The scan stays between the bounds of the sample values. *)
Lemma interp_scan_bounds (lo hi x : R) (xp fp : list R) :
  forall x0 y0,
  length xp = length fp -> Sorted Rlt (x0 :: xp) -> x0 <= x ->
  Forall (fun y => lo <= y <= hi) (y0 :: fp) ->
  lo <= interp_scan x (x0 :: xp) (y0 :: fp) <= hi.
Proof.
  revert fp; induction xp as [|x1 xp IH]; intros fp x0 y0 Hlen Hs Hx Hb;
    destruct fp as [|y1 fp]; try discriminate.
  - inversion Hb; subst. assumption.
  - rewrite interp_scan_step.
    inversion Hb as [|? ? Hy0 Hb']; subst.
    inversion Hb' as [|? ? Hy1 _]; subst.
    assert (H01 : x0 < x1).
    { inversion Hs as [|? ? _ Hhd]; subst. inversion Hhd; subst; assumption. }
    destruct (Rlt_dec x x1) as [Hlt|Hge].
    + destruct (Req_dec_T x0 x); [assumption|].
      rewrite line_through_slope. unfold line_through.
      set (t := (x - x0) / (x1 - x0)).
      assert (Ht : 0 <= t <= 1).
      { unfold t. split.
        - apply Rmult_le_pos; [lra|]. left; apply Rinv_0_lt_compat; lra.
        - apply (Rmult_le_reg_r (x1 - x0)); [lra|].
          unfold Rdiv. rewrite Rmult_assoc, Rinv_l by lra. lra. }
      replace (y0 + (y1 - y0) * (x - x0) / (x1 - x0))
        with (y0 + t * (y1 - y0)) by (unfold t; field; lra).
      split; nra.
    + apply IH; auto; [inversion Hs; assumption | lra].
Qed.

(** X10.  The interpolation reproduces the reference table: at every
    tabulated degree within the maximum degree the Love number is the
    tabulated value. *)
Theorem love_numbers_at_samples (maxdeg n : nat) (y : R) (erg : list R) :
  LoveNumbers maxdeg = Ok erg ->
  In (INR n, y) kl_table -> (n <= maxdeg)%nat ->
  nth n erg 0 = y.
Proof.
  intros H Hin Hn.
  assert (H2 : (2 <= n)%nat).
  { apply INR_le. unfold kl_table in Hin. destruct kl_columns as [E0 E1].
    rewrite E0, E1 in Hin. apply in_combine_l in Hin.
    replace (INR 2) with 2 by (simpl; lra).
    repeat (destruct Hin as [<-|Hin]; [lra|]). destruct Hin. }
  rewrite (LoveNumbers_nth maxdeg n erg H) by lia.
  unfold kl_table in Hin. destruct kl_columns as [-> ->].
  unfold interp1. cbn [hd].
  destruct (Rlt_dec (INR n) 2) as [Hlt|_].
  { apply le_INR in H2. replace (INR 2) with 2 in H2 by (simpl; lra). lra. }
  apply interp_scan_sample; [reflexivity | | exact Hin].
  repeat (constructor; try lra).
Qed.

Lemma love_numbers_at_samples_witness :
  exists erg, LoveNumbers 20 = Ok erg /\ nth 12 erg 0 = -0.064.
Proof.
  eexists. split; [apply LoveNumbers_eq|].
  apply (love_numbers_at_samples 20 12 (-0.064) _ (LoveNumbers_eq 20)); [|lia].
  replace (INR 12) with 12 by (simpl; lra).
  unfold kl_table. destruct kl_columns as [-> ->]. simpl. tauto.
Defined.

(** X11.  Every Love number of degree 2 and above lies between the first
    and the last tabulated value, so [1 + k_n], the divisor that
    [waterheight] uses, lies between 0.697 and 1 at every degree and is
    never zero. *)
Theorem love_numbers_bounds (maxdeg : nat) (erg : list R) :
  LoveNumbers maxdeg = Ok erg ->
  (forall n : nat, (2 <= n <= maxdeg)%nat -> -0.303 <= nth n erg 0 <= -0.007) /\
  (forall n : nat, 0.697 <= 1 + nth n erg 0 <= 1).
Proof.
  intros H.
  assert (B : forall n : nat, (2 <= n <= maxdeg)%nat ->
                -0.303 <= nth n erg 0 <= -0.007).
  { intros n Hn. rewrite (LoveNumbers_nth maxdeg n erg H) by lia.
    destruct kl_columns as [-> ->].
    assert (H2 : 2 <= INR n) by (rewrite INR_IZR_INZ; apply IZR_le; lia).
    unfold interp1. cbn [hd]. destruct (Rlt_dec (INR n) 2); [lra|].
    apply interp_scan_bounds; [reflexivity | | exact H2 |];
      repeat (constructor; try lra). }
  split; [exact B|].
  intros n. destruct (le_lt_dec 2 n) as [H2|H2].
  - destruct (le_lt_dec n maxdeg) as [Hm|Hm].
    + pose proof (B n (conj H2 Hm)). lra.
    + rewrite nth_overflow; [lra|].
      rewrite LoveNumbers_eq in H. injection H as <-.
      cbn [app length]. rewrite length_map, arange_length. lia.
  - rewrite LoveNumbers_eq in H. injection H as <-.
    destruct n as [|[|n]]; try lia; cbn [app nth]; lra.
Qed.

Lemma love_numbers_bounds_witness :
  exists erg,
    LoveNumbers 90 = Ok erg /\
    (forall n : nat, (2 <= n <= 90)%nat -> -0.303 <= nth n erg 0 <= -0.007) /\
    (forall n : nat, 0.697 <= 1 + nth n erg 0 <= 1).
Proof.
  eexists. split; [apply LoveNumbers_eq|].
  apply (love_numbers_bounds 90 _ (LoveNumbers_eq 90)).
Defined.

(** ** The Gaussian filter coefficients *)

Lemma pydiv_nonzero (x y : R) : y <> 0 -> pydiv x y = Ok (x / y).
Proof.
  intros H. unfold pydiv. destruct (Req_dec_T y 0); [contradiction | reflexivity].
Qed.

Lemma seed_of_nonzero (d : R) : d <> 0 -> seed_of d = Bfin (ln 2 / d).
Proof.
  intros H. unfold seed_of. destruct (Req_dec_T d 0); [contradiction | reflexivity].
Qed.

Section GaussRecursion.

(** [q x] stands for the quotient [x / b]. *)
Variables (q : R -> R) (N : nat).

Let body (n : Z) (coeff : ndarray) : res ndarray :=
  c1 <- getitem coeff (n - 1) 0 ;;
  c2 <- getitem coeff (n - 2) 0 ;;
  setitem coeff n 0 (- (q (IZR (2 * n - 1))) * c1 + c2).

Let Sh (W : ndarray) : Prop := has_shape W (N + 1) 1.

Lemma gauss_loop_total (W0 : ndarray) :
  Sh W0 -> exists W, foldM body (range 2 (Z.of_nat N + 1)) W0 = Ok W /\ Sh W.
Proof.
  intros H0. apply (foldM_total Sh); [|exact H0].
  intros n W Hn (Hr & Hc & Hwf). apply in_range in Hn. unfold body.
  rewrite !getitem_nonneg by lia. cbn [bind].
  rewrite setitem_nonneg by lia. eexists; split; [reflexivity|].
  apply has_shape_upd; repeat split; auto.
Qed.

Lemma gauss_loop_recursion (W0 W : ndarray) :
  Sh W0 -> foldM body (range 2 (Z.of_nat N + 1)) W0 = Ok W ->
  (1 <= N)%nat ->
  get W 0 0 = get W0 0 0 /\ get W 1 0 = get W0 1 0 /\
  forall n : nat, (2 <= n <= N)%nat ->
    get W n 0 = - (q (2 * INR n - 1)) * get W (n - 1) 0 + get W (n - 2) 0.
Proof.
  intros H0 H HN.
  apply (foldM_range_inv
           (fun k V => Sh V /\ get V 0 0 = get W0 0 0 /\ get V 1 0 = get W0 1 0 /\
              forall n : nat, (2 <= n)%nat -> (Z.of_nat n < k)%Z ->
                get V n 0 = - (q (2 * INR n - 1)) * get V (n - 1) 0 +
                            get V (n - 2) 0))
    in H; [| lia | | repeat split; auto; try apply H0; intros; lia].
  - destruct H as (_ & E0 & E1 & HR). repeat split; auto.
    intros n Hn. apply HR; lia.
  - clear H. intros n V V' Hn (HS & E0 & E1 & HR) Hb. unfold body in Hb.
    pose proof HS as (Hr & Hc & Hwf).
    rewrite !getitem_nonneg in Hb by lia. cbn [bind] in Hb.
    rewrite setitem_nonneg in Hb by lia.
    assert (EV : V' = upd V (Z.to_nat n) (Z.to_nat 0)
                        (- (q (IZR (2 * n - 1))) *
                           get V (Z.to_nat (n - 1)) (Z.to_nat 0) +
                         get V (Z.to_nat (n - 2)) (Z.to_nat 0)))
      by congruence.
    clear Hb. subst V'.
    replace (Z.to_nat (n - 1)) with (Z.to_nat n - 1)%nat by lia.
    replace (Z.to_nat (n - 2)) with (Z.to_nat n - 2)%nat by lia.
    split; [apply has_shape_upd; exact HS|].
    split; [|split].
    + rewrite get_upd by (auto; lia). split_eqb; exact E0.
    + rewrite get_upd by (auto; lia). split_eqb; exact E1.
    + intros k Hk1 Hk2. rewrite !get_upd by (auto; lia).
      split_eqb; try (apply HR; lia).
      subst k. rewrite INR_IZR_INZ, Z2Nat.id by lia.
      rewrite minus_IZR, mult_IZR. reflexivity.
Qed.

End GaussRecursion.

Lemma ln_2_pos : 0 < ln 2.
Proof. rewrite <- ln_1. apply ln_increasing; lra. Qed.

(** X12.  With a non-zero Earth radius, a filter radius that is not a
    multiple of the circumference and a maximum degree of at least 1,
    [GaussFilterCoeff] returns a column of [maxdegree + 1] weights: the
    weight 1 at degree 0, the closed-form seed at degree 1, and above that
    the three-term recursion in [b = ln 2 / (1 - cos (fr / R))], which is
    positive. *)
Theorem gauss_filter_recursion (R0 fr : R) (maxdeg : nat) :
  R0 <> 0 -> cos (fr / R0) <> 1 -> (1 <= maxdeg)%nat ->
  let b := ln 2 / (1 - cos (fr / R0)) in
  0 < b /\
  exists W,
    GaussFilterCoeff R0 fr maxdeg = Ok W /\
    has_shape W (maxdeg + 1) 1 /\
    get W 0 0 = 1 /\
    get W 1 0 = (1 + exp (-1 * b)) / (1 - exp (-2 * b)) - 1 / b /\
    forall n : nat, (2 <= n <= maxdeg)%nat ->
      get W n 0 = - ((2 * INR n - 1) / b) * get W (n - 1) 0 + get W (n - 2) 0.
Proof.
  intros HR Hcos Hd b. split.
  { unfold b. apply Rdiv_lt_0_compat; [apply ln_2_pos|].
    pose proof (COS_bound (fr / R0)). lra. }
  unfold GaussFilterCoeff. rewrite pydiv_nonzero by exact HR. cbn [bind].
  rewrite seed_of_nonzero by lra. cbn [exp_times over].
  fold b.
  destruct (has_shape_zeros (maxdeg + 1) 1) as (Hr & Hc & Hwf).
  rewrite setitem_nonneg by lia. cbn [bind].
  rewrite setitem_nonneg
    by (unfold nrows, upd; cbn [rows ncols]; rewrite ?length_list_set;
        fold (nrows (zeros (maxdeg + 1) 1)); lia).
  cbn [bind].
  match goal with
  | |- context [foldM _ _ ?W0] => set (V0 := W0)
  end.
  assert (HS0 : has_shape V0 (maxdeg + 1) 1).
  { unfold V0. apply has_shape_upd, has_shape_upd, has_shape_zeros. }
  destruct (gauss_loop_total (fun x => x / b) maxdeg V0 HS0) as (W & HW & HSW).
  exists W. split; [exact HW|]. split; [exact HSW|].
  destruct (gauss_loop_recursion (fun x => x / b) maxdeg V0 W HS0 HW Hd)
    as (E0 & E1 & HRec).
  assert (G : forall x y, get V0 x y =
                if (x =? 1)%nat && (y =? 0)%nat
                then (1 + exp (-1 * b)) / (1 - exp (-2 * b)) - 1 / b
                else if (x =? 0)%nat && (y =? 0)%nat then 1 else 0).
  { intros x y. unfold V0.
    destruct (has_shape_upd (zeros (maxdeg + 1) 1) (maxdeg + 1) 1
                (Z.to_nat 0) (Z.to_nat 0) 1 (has_shape_zeros _ _))
      as (Hr1 & Hc1 & Hwf1).
    rewrite get_upd by (try exact Hwf1; rewrite ?Hr1, ?Hc1; cbn; lia).
    rewrite get_upd by (try exact Hwf; rewrite ?Hr, ?Hc; cbn; lia).
    rewrite get_zeros. reflexivity. }
  rewrite E0, E1, !G. cbn. auto.
Qed.

Lemma gauss_filter_recursion_witness :
  let b := ln 2 / (1 - cos (PI / 1)) in
  0 < b /\
  exists W,
    GaussFilterCoeff 1 PI 2 = Ok W /\
    has_shape W (2 + 1) 1 /\
    get W 0 0 = 1 /\
    get W 1 0 = (1 + exp (-1 * b)) / (1 - exp (-2 * b)) - 1 / b /\
    forall n : nat, (2 <= n <= 2)%nat ->
      get W n 0 = - ((2 * INR n - 1) / b) * get W (n - 1) 0 + get W (n - 2) 0.
Proof.
  apply (gauss_filter_recursion 1 PI 2).
  - lra.
  - replace (PI / 1) with PI by field. rewrite cos_PI. lra.
  - lia.
Defined.

Lemma GaussFilterCoeff_cases (R0 fr : R) (maxdeg : nat) :
  (R0 = 0 /\ GaussFilterCoeff R0 fr maxdeg = Raise ZeroDivisionError) \/
  (R0 <> 0 /\ maxdeg = 0%nat /\
   GaussFilterCoeff R0 fr maxdeg = Raise IndexError) \/
  (R0 <> 0 /\ (1 <= maxdeg)%nat /\
   exists W, GaussFilterCoeff R0 fr maxdeg = Ok W /\
             has_shape W (maxdeg + 1) 1).
Proof.
  destruct (Req_dec_T R0 0) as [H0|H0].
  { left. split; [exact H0|]. subst R0. unfold GaussFilterCoeff, pydiv.
    destruct (Req_dec_T 0 0); [reflexivity|contradiction]. }
  right. destruct (Nat.eq_dec maxdeg 0) as [Hd|Hd].
  { left. split; [exact H0|]. split; [exact Hd|]. subst maxdeg.
    unfold GaussFilterCoeff. rewrite pydiv_nonzero by exact H0. reflexivity. }
  right. split; [exact H0|]. split; [lia|].
  unfold GaussFilterCoeff. rewrite pydiv_nonzero by exact H0. cbn [bind].
  destruct (has_shape_zeros (maxdeg + 1) 1) as (Hr & Hc & Hwf).
  rewrite setitem_nonneg by lia. cbn [bind].
  rewrite setitem_nonneg
    by (unfold nrows, upd; cbn [rows ncols]; rewrite ?length_list_set;
        fold (nrows (zeros (maxdeg + 1) 1)); lia).
  cbn [bind].
  match goal with
  | |- context [foldM _ _ ?W0] => set (V0 := W0)
  end.
  assert (HS0 : has_shape V0 (maxdeg + 1) 1).
  { unfold V0. apply has_shape_upd, has_shape_upd, has_shape_zeros. }
  exact (gauss_loop_total
           (fun x => over x (seed_of (1 - cos (fr / R0)))) maxdeg V0 HS0).
Qed.

(** X13.  [GaussFilterCoeff] returns (a column of [maxdegree + 1] weights)
    exactly when the Earth radius is not 0 and the maximum degree is at
    least 1.  An Earth radius of 0 raises [ZeroDivisionError] at [fr / R];
    otherwise a maximum degree of 0 raises [IndexError] at the seed
    assignment [coeff[1]], which is outside the one-row column.  A filter
    radius of 0 or below makes no difference. *)
Theorem gauss_filter_outcome (R0 fr : R) (maxdeg : nat) :
  ((exists W, GaussFilterCoeff R0 fr maxdeg = Ok W /\
              has_shape W (maxdeg + 1) 1) <->
   R0 <> 0 /\ (1 <= maxdeg)%nat) /\
  (GaussFilterCoeff R0 fr maxdeg = Raise ZeroDivisionError <-> R0 = 0) /\
  (GaussFilterCoeff R0 fr maxdeg = Raise IndexError <->
   R0 <> 0 /\ maxdeg = 0%nat) /\
  GaussFilterCoeff R0 fr maxdeg <> Raise ValueError.
Proof.
  destruct (GaussFilterCoeff_cases R0 fr maxdeg)
    as [(H0 & E) | [(H0 & Hd & E) | (H0 & Hd & W & E & HW)]];
    rewrite E.
  - split; [|split; [|split]]; try discriminate.
    + split; [intros (W & HW & _); discriminate | intros (C & _); contradiction].
    + split; auto.
    + split; [discriminate | intros (C & _); contradiction].
  - split; [|split; [|split]]; try discriminate.
    + split; [intros (W & HW & _); discriminate | intros (_ & C); lia].
    + split; [discriminate | intros C; contradiction].
    + split; auto.
  - split; [|split; [|split]]; try discriminate.
    + split; [auto | intros _; exists W; auto].
    + split; [discriminate | intros C; contradiction].
    + split; [discriminate | intros (_ & C); lia].
Qed.

(** ** More on [waterheight] *)


Lemma foldM_map {A B S : Type} (f : B -> S -> res S) (g : A -> B) (l : list A) :
  forall s, foldM f (map g l) s = foldM (fun x => f (g x)) l s.
Proof.
  induction l as [|x l IH]; intros s; [reflexivity|].
  cbn [map foldM]. destruct (f (g x) s); cbn [bind]; [apply IH|reflexivity].
Qed.



(** With matrices of the full shape, enough Love numbers and the engine built
    for the same degree, the row that [waterheight] returns holds the series
    at every longitude. *)
Lemma waterheight_value (maxdeg : nat) (lambdao : list R) (theta : R)
    (dC dS : ndarray) (kn : list R) (lf : LegendreFunctions) (R0 : R)
    (Pnm : ndarray) :
  has_shape dC (maxdeg + 1) (maxdeg + 1) ->
  has_shape dS (maxdeg + 1) (maxdeg + 1) ->
  (maxdeg + 1 <= length kn)%nat ->
  LegendreFunctions_init maxdeg = Ok lf ->
  LegendreFunctions_call lf theta = Ok Pnm ->
  waterheight lambdao theta dC dS maxdeg lf kn R0 =
  Ok (NDArray (length lambdao + 1)
        [theta :: map (ewh_series R0 maxdeg dC dS Pnm kn) lambdao]).
Proof.
  intros HC HS Hkn Hlf HP.
  destruct (call_inv lf theta Pnm HP) as (Hs & Hl & _).
  rewrite (init_maxdegree maxdeg lf Hlf) in Hs.
  replace (S maxdeg) with (maxdeg + 1)%nat in Hs by lia.
  rewrite waterheight_unfold, ewh_prologue. cbn [bind]. rewrite HP. cbn [bind].
  change 1%Z with (Z.of_nat (length [theta])).
  rewrite (ewh_loop dC dS Pnm maxdeg kn R0 _ lambdao
             (fun long => ewh_sum_series dC dS Pnm maxdeg kn long HC HS Hs Hl Hkn))
    by apply repeat_length.
  cbn [bind fst length app]. rewrite Nat.add_1_r. reflexivity.
Qed.



(** The series reads the coefficient matrices and the Love numbers from
    degree 2 on only. *)
Lemma ewh_series_ext (R0 : R) (d : nat) (c s c' s' P : ndarray)
    (kn kn' : list R) (lam : R) :
  (forall n m : nat, (2 <= n <= d)%nat -> (m <= n)%nat ->
     get c n m = get c' n m /\ get s n m = get s' n m) ->
  (forall n : nat, (2 <= n <= d)%nat -> nth n kn 0 = nth n kn' 0) ->
  ewh_series R0 d c s P kn lam = ewh_series R0 d c' s' P kn' lam.
Proof.
  intros H Hk. unfold ewh_series. f_equal.
  apply sum_from_ext. intros n Hn. apply sum_from_ext. intros m Hm.
  destruct (H n m) as [-> ->]; [lia|lia|]. rewrite Hk by lia. reflexivity.
Qed.



Lemma ewh_sum_period (cnm snm Pnm : ndarray) (d : nat) (kn : list R)
    (long : R) (k : nat) :
  ewh_sum cnm snm Pnm d kn (long + 2 * INR k * PI) =
  ewh_sum cnm snm Pnm d kn long.
Proof.
  unfold ewh_sum. rewrite ord_mat_tab, !amap_tab. cbv beta.
  assert (Ec : tab (d + 1) (d + 1)
                 (fun _ j => cos ((long + 2 * INR k * PI) * INR j)) =
               tab (d + 1) (d + 1) (fun _ j => cos (long * INR j))).
  { apply tab_ext. intros _ j _ _.
    replace ((long + 2 * INR k * PI) * INR j)
      with (long * INR j + 2 * INR (k * j) * PI) by (rewrite mult_INR; ring).
    apply cos_period. }
  assert (Es : tab (d + 1) (d + 1)
                 (fun _ j => sin ((long + 2 * INR k * PI) * INR j)) =
               tab (d + 1) (d + 1) (fun _ j => sin (long * INR j))).
  { apply tab_ext. intros _ j _ _.
    replace ((long + 2 * INR k * PI) * INR j)
      with (long * INR j + 2 * INR (k * j) * PI) by (rewrite mult_INR; ring).
    apply sin_period. }
  rewrite Ec, Es. reflexivity.
Qed.

(** X15.  [waterheight] is periodic in the longitudes: shifting every
    longitude by a whole number of turns leaves the outcome unchanged,
    whatever the other arguments are (exact in the real-number model of
    the floats). *)
Theorem waterheight_periodic (k : nat) (lambdao : list R) (thetao : R)
    (cnm snm : ndarray) (deg_max : nat) (lf : LegendreFunctions)
    (kn : list R) (R0 : R) :
  waterheight (map (fun long => long + 2 * INR k * PI) lambdao) thetao
              cnm snm deg_max lf kn R0 =
  waterheight lambdao thetao cnm snm deg_max lf kn R0.
Proof.
  rewrite !waterheight_unfold, length_map.
  destruct (setitem (zeros 1 (length lambdao + 1)) 0 0 thetao) as [ewh|e];
    cbn [bind]; [|reflexivity].
  destruct (LegendreFunctions_call lf thetao) as [Pnm|e];
    cbn [bind]; [|reflexivity].
  rewrite foldM_map.
  rewrite (foldM_ext _ (ewh_step cnm snm Pnm deg_max kn R0)); [reflexivity|].
  intros long [e i]. unfold ewh_step. rewrite ewh_sum_period. reflexivity.
Qed.

(** X16.  Degrees 0 and 1 never enter: two pairs of coefficient matrices
    that agree on every entry from row 2 on, with Love numbers that agree
    from degree 2 on, give the same outcome, whatever rows 0 and 1 of the
    matrices and the first two Love numbers are. *)
Theorem waterheight_low_degrees_irrelevant (maxdeg : nat) (lambdao : list R)
    (theta : R) (cnm snm cnm' snm' : ndarray) (kn kn' : list R)
    (lf : LegendreFunctions) (R0 : R) :
  has_shape cnm (maxdeg + 1) (maxdeg + 1) ->
  has_shape snm (maxdeg + 1) (maxdeg + 1) ->
  has_shape cnm' (maxdeg + 1) (maxdeg + 1) ->
  has_shape snm' (maxdeg + 1) (maxdeg + 1) ->
  (maxdeg + 1 <= length kn)%nat -> (maxdeg + 1 <= length kn')%nat ->
  LegendreFunctions_init maxdeg = Ok lf ->
  (forall n m : nat, (2 <= n <= maxdeg)%nat -> (m <= maxdeg)%nat ->
     get cnm n m = get cnm' n m /\ get snm n m = get snm' n m) ->
  (forall n : nat, (2 <= n <= maxdeg)%nat -> nth n kn 0 = nth n kn' 0) ->
  waterheight lambdao theta cnm snm maxdeg lf kn R0 =
  waterheight lambdao theta cnm' snm' maxdeg lf kn' R0.
Proof.
  intros Hc Hs Hc' Hs' Hkn Hkn' Hlf H Hk.
  destruct (init_call_total maxdeg lf theta Hlf) as (Pnm & HP).
  rewrite (waterheight_value maxdeg lambdao theta cnm snm kn lf R0 Pnm),
          (waterheight_value maxdeg lambdao theta cnm' snm' kn' lf R0 Pnm)
    by assumption.
  do 4 f_equal. apply map_ext. intros lam.
  apply ewh_series_ext; [|assumption].
  intros n m Hn Hm. apply H; lia.
Qed.

Lemma waterheight_low_degrees_irrelevant_witness :
  exists lf,
    LegendreFunctions_init 2 = Ok lf /\
    waterheight [0; 1] (PI / 3)
      (tab 3 3 (fun i _ => if (i <? 2)%nat then 7 else 0)) (zeros 3 3) 2 lf
      [1; 1; -0.303] 6378136.46 =
    waterheight [0; 1] (PI / 3) (zeros 3 3) (zeros 3 3) 2 lf
      [0; 0; -0.303] 6378136.46.
Proof.
  destruct (init_total 2) as (lf & Hlf & _); [lia|].
  exists lf. split; [exact Hlf|].
  apply (waterheight_low_degrees_irrelevant 2 [0; 1] (PI / 3)
           (tab 3 3 (fun i _ => if (i <? 2)%nat then 7 else 0)) (zeros 3 3)
           (zeros 3 3) (zeros 3 3) [1; 1; -0.303] [0; 0; -0.303] lf 6378136.46).
  - apply has_shape_tab.
  - apply has_shape_zeros.
  - apply has_shape_zeros.
  - apply has_shape_zeros.
  - simpl; lia.
  - simpl; lia.
  - exact Hlf.
  - intros n m Hn Hm. assert (n = 2%nat) by lia. subst n.
    rewrite get_tab, !get_zeros by lia. split; reflexivity.
  - intros n Hn. assert (n = 2%nat) by lia. subst n. reflexivity.
Defined.

Lemma broadcast2_raise (g : R -> R -> R) (a b : ndarray) (e : exn) :
  broadcast2 g a b = Raise e -> e = ValueError.
Proof.
  unfold broadcast2, bdim.
  destruct (nrows a =? nrows b)%nat, (nrows a =? 1)%nat, (nrows b =? 1)%nat,
           (ncols a =? ncols b)%nat, (ncols a =? 1)%nat, (ncols b =? 1)%nat;
    cbn [bind]; congruence.
Qed.

Lemma ewh_sum_raise (cnm snm Pnm : ndarray) (d : nat) (kn : list R)
    (long : R) (e : exn) :
  ewh_sum cnm snm Pnm d kn long = Raise e -> e = ValueError.
Proof.
  unfold ewh_sum.
  repeat match goal with
         | |- context [bind (broadcast2 ?g ?a ?b) _] =>
             let E := fresh "E" in
             destruct (broadcast2 g a b) eqn:E; cbn [bind];
             [|intros [= <-]; eapply broadcast2_raise; exact E]
         end.
  discriminate.
Qed.

(** The loop of [waterheight] keeps the shape of the row and its first
    entry, and its own assignments stay inside the row. *)
Lemma ewh_steps_outcome (cnm snm Pnm : ndarray) (d : nat) (kn : list R)
    (R0 : R) (c : nat) (lambdao : list R) :
  forall (ewh : ndarray) (i : Z),
  has_shape ewh 1 c -> (1 <= i)%Z -> (i + Z.of_nat (length lambdao) <= Z.of_nat c)%Z ->
  match foldM (ewh_step cnm snm Pnm d kn R0) lambdao (ewh, i) with
  | Ok (ewh', _) => has_shape ewh' 1 c /\ get ewh' 0 0 = get ewh 0 0
  | Raise e => e = ValueError
  end.
Proof.
  induction lambdao as [|long l IH]; intros ewh i Hs Hi Hc.
  - cbn [foldM]. auto.
  - cbn [foldM length] in *.
    replace (ewh_step cnm snm Pnm d kn R0 long (ewh, i))
      with (sumo <- ewh_sum cnm snm Pnm d kn long ;;
            ewh1 <- setitem ewh 0 i (R0 * 5540 / (3 * 1000) * sumo) ;;
            Ok (ewh1, (i + 1)%Z)) by reflexivity.
    destruct (ewh_sum cnm snm Pnm d kn long) as [v|e] eqn:Ev; cbn [bind];
      [|eapply ewh_sum_raise; exact Ev].
    destruct Hs as (Hr & Hcc & Hwf).
    rewrite setitem_nonneg by (rewrite ?Hr, ?Hcc; lia). cbn [bind].
    assert (Hs' : has_shape (upd ewh (Z.to_nat 0) (Z.to_nat i)
                               (R0 * 5540 / (3 * 1000) * v)) 1 c)
      by (apply has_shape_upd; repeat split; assumption).
    specialize (IH _ (i + 1)%Z Hs' ltac:(lia) ltac:(lia)).
    destruct (foldM (ewh_step cnm snm Pnm d kn R0) l
                (upd ewh (Z.to_nat 0) (Z.to_nat i) (R0 * 5540 / (3 * 1000) * v),
                 (i + 1)%Z)) as [[ewh' i']|e]; [|exact IH].
    destruct IH as (IH1 & IH2). split; [exact IH1|].
    rewrite IH2, get_upd by (rewrite ?Hr, ?Hcc; auto; lia).
    destruct (Nat.eqb_spec 0 (Z.to_nat i)); [lia|].
    rewrite andb_false_r. reflexivity.
Qed.

Lemma waterheight_outcome_aux (lambdao : list R) (thetao : R) (cnm snm : ndarray)
    (deg_max : nat) (lf : LegendreFunctions) (kn : list R) (R0 : R) :
  match waterheight lambdao thetao cnm snm deg_max lf kn R0 with
  | Ok ewh => has_shape ewh 1 (length lambdao + 1) /\ get ewh 0 0 = thetao
  | Raise e => e = ValueError \/ LegendreFunctions_call lf thetao = Raise e
  end.
Proof.
  rewrite waterheight_unfold.
  destruct (has_shape_zeros 1 (length lambdao + 1)) as (Hr & Hc & Hwf).
  rewrite setitem_nonneg by (rewrite ?Hr, ?Hc; lia). cbn [bind].
  destruct (LegendreFunctions_call lf thetao) as [Pnm|e]; cbn [bind];
    [|right; reflexivity].
  set (ewh0 := upd (zeros 1 (length lambdao + 1)) (Z.to_nat 0) (Z.to_nat 0) thetao).
  assert (Hs0 : has_shape ewh0 1 (length lambdao + 1))
    by apply has_shape_upd, has_shape_zeros.
  pose proof (ewh_steps_outcome cnm snm Pnm deg_max kn R0 (length lambdao + 1)
                lambdao ewh0 1 Hs0 ltac:(lia) ltac:(lia)) as H.
  destruct (foldM (ewh_step cnm snm Pnm deg_max kn R0) lambdao (ewh0, 1%Z))
    as [[ewh i]|e]; cbn [bind fst]; [|left; exact H].
  destruct H as (H1 & H2). split; [exact H1|].
  rewrite H2. unfold ewh0.
  rewrite get_upd by (rewrite ?Hr, ?Hc; auto; lia). reflexivity.
Qed.

(** X17.  Whatever the arguments, a row returned by [waterheight] has shape
    [(1, len(lambdao) + 1)] and starts with the colatitude; and when
    [waterheight] raises, the exception is the one the Legendre engine raised
    or the [ValueError] of a broadcast: the assignments of the loop never
    leave the row. *)
Theorem waterheight_outcome (lambdao : list R) (thetao : R) (cnm snm : ndarray)
    (deg_max : nat) (lf : LegendreFunctions) (kn : list R) (R0 : R) :
  match waterheight lambdao thetao cnm snm deg_max lf kn R0 with
  | Ok ewh => has_shape ewh 1 (length lambdao + 1) /\ get ewh 0 0 = thetao
  | Raise e => e = ValueError \/ LegendreFunctions_call lf thetao = Raise e
  end.
Proof.
  apply waterheight_outcome_aux.
Qed.

(** ** The filter weights and the coefficient differences *)

Lemma bdim_one_r (n : nat) : bdim n 1 = Ok n.
Proof. unfold bdim. destruct (n =? 1)%nat; reflexivity. Qed.

Lemma flatten_column (W : ndarray) (n : nat) :
  has_shape W n 1 -> flatten W = map (fun i => get W i 0) (seq 0 n).
Proof.
  intros (Hr & Hc & Hwf). unfold flatten, get, nrows, wf in *.
  rewrite Hc in Hwf. subst n. clear Hc.
  induction (rows W) as [|r rs IH]; [reflexivity|].
  inversion Hwf as [|? ? Hl Hrs]; subst.
  cbn [concat length seq map]. rewrite <- seq_shift, map_map.
  destruct r as [|x [|y r]]; try discriminate.
  cbn [app nth]. f_equal. apply IH. exact Hrs.
Qed.

(** An array against a column: the column is stretched along the rows. *)
Lemma broadcast2_column (g : R -> R -> R) (r c : nat) (f : nat -> nat -> R)
    (F : ndarray) :
  has_shape F r 1 ->
  broadcast2 g (tab r c f) F =
  Ok (tab r c (fun i j => g (f i j) (get F i 0))).
Proof.
  intros (Hr & Hc & _). unfold broadcast2.
  destruct (has_shape_tab r c f) as (Tr & Tc & _).
  rewrite Tr, Tc, Hr, Hc, bdim_same, bdim_one_r. cbn [bind]. f_equal.
  apply tab_ext. intros i j Hi Hj.
  rewrite bget_in_shape by (rewrite ?Tr, ?Tc; assumption).
  rewrite get_tab by assumption. f_equal.
  unfold bget. rewrite Hr, Hc. cbn [Nat.eqb].
  destruct (Nat.eqb_spec r 1); [|reflexivity].
  replace i with 0%nat by lia. reflexivity.
Qed.

(** The filter weights of the example: whichever branch is taken, they
    depend on the degree only. *)
Lemma filter_coeff_cases (R0 fr : R) (maxdeg : nat) :
  (0 < fr -> R0 <> 0 /\ (1 <= maxdeg)%nat) ->
  exists F, filter_coeff R0 fr maxdeg = Ok F /\
    ((0 < fr /\
      exists W, GaussFilterCoeff R0 fr maxdeg = Ok W /\
        F = tab (maxdeg + 1) (maxdeg + 1) (fun i _ => get W i 0)) \/
     (fr <= 0 /\ F = ones (maxdeg + 1) 1)).
Proof.
  intros H. unfold filter_coeff.
  destruct (Rgt_dec fr 0) as [Hfr|Hfr].
  - destruct (H Hfr) as (H0 & Hd).
    destruct (GaussFilterCoeff_cases R0 fr maxdeg)
      as [(C & _) | [(_ & C & _) | (_ & _ & W & E & HW)]];
      [contradiction | lia |].
    rewrite E. cbn [bind]. eexists. split; [reflexivity|]. left.
    split; [exact Hfr|]. exists W. split; [reflexivity|].
    rewrite outer_tab, (flatten_column W (maxdeg + 1) HW), flatten_ones.
    rewrite length_map, length_seq, repeat_length.
    apply tab_ext. intros i j Hi Hj.
    rewrite nth_map_seq by exact Hi. rewrite nth_repeat_lt by exact Hj. ring.
  - eexists. split; [reflexivity|]. right. split; [lra | reflexivity].
Qed.

Lemma filtered_difference_entries (R0 fr : R) (maxdeg : nat) (c2 c1 : ndarray) :
  has_shape c2 (maxdeg + 1) (maxdeg + 1) ->
  has_shape c1 (maxdeg + 1) (maxdeg + 1) ->
  (0 < fr -> R0 <> 0 /\ (1 <= maxdeg)%nat) ->
  exists F dc,
    filter_coeff R0 fr maxdeg = Ok F /\
    filtered_difference c2 c1 F = Ok dc /\
    has_shape dc (maxdeg + 1) (maxdeg + 1) /\
    (forall n m : nat, (n <= maxdeg)%nat -> (m <= maxdeg)%nat ->
       get dc n m = (get c2 n m - get c1 n m) * get F n 0) /\
    (0 < fr -> exists W, GaussFilterCoeff R0 fr maxdeg = Ok W /\
       forall n : nat, (n <= maxdeg)%nat -> get F n 0 = get W n 0) /\
    (fr <= 0 -> forall n : nat, (n <= maxdeg)%nat -> get F n 0 = 1).
Proof.
  intros H2 H1 H.
  destruct (filter_coeff_cases R0 fr maxdeg H)
    as (F & EF & [(Hfr & W & EW & ->) | (Hfr & ->)]).
  - eexists. eexists. split; [exact EF|]. unfold filtered_difference.
    rewrite (broadcast2_same_shape Rminus c2 c1 _ _ H2 H1). cbn [bind].
    rewrite broadcast2_tab.
    split; [reflexivity|]. split; [apply has_shape_tab|].
    split; [|split].
    + intros n m Hn Hm. rewrite !get_tab by lia. reflexivity.
    + intros _. exists W. split; [exact EW|].
      intros n Hn. rewrite get_tab by lia. reflexivity.
    + intros C. lra.
  - eexists. eexists. split; [exact EF|]. unfold filtered_difference.
    rewrite (broadcast2_same_shape Rminus c2 c1 _ _ H2 H1). cbn [bind].
    rewrite broadcast2_column by apply has_shape_ones.
    split; [reflexivity|]. split; [apply has_shape_tab|].
    split; [|split].
    + intros n m Hn Hm. rewrite !get_tab by lia. reflexivity.
    + intros C. lra.
    + intros _ n Hn. apply get_ones; lia.
Qed.

(** X18.  The coefficient differences of the example,
    [(cnm2 - cnm1) * filter_coeff]: for two matrices of the full shape the
    product is defined in both branches of the filter set-up, and every
    difference is multiplied by a weight that depends on its degree only,
    the Gaussian weight [W[n]] for a positive filter radius and 1
    otherwise. *)
Theorem filtered_difference_weights (R0 fr : R) (maxdeg : nat)
    (c2 c1 : ndarray) :
  has_shape c2 (maxdeg + 1) (maxdeg + 1) ->
  has_shape c1 (maxdeg + 1) (maxdeg + 1) ->
  (0 < fr -> R0 <> 0 /\ (1 <= maxdeg)%nat) ->
  exists F dc,
    filter_coeff R0 fr maxdeg = Ok F /\
    filtered_difference c2 c1 F = Ok dc /\
    has_shape dc (maxdeg + 1) (maxdeg + 1) /\
    (forall n m : nat, (n <= maxdeg)%nat -> (m <= maxdeg)%nat ->
       get dc n m = (get c2 n m - get c1 n m) * get F n 0) /\
    (0 < fr -> exists W, GaussFilterCoeff R0 fr maxdeg = Ok W /\
       forall n : nat, (n <= maxdeg)%nat -> get F n 0 = get W n 0) /\
    (fr <= 0 -> forall n : nat, (n <= maxdeg)%nat -> get F n 0 = 1).
Proof.
  apply filtered_difference_entries.
Qed.

Lemma filtered_difference_weights_witness :
  exists F dc,
    filter_coeff 6378.136 300 2 = Ok F /\
    filtered_difference (ones 3 3) (zeros 3 3) F = Ok dc /\
    has_shape dc (2 + 1) (2 + 1) /\
    (forall n m : nat, (n <= 2)%nat -> (m <= 2)%nat ->
       get dc n m = (get (ones 3 3) n m - get (zeros 3 3) n m) * get F n 0) /\
    (0 < 300 -> exists W, GaussFilterCoeff 6378.136 300 2 = Ok W /\
       forall n : nat, (n <= 2)%nat -> get F n 0 = get W n 0) /\
    (300 <= 0 -> forall n : nat, (n <= 2)%nat -> get F n 0 = 1).
Proof.
  apply (filtered_difference_weights 6378.136 300 2 (ones 3 3) (zeros 3 3)).
  - apply has_shape_ones.
  - apply has_shape_zeros.
  - intros _. split; [lra | lia].
Defined.

(** ** The grid: [ewh_calc] *)

Lemma nth_map_gen {A B : Type} (f : A -> B) (l : list A) (d : A) (d' : B)
    (k : nat) :
  (k < length l)%nat -> nth k (map f l) d' = f (nth k l d).
Proof.
  intros Hk. rewrite (nth_indep _ d' (f d)) by (rewrite length_map; exact Hk).
  apply map_nth.
Qed.

Lemma map_nth_seq_id {A : Type} (l : list A) (d : A) :
  map (fun i => nth i l d) (seq 0 (length l)) = l.
Proof.
  apply (nth_ext _ _ d d).
  - rewrite length_map, length_seq. reflexivity.
  - intros k Hk. rewrite length_map, length_seq in Hk.
    apply (nth_map_seq (fun i => nth i l d) (length l) k d Hk).
Qed.

Lemma collect_map_Ok {A B : Type} (f : A -> res B) (l : list A) :
  forall hs, collect (map f l) = Ok hs ->
  length hs = length l /\
  forall j d d', (j < length l)%nat -> f (nth j l d) = Ok (nth j hs d').
Proof.
  induction l as [|a l IH]; intros hs H; cbn [map collect] in H.
  - injection H as <-. split; [reflexivity|]. intros j d d' Hj. cbn in Hj. lia.
  - destruct (f a) as [b|e] eqn:E; cbn [bind] in H; [|discriminate].
    destruct (collect (map f l)) as [bs|e]; cbn [bind] in H; [|discriminate].
    injection H as <-. destruct (IH bs eq_refl) as (IL & IN).
    split; [cbn [length]; lia|].
    intros [|j] d d' Hj; cbn [nth]; [exact E|].
    apply IN. cbn [length] in Hj. lia.
Qed.

Lemma collect_map_total {A B : Type} (f : A -> res B) (l : list A) :
  (forall x, In x l -> exists h, f x = Ok h) ->
  exists hs, collect (map f l) = Ok hs.
Proof.
  induction l as [|a l IH]; intros H; cbn [map collect].
  - eexists. reflexivity.
  - destruct (H a (or_introl eq_refl)) as (h & ->).
    destruct IH as (hs & ->); [intros x Hx; apply H; right; exact Hx|].
    eexists. reflexivity.
Qed.

(** Reading the workers fails exactly at the first one that raised. *)
Lemma collect_map_raise {A B : Type} (f : A -> res B) (l : list A) (e : exn) :
  collect (map f l) = Raise e <->
  exists pre x post,
    l = pre ++ x :: post /\
    (forall y, In y pre -> exists h, f y = Ok h) /\
    f x = Raise e.
Proof.
  induction l as [|a l IH]; cbn [map collect].
  - split; [discriminate|]. intros (pre & x & post & E & _).
    destruct pre; discriminate.
  - destruct (f a) as [b|e'] eqn:E; cbn [bind].
    + destruct (collect (map f l)) as [bs|e'] eqn:Ec; cbn [bind].
      * split; [discriminate|]. intros (pre & x & post & El & Hpre & Hx).
        destruct pre as [|p pre]; cbn [app] in El; injection El as -> ->.
        { congruence. }
        assert (C : Ok bs = Raise e); [|discriminate].
        apply IH. exists pre, x, post. split; [reflexivity|]. split; [|exact Hx].
        intros y Hy. apply Hpre. right. exact Hy.
      * split.
        { intros [= ->]. destruct (proj1 IH eq_refl) as (pre & x & post & -> & Hpre & Hx).
          exists (a :: pre), x, post. split; [reflexivity|]. split; [|exact Hx].
          intros y [<-|Hy]; [eauto | apply Hpre; exact Hy]. }
        { intros (pre & x & post & El & Hpre & Hx).
          destruct pre as [|p pre]; cbn [app] in El; injection El as -> ->.
          { congruence. }
          f_equal. assert (C : Raise e' = @Raise (list B) e); [|congruence].
          apply IH. exists pre, x, post. split; [reflexivity|].
          split; [|exact Hx]. intros y Hy. apply Hpre. right. exact Hy. }
    + split.
      * intros [= ->]. exists [], a, l. split; [reflexivity|].
        split; [intros y []|exact E].
      * intros (pre & x & post & El & Hpre & Hx).
        destruct pre as [|p pre]; cbn [app] in El; injection El as -> ->.
        { congruence. }
        destruct (Hpre p (or_introl eq_refl)) as (h & Hh). congruence.
Qed.

Lemma list_set_middle {A : Type} (v x : A) (done rest : list A) :
  list_set (length done) v (done ++ x :: rest) = done ++ v :: rest.
Proof.
  induction done as [|y done IH]; cbn [length app list_set]; [reflexivity|].
  rewrite IH. reflexivity.
Qed.

Lemma setrow_full (c : nat) (h : ndarray) (done rest : list (list R))
    (x : list R) :
  has_shape h 1 c ->
  setrow (NDArray c (done ++ x :: rest)) (Z.of_nat (length done)) h =
  Ok (NDArray c (done ++ nth 0 (rows h) [] :: rest)).
Proof.
  intros (Hr & Hc & _). unfold setrow.
  rewrite norm_index_nonneg
    by (unfold nrows; cbn [rows]; rewrite length_app; cbn [length]; lia).
  cbn [bind ncols rows]. rewrite Hr, Hc, !Nat.eqb_refl. cbn [negb].
  rewrite Nat2Z.id, list_set_middle. reflexivity.
Qed.

(** The loop [ewh[hi, :] = res[hi].get()], from the position behind the
    workers [pre] already read. *)
Lemma fill_rows (c : nat) (todo : list (res ndarray)) :
  forall (pre : list (res ndarray)) (done rest : list (list R)),
  length done = length pre -> length rest = length todo ->
  (forall h, In (Ok h) todo -> has_shape h 1 c) ->
  foldM (fun hi ewh =>
           row <- nth (Z.to_nat hi) (pre ++ todo) (Raise IndexError) ;;
           setrow ewh hi row)
        (range (Z.of_nat (length pre)) (Z.of_nat (length (pre ++ todo))))
        (NDArray c (done ++ rest)) =
  (hs <- collect todo ;;
   Ok (NDArray c (done ++ map (fun h => nth 0 (rows h) []) hs))).
Proof.
  induction todo as [|r todo IH]; intros pre done rest Hd Hr Hsh.
  - rewrite app_nil_r, range_empty by lia.
    destruct rest; [|discriminate]. reflexivity.
  - destruct rest as [|x rest]; [discriminate|].
    rewrite range_cons by (rewrite length_app; cbn [length]; lia).
    cbn [foldM]. rewrite Nat2Z.id, nth_middle.
    destruct r as [h|e]; cbn [bind collect]; [|reflexivity].
    rewrite <- Hd.
    rewrite setrow_full by (apply Hsh; left; reflexivity). cbn [bind].
    replace (Z.of_nat (length done) + 1)%Z
      with (Z.of_nat (length (pre ++ [Ok h])))
      by (rewrite length_app; cbn [length]; lia).
    replace (pre ++ Ok h :: todo) with ((pre ++ [Ok h]) ++ todo)
      by (rewrite <- app_assoc; reflexivity).
    replace (done ++ nth 0 (rows h) [] :: rest)
      with ((done ++ [nth 0 (rows h) []]) ++ rest)
      by (rewrite <- app_assoc; reflexivity).
    rewrite IH.
    + destruct (collect todo); cbn [bind map]; [|reflexivity].
      rewrite <- app_assoc. reflexivity.
    + rewrite !length_app. cbn [length]. lia.
    + cbn [length] in Hr. lia.
    + intros h' Hh'. apply Hsh. right. exact Hh'.
Qed.

(** A row returned by [waterheight], as a list behind its colatitude. *)
Lemma one_row_form (h : ndarray) (c : nat) (theta : R) :
  has_shape h 1 (c + 1) -> get h 0 0 = theta ->
  h = NDArray (c + 1) [theta :: tl (nth 0 (rows h) [])] /\
  length (tl (nth 0 (rows h) [])) = c.
Proof.
  destruct h as [n rs]. unfold has_shape, nrows, wf, get. cbn [rows ncols].
  intros (Hr & Hc & Hwf) Hg. subst n.
  destruct rs as [|r [|r' rs]]; try discriminate.
  inversion Hwf as [|? ? Hl _]; subst. cbn [nth] in *.
  destruct r as [|x r]; [cbn in Hl; lia|]. cbn [nth tl length] in *.
  split; [reflexivity | lia].
Qed.

(** Two sorted lists of reals with the same elements are the same list. *)
Lemma sorted_perm_unique (l1 : list R) :
  forall l2, StronglySorted Rle l1 -> StronglySorted Rle l2 ->
  Permutation l1 l2 -> l1 = l2.
Proof.
  induction l1 as [|a l1 IH]; intros l2 H1 H2 Hp.
  - apply Permutation_nil in Hp. subst. reflexivity.
  - destruct l2 as [|b l2];
      [apply Permutation_sym, Permutation_nil in Hp; discriminate|].
    apply StronglySorted_inv in H1 as (S1 & F1).
    apply StronglySorted_inv in H2 as (S2 & F2).
    rewrite Forall_forall in F1, F2.
    assert (Hab : a = b).
    { apply Rle_antisym.
      - assert (Hin : In b (a :: l1))
          by (apply (Permutation_in _ (Permutation_sym Hp)); left; reflexivity).
        destruct Hin as [->|Hin]; [apply Rle_refl | apply F1; exact Hin].
      - assert (Hin : In a (b :: l2))
          by (apply (Permutation_in _ Hp); left; reflexivity).
        destruct Hin as [->|Hin]; [apply Rle_refl | apply F2; exact Hin]. }
    subst b. f_equal. apply IH; [exact S1 | exact S2|].
    apply Permutation_cons_inv in Hp. exact Hp.
Qed.

Section EwhCalc.

Variables (rlam : list R) (dc ds : ndarray) (deg_max : nat).
Variables (lf : LegendreFunctions) (kn : list R).

Let worker (ele : R) : res ndarray :=
  waterheight rlam ele dc ds deg_max lf kn R_default.

Let row_of (h : ndarray) : list R := nth 0 (rows h) [].

Lemma worker_row (ele : R) (h : ndarray) :
  worker ele = Ok h ->
  has_shape h 1 (length rlam + 1) /\ get h 0 0 = ele.
Proof.
  intros H.
  pose proof (waterheight_outcome_aux rlam ele dc ds deg_max lf kn R_default) as O.
  fold (worker ele) in O. rewrite H in O. exact O.
Qed.

(** [ewh_calc] reads the workers in order, then sorts the rows and drops the
    column of the colatitudes. *)
Lemma ewh_calc_collect (argsort : list R -> list nat) (rlat : list R) :
  ewh_calc argsort rlam rlat dc ds deg_max lf kn =
  (hs <- collect (map worker rlat) ;;
   ewh <- take_rows (argsort rlat)
            (NDArray (length rlam + 1) (map row_of hs)) ;;
   delete_col0 ewh).
Proof.
  unfold ewh_calc. fold worker.
  assert (Hsh : forall h, In (Ok h) (map worker rlat) ->
                          has_shape h 1 (length rlam + 1)).
  { intros h Hh. apply in_map_iff in Hh as (ele & E & _).
    apply (worker_row ele h E). }
  pose proof (fill_rows (length rlam + 1) (map worker rlat) [] []
                (repeat (repeat 0 (length rlam + 1)) (length rlat)) eq_refl
                ltac:(rewrite repeat_length, length_map; reflexivity) Hsh) as E.
  cbn [app length] in E. rewrite length_map in E.
  change (Z.of_nat 0) with 0%Z in E.
  unfold zeros. rewrite E.
  destruct (collect (map worker rlat)) as [hs|e] eqn:Ec; cbn [bind];
    [|reflexivity].
  fold row_of.
  replace (column 0 (NDArray (length rlam + 1) (map row_of hs))) with rlat;
    [reflexivity|].
  destruct (collect_map_Ok worker rlat hs Ec) as (HL & HN).
  unfold column. cbn [rows]. rewrite map_map.
  apply (nth_ext _ _ 0 0).
  - rewrite length_map. symmetry. exact HL.
  - intros k Hk.
    rewrite (nth_map_gen _ hs (zeros 0 0)) by lia.
    destruct (worker_row _ _ (HN k 0 (zeros 0 0) Hk)) as (_ & G).
    symmetry. exact G.
Qed.

Lemma take_rows_argsort (idx : list nat) (rlat : list R) (hs : list ndarray) :
  is_argsort rlat idx -> length hs = length rlat ->
  take_rows idx (NDArray (length rlam + 1) (map row_of hs)) =
  Ok (NDArray (length rlam + 1)
        (map (fun i => nth i (map row_of hs) []) idx)).
Proof.
  intros (Hp & _) HL. unfold take_rows, nrows. cbn [rows ncols].
  rewrite length_map, HL.
  replace (forallb (fun i => (i <? length rlat)%nat) idx) with true;
    [reflexivity|].
  symmetry. apply forallb_forall. intros i Hi. apply Nat.ltb_lt.
  apply (Permutation_in _ Hp) in Hi. apply in_seq in Hi. lia.
Qed.

(** When every worker returns, so does [ewh_calc]; the grid has one row per
    colatitude, and its rows are the rows of the workers without their first
    entry, in ascending order of the colatitudes. *)
Lemma ewh_calc_grid_aux (argsort : list R -> list nat) (rlat : list R) :
  is_argsort rlat (argsort rlat) ->
  (forall ele, In ele rlat -> exists h, worker ele = Ok h) ->
  exists grid thetas,
    ewh_calc argsort rlam rlat dc ds deg_max lf kn = Ok grid /\
    has_shape grid (length rlat) (length rlam) /\
    Permutation thetas rlat /\
    StronglySorted Rle thetas /\
    forall i : nat, (i < length rlat)%nat ->
      worker (nth i thetas 0) =
      Ok (NDArray (length rlam + 1)
            [nth i thetas 0 :: nth i (rows grid) []]).
Proof.
  intros Hsort Hall.
  destruct (collect_map_total worker rlat Hall) as (hs & Ec).
  destruct (collect_map_Ok worker rlat hs Ec) as (HL & HN).
  rewrite ewh_calc_collect, Ec. cbn [bind].
  rewrite (take_rows_argsort _ rlat hs Hsort HL). cbn [bind].
  unfold delete_col0. cbn [ncols rows].
  replace (length rlam + 1 =? 0)%nat with false
    by (symmetry; apply Nat.eqb_neq; lia).
  set (idx := argsort rlat) in *.
  destruct Hsort as (Hp & Hs).
  assert (Hidx : forall i, (i < length rlat)%nat ->
                           (nth i idx 0%nat < length rlat)%nat).
  { intros i Hi.
    assert (Hin : In (nth i idx 0%nat) idx).
    { apply nth_In. rewrite (Permutation_length Hp), length_seq. exact Hi. }
    apply (Permutation_in _ Hp) in Hin. apply in_seq in Hin. lia. }
  assert (Hlen : length idx = length rlat)
    by (rewrite (Permutation_length Hp), length_seq; reflexivity).
  assert (Hrow : forall i, (i < length rlat)%nat ->
            worker (nth (nth i idx 0%nat) rlat 0) =
            Ok (NDArray (length rlam + 1)
                  [nth (nth i idx 0%nat) rlat 0 ::
                   tl (nth (nth i idx 0%nat) (map row_of hs) [])]) /\
            length (tl (nth (nth i idx 0%nat) (map row_of hs) [])) =
            length rlam).
  { intros i Hi. pose proof (Hidx i Hi) as Hj.
    pose proof (HN _ 0 (zeros 0 0) Hj) as Ew.
    destruct (worker_row _ _ Ew) as (Hsh & Hg).
    destruct (one_row_form _ _ _ Hsh Hg) as (Eh & El).
    rewrite (nth_map_gen row_of hs (zeros 0 0)) by lia.
    fold (row_of (nth (nth i idx 0%nat) hs (zeros 0 0))) in Eh, El.
    split; [|exact El]. rewrite Ew. f_equal. exact Eh. }
  eexists. exists (map (fun i => nth i rlat 0) idx).
  split; [reflexivity|]. split; [|split; [|split]].
  - unfold has_shape, nrows, wf. cbn [rows ncols].
    rewrite !length_map. split; [exact Hlen|]. split; [lia|].
    apply Forall_forall. intros r Hr.
    apply (In_nth _ _ []) in Hr as (i & Hi & <-).
    rewrite !length_map, Hlen in Hi.
    rewrite map_map, (nth_map_gen _ idx 0%nat) by lia.
    destruct (Hrow i Hi) as (_ & El). lia.
  - apply Permutation_trans
      with (map (fun i => nth i rlat 0) (seq 0 (length rlat)));
      [apply Permutation_map; exact Hp|].
    rewrite map_nth_seq_id. apply Permutation_refl.
  - exact Hs.
  - intros i Hi. cbn [rows].
    rewrite (nth_map_gen _ idx 0%nat) by lia.
    rewrite map_map, (nth_map_gen _ idx 0%nat) by lia.
    apply (Hrow i Hi).
Qed.

(** The rows picked by an argsort do not depend on how it orders equal
    colatitudes: equal colatitudes have equal rows. *)
Lemma take_rows_ties (idx1 idx2 : list nat) (rlat : list R) (hs : list ndarray) :
  collect (map worker rlat) = Ok hs ->
  is_argsort rlat idx1 -> is_argsort rlat idx2 ->
  map (fun i => nth i (map row_of hs) []) idx1 =
  map (fun i => nth i (map row_of hs) []) idx2.
Proof.
  intros Ec (P1 & S1) (P2 & S2).
  destruct (collect_map_Ok worker rlat hs Ec) as (HL & HN).
  set (G := fun ele => match worker ele with
                       | Ok h => row_of h
                       | Raise _ => []
                       end).
  assert (HG : forall idx, Permutation idx (seq 0 (length rlat)) ->
            map (fun i => nth i (map row_of hs) []) idx =
            map G (map (fun i => nth i rlat 0) idx)).
  { intros idx Hp. rewrite map_map. apply map_ext_in. intros i Hi.
    apply (Permutation_in _ Hp) in Hi. apply in_seq in Hi.
    rewrite (nth_map_gen row_of hs (zeros 0 0)) by lia.
    unfold G. rewrite (HN i 0 (zeros 0 0)) by lia. reflexivity. }
  rewrite (HG idx1 P1), (HG idx2 P2). f_equal.
  apply sorted_perm_unique; [exact S1 | exact S2|].
  apply Permutation_map.
  apply (Permutation_trans P1). apply Permutation_sym. exact P2.
Qed.

End EwhCalc.

(** The insertion argsort is an argsort, whichever way it places equal
    keys. *)
Lemma insert_idx_perm (t : bool) (keys : list R) (i : nat) (l : list nat) :
  Permutation (insert_idx t keys i l) (i :: l).
Proof.
  induction l as [|j l IH]; cbn [insert_idx]; [apply Permutation_refl|].
  assert (Hin : Permutation (j :: insert_idx t keys i l) (i :: j :: l)).
  { apply (Permutation_trans (perm_skip j IH)). apply perm_swap. }
  destruct (Rlt_dec (nth j keys 0) (nth i keys 0)); [exact Hin|].
  destruct (Rlt_dec (nth i keys 0) (nth j keys 0)); [apply Permutation_refl|].
  destruct t; [exact Hin | apply Permutation_refl].
Qed.

Lemma insert_idx_sorted (t : bool) (keys : list R) (i : nat) (l : list nat) :
  StronglySorted Rle (map (fun k => nth k keys 0) l) ->
  StronglySorted Rle (map (fun k => nth k keys 0) (insert_idx t keys i l)).
Proof.
  induction l as [|j l IH]; intros H; cbn [insert_idx].
  - cbn [map]. constructor; constructor.
  - cbn [map] in H. apply StronglySorted_inv in H as (Hs & Hf).
    assert (Hbehind : nth j keys 0 <= nth i keys 0 ->
              StronglySorted Rle
                (map (fun k => nth k keys 0) (j :: insert_idx t keys i l))).
    { intros Hle. cbn [map]. constructor; [apply IH; exact Hs|].
      apply (Permutation_Forall
               (Permutation_sym
                  (Permutation_map (fun k => nth k keys 0)
                     (insert_idx_perm t keys i l)))).
      cbn [map]. constructor; [exact Hle | exact Hf]. }
    assert (Hfront : nth i keys 0 <= nth j keys 0 ->
              StronglySorted Rle (map (fun k => nth k keys 0) (i :: j :: l))).
    { intros Hle. cbn [map]. constructor.
      - constructor; [exact Hs | exact Hf].
      - constructor; [exact Hle|].
        apply (Forall_impl _ (fun x Hx => Rle_trans _ _ _ Hle Hx) Hf). }
    destruct (Rlt_dec (nth j keys 0) (nth i keys 0)); [apply Hbehind; lra|].
    destruct (Rlt_dec (nth i keys 0) (nth j keys 0)); [apply Hfront; lra|].
    destruct t; [apply Hbehind; lra | apply Hfront; lra].
Qed.

Lemma argsort_ins_spec (t : bool) (keys : list R) :
  is_argsort keys (argsort_ins t keys).
Proof.
  unfold is_argsort, argsort_ins.
  assert (G : forall l acc,
            StronglySorted Rle (map (fun k => nth k keys 0) acc) ->
            Permutation
              (fold_left (fun acc i => insert_idx t keys i acc) l acc)
              (l ++ acc) /\
            StronglySorted Rle
              (map (fun k => nth k keys 0)
                 (fold_left (fun acc i => insert_idx t keys i acc) l acc))).
  { induction l as [|a l IH]; intros acc Hacc; cbn [fold_left app].
    - split; [apply Permutation_refl | exact Hacc].
    - destruct (IH (insert_idx t keys a acc)
                  (insert_idx_sorted t keys a acc Hacc)) as (Hp & Hs).
      split; [|exact Hs].
      apply (Permutation_trans Hp).
      apply (Permutation_trans
               (Permutation_app_head l (insert_idx_perm t keys a acc))).
      apply Permutation_sym, Permutation_middle. }
  destruct (G (seq 0 (length keys)) [] (SSorted_nil Rle)) as (Hp & Hs).
  rewrite app_nil_r in Hp. split; assumption.
Qed.

(** X19.  When every worker returns, [ewh_calc] returns a grid with one row
    per colatitude and one column per longitude; its rows are the heights
    the workers computed, without the leading colatitude, in ascending order
    of the colatitudes. *)
Theorem ewh_calc_grid (argsort : list R -> list nat) (rlam rlat : list R)
    (dc ds : ndarray) (deg_max : nat) (lf : LegendreFunctions) (kn : list R) :
  is_argsort rlat (argsort rlat) ->
  (forall ele, In ele rlat ->
     exists h, waterheight rlam ele dc ds deg_max lf kn R_default = Ok h) ->
  exists grid thetas,
    ewh_calc argsort rlam rlat dc ds deg_max lf kn = Ok grid /\
    has_shape grid (length rlat) (length rlam) /\
    Permutation thetas rlat /\
    StronglySorted Rle thetas /\
    forall i : nat, (i < length rlat)%nat ->
      waterheight rlam (nth i thetas 0) dc ds deg_max lf kn R_default =
      Ok (NDArray (length rlam + 1)
            [nth i thetas 0 :: nth i (rows grid) []]).
Proof.
  apply ewh_calc_grid_aux.
Qed.

Lemma ewh_calc_grid_witness :
  exists lf,
    LegendreFunctions_init 2 = Ok lf /\
    exists grid thetas,
      ewh_calc (argsort_ins true) [0; 1] [2; 1] (ones 3 3) (zeros 3 3) 2 lf
               [0; 0; -0.303] = Ok grid /\
      has_shape grid (length [2; 1]) (length [0; 1]) /\
      Permutation thetas [2; 1] /\
      StronglySorted Rle thetas /\
      forall i : nat, (i < length [2; 1])%nat ->
        waterheight [0; 1] (nth i thetas 0) (ones 3 3) (zeros 3 3) 2 lf
                    [0; 0; -0.303] R_default =
        Ok (NDArray (length [0; 1] + 1)
              [nth i thetas 0 :: nth i (rows grid) []]).
Proof.
  destruct (init_total 2) as (lf & Hlf & _); [lia|].
  exists lf. split; [exact Hlf|].
  apply (ewh_calc_grid (argsort_ins true) [0; 1] [2; 1] (ones 3 3) (zeros 3 3)
           2 lf [0; 0; -0.303]).
  - apply argsort_ins_spec.
  - intros ele _.
    apply (waterheight_shapes_ok 2 2 [0; 1] ele (ones 3 3) (zeros 3 3)
             [0; 0; -0.303] lf R_default); [lia | exact Hlf | reflexivity].
Defined.

(** X20.  [ewh_calc] raises exactly when a worker raised, and then with the
    exception of the first such worker in the order of [rlat]: filling the
    rows, sorting them and deleting the first column never fail. *)
Theorem ewh_calc_raises_iff (argsort : list R -> list nat) (rlam rlat : list R)
    (dc ds : ndarray) (deg_max : nat) (lf : LegendreFunctions) (kn : list R)
    (e : exn) :
  is_argsort rlat (argsort rlat) ->
  (ewh_calc argsort rlam rlat dc ds deg_max lf kn = Raise e <->
   exists pre ele post,
     rlat = pre ++ ele :: post /\
     (forall y, In y pre ->
        exists h, waterheight rlam y dc ds deg_max lf kn R_default = Ok h) /\
     waterheight rlam ele dc ds deg_max lf kn R_default = Raise e).
Proof.
  intros Hsort.
  apply iff_trans
    with (collect (map (fun ele => waterheight rlam ele dc ds deg_max lf kn
                                     R_default) rlat) = Raise e);
    [|apply (collect_map_raise
               (fun ele => waterheight rlam ele dc ds deg_max lf kn R_default))].
  rewrite ewh_calc_collect.
  destruct (collect (map (fun ele => waterheight rlam ele dc ds deg_max lf kn
                                       R_default) rlat))
    as [hs|e'] eqn:Ec; cbn [bind];
    [|split; intros [= ->]; reflexivity].
  destruct (collect_map_Ok _ rlat hs Ec) as (HL & _).
  rewrite (take_rows_argsort rlam _ rlat hs Hsort HL). cbn [bind].
  unfold delete_col0. cbn [ncols].
  replace (length rlam + 1 =? 0)%nat with false
    by (symmetry; apply Nat.eqb_neq; lia).
  split; discriminate.
Qed.

Lemma ewh_calc_raises_iff_witness :
  ewh_calc (argsort_ins true) [0] [1; 2] (zeros 3 3) (zeros 3 3) 2
           (MkLegendre (zeros 0 0) (zeros 0 0) 1) [0; 0; 0] =
  Raise IndexError <->
  exists pre ele post,
    [1; 2] = pre ++ ele :: post /\
    (forall y, In y pre ->
       exists h, waterheight [0] y (zeros 3 3) (zeros 3 3) 2
                   (MkLegendre (zeros 0 0) (zeros 0 0) 1) [0; 0; 0]
                   R_default = Ok h) /\
    waterheight [0] ele (zeros 3 3) (zeros 3 3) 2
      (MkLegendre (zeros 0 0) (zeros 0 0) 1) [0; 0; 0] R_default =
    Raise IndexError.
Proof.
  apply (ewh_calc_raises_iff (argsort_ins true) [0] [1; 2] (zeros 3 3)
           (zeros 3 3) 2 (MkLegendre (zeros 0 0) (zeros 0 0) 1) [0; 0; 0]
           IndexError).
  apply argsort_ins_spec.
Defined.

(** X21.  The grid does not depend on how [argsort] orders equal
    colatitudes: two argsorts give the same outcome of [ewh_calc], whatever
    the other arguments are. *)
Theorem ewh_calc_argsort_ties (argsort1 argsort2 : list R -> list nat)
    (rlam rlat : list R) (dc ds : ndarray) (deg_max : nat)
    (lf : LegendreFunctions) (kn : list R) :
  is_argsort rlat (argsort1 rlat) -> is_argsort rlat (argsort2 rlat) ->
  ewh_calc argsort1 rlam rlat dc ds deg_max lf kn =
  ewh_calc argsort2 rlam rlat dc ds deg_max lf kn.
Proof.
  intros H1 H2. rewrite !ewh_calc_collect.
  destruct (collect (map (fun ele => waterheight rlam ele dc ds deg_max lf kn
                                       R_default) rlat))
    as [hs|e'] eqn:Ec; cbn [bind]; [|reflexivity].
  destruct (collect_map_Ok _ rlat hs Ec) as (HL & _).
  rewrite (take_rows_argsort rlam _ rlat hs H1 HL),
          (take_rows_argsort rlam _ rlat hs H2 HL).
  rewrite (take_rows_ties rlam dc ds deg_max lf kn _ _ rlat hs Ec H1 H2).
  reflexivity.
Qed.

Lemma ewh_calc_argsort_ties_witness :
  ewh_calc (argsort_ins true) [0; 1] [2; 1; 2] (ones 3 3) (zeros 3 3) 2
           (MkLegendre (ones 3 3) (ones 3 3) 2) [0; 0; -0.303] =
  ewh_calc (argsort_ins false) [0; 1] [2; 1; 2] (ones 3 3) (zeros 3 3) 2
           (MkLegendre (ones 3 3) (ones 3 3) 2) [0; 0; -0.303].
Proof.
  apply (ewh_calc_argsort_ties (argsort_ins true) (argsort_ins false)
           [0; 1] [2; 1; 2] (ones 3 3) (zeros 3 3) 2
           (MkLegendre (ones 3 3) (ones 3 3) 2) [0; 0; -0.303]);
    apply argsort_ins_spec.
Defined.

(** ** The script of [example.py] *)

Lemma setitem_shape (a a' : ndarray) (i j : Z) (v : R) (r c : nat) :
  setitem a i j v = Ok a' -> has_shape a r c -> has_shape a' r c.
Proof.
  unfold setitem. intros H Hs.
  destruct (norm_index (nrows a) i); cbn [bind] in H; [|discriminate].
  destruct (norm_index (ncols a) j); cbn [bind] in H; [|discriminate].
  injection H as <-. apply has_shape_upd. exact Hs.
Qed.

Lemma coeffisort_shape (mat : list coeff_row) (maxdeg : nat)
    (cnm snm : ndarray) :
  coeffisort mat maxdeg = Ok (cnm, snm) ->
  has_shape cnm (maxdeg + 1) (maxdeg + 1) /\
  has_shape snm (maxdeg + 1) (maxdeg + 1).
Proof.
  unfold coeffisort. rewrite Nat.add_1_r.
  assert (G : forall c0 s0,
            has_shape c0 (S maxdeg) (S maxdeg) ->
            has_shape s0 (S maxdeg) (S maxdeg) ->
            coeffisort_loop mat maxdeg c0 s0 = Ok (cnm, snm) ->
            has_shape cnm (S maxdeg) (S maxdeg) /\
            has_shape snm (S maxdeg) (S maxdeg)).
  { induction mat as [|r mat IH]; intros c0 s0 Hc Hs H;
      cbn [coeffisort_loop] in H.
    - injection H as <- <-. split; assumption.
    - destruct (Rgt_dec (row0 r) (INR maxdeg)).
      + injection H as <- <-. split; assumption.
      + destruct (setitem c0 (py_int (row0 r)) (py_int (row1 r)) (row2 r))
          as [c1|e] eqn:E1; cbn [bind] in H; [|discriminate].
        destruct (setitem s0 (py_int (row0 r)) (py_int (row1 r)) (row3 r))
          as [s1|e] eqn:E2; cbn [bind] in H; [|discriminate].
        apply (IH c1 s1); [| |exact H].
        * apply (setitem_shape _ _ _ _ _ _ _ E1 Hc).
        * apply (setitem_shape _ _ _ _ _ _ _ E2 Hs). }
  apply G; apply has_shape_zeros.
Qed.

Lemma LoveNumbers_length (maxdeg : nat) :
  (1 <= maxdeg)%nat ->
  exists kn, LoveNumbers maxdeg = Ok kn /\ length kn = (maxdeg + 1)%nat.
Proof.
  intros Hd. rewrite LoveNumbers_eq. eexists. split; [reflexivity|].
  rewrite length_app, length_map, arange_length. cbn [length]. lia.
Qed.

(** With a maximum degree of at least 1 (and a non-zero Earth radius when
    the filter is on), everything between [coeffisort] and [ewh_calc]
    succeeds, and [ewh_calc] is called with full-shape matrices of filtered
    differences, [maxdegree + 1] Love numbers and the engine for
    [maxdegree]. *)
Lemma example_pipeline (argsort : list R -> list nat)
    (coeffi1 coeffi2 : list coeff_row) (deg_max : nat) (R0 fr : R)
    (rlam rlat : list R) (c1 s1 c2 s2 : ndarray) :
  (1 <= deg_max)%nat -> (0 < fr -> R0 <> 0) ->
  coeffisort coeffi1 deg_max = Ok (c1, s1) ->
  coeffisort coeffi2 deg_max = Ok (c2, s2) ->
  exists F dc ds kn lf,
    example_grid argsort coeffi1 coeffi2 deg_max R0 fr rlam rlat =
    ewh_calc argsort rlam rlat dc ds deg_max lf kn /\
    has_shape dc (deg_max + 1) (deg_max + 1) /\
    has_shape ds (deg_max + 1) (deg_max + 1) /\
    (deg_max + 1 <= length kn)%nat /\
    LegendreFunctions_init deg_max = Ok lf /\
    filter_coeff R0 fr deg_max = Ok F /\
    LoveNumbers deg_max = Ok kn /\
    forall n m : nat, (n <= deg_max)%nat -> (m <= deg_max)%nat ->
      get dc n m = (get c2 n m - get c1 n m) * get F n 0 /\
      get ds n m = (get s2 n m - get s1 n m) * get F n 0.
Proof.
  intros Hd HR H1 H2.
  destruct (coeffisort_shape _ _ _ _ H1) as (Hc1 & Hs1).
  destruct (coeffisort_shape _ _ _ _ H2) as (Hc2 & Hs2).
  assert (Hcond : 0 < fr -> R0 <> 0 /\ (1 <= deg_max)%nat) by auto.
  destruct (filtered_difference_entries R0 fr deg_max c2 c1 Hc2 Hc1 Hcond)
    as (F & dc & EF & Edc & Hdc & Edcn & _).
  destruct (filtered_difference_entries R0 fr deg_max s2 s1 Hs2 Hs1 Hcond)
    as (F' & ds & EF' & Eds & Hds & Edsn & _).
  rewrite EF in EF'. injection EF' as <-.
  destruct (LoveNumbers_length deg_max Hd) as (kn & Ekn & Lkn).
  destruct (init_total deg_max Hd) as (lf & Hlf & _).
  exists F, dc, ds, kn, lf.
  split;
    [|split; [exact Hdc|]; split; [exact Hds|]; split; [lia|];
      split; [exact Hlf|]; split; [exact EF|]; split; [exact Ekn|];
      intros n m Hn Hm; split; [apply Edcn | apply Edsn]; assumption].
  unfold example_grid. rewrite EF. cbn [bind]. rewrite H1. cbn [bind].
  rewrite H2. cbn [bind]. rewrite Edc. cbn [bind]. rewrite Eds. cbn [bind].
  rewrite Ekn. cbn [bind]. rewrite Hlf. reflexivity.
Qed.

(** X22.  The script of [example.py] fails only where [coeffisort] fails:
    with a maximum degree of at least 1 (and a non-zero Earth radius when
    the filter is on), if both coefficient lists are sorted into matrices
    the script returns a grid with one row per colatitude and one column per
    longitude; if one is not, the exception of the first failing
    [coeffisort] is the outcome. *)
Theorem example_grid_outcome (argsort : list R -> list nat)
    (coeffi1 coeffi2 : list coeff_row) (deg_max : nat) (R0 fr : R)
    (rlam rlat : list R) :
  is_argsort rlat (argsort rlat) ->
  (1 <= deg_max)%nat -> (0 < fr -> R0 <> 0) ->
  match coeffisort coeffi1 deg_max, coeffisort coeffi2 deg_max with
  | Ok _, Ok _ =>
      exists grid,
        example_grid argsort coeffi1 coeffi2 deg_max R0 fr rlam rlat = Ok grid /\
        has_shape grid (length rlat) (length rlam)
  | Ok _, Raise e =>
      example_grid argsort coeffi1 coeffi2 deg_max R0 fr rlam rlat = Raise e
  | Raise e, _ =>
      example_grid argsort coeffi1 coeffi2 deg_max R0 fr rlam rlat = Raise e
  end.
Proof.
  intros Hsort Hd HR.
  assert (Hcond : 0 < fr -> R0 <> 0 /\ (1 <= deg_max)%nat) by auto.
  destruct (filter_coeff_cases R0 fr deg_max Hcond) as (F & EF & _).
  destruct (coeffisort coeffi1 deg_max) as [[c1 s1]|e] eqn:H1;
    [|unfold example_grid; rewrite EF; cbn [bind]; rewrite H1; reflexivity].
  destruct (coeffisort coeffi2 deg_max) as [[c2 s2]|e] eqn:H2;
    [|unfold example_grid; rewrite EF; cbn [bind]; rewrite H1; cbn [bind];
      rewrite H2; reflexivity].
  destruct (example_pipeline argsort coeffi1 coeffi2 deg_max R0 fr rlam rlat
              c1 s1 c2 s2 Hd HR H1 H2)
    as (F' & dc & ds & kn & lf & E & Hdc & Hds & Hkn & Hlf & _).
  rewrite E.
  destruct (ewh_calc_grid_aux rlam dc ds deg_max lf kn argsort rlat Hsort)
    as (grid & thetas & Eg & Hg & _).
  - intros ele _.
    destruct (init_call_total deg_max lf ele Hlf) as (Pnm & HP).
    eexists.
    apply (waterheight_value deg_max rlam ele dc ds kn lf R_default Pnm);
      assumption.
  - exists grid. split; assumption.
Qed.

Lemma example_grid_outcome_witness :
  match coeffisort [Row 2 0 1 5; Row 2 1 3 4] 2,
        coeffisort [Row 2 0 2 5; Row 2 2 1 1] 2 with
  | Ok _, Ok _ =>
      exists grid,
        example_grid (argsort_ins true) [Row 2 0 1 5; Row 2 1 3 4]
          [Row 2 0 2 5; Row 2 2 1 1] 2 6378.136 300 [0; 1] [2; 1] = Ok grid /\
        has_shape grid (length [2; 1]) (length [0; 1])
  | Ok _, Raise e =>
      example_grid (argsort_ins true) [Row 2 0 1 5; Row 2 1 3 4]
        [Row 2 0 2 5; Row 2 2 1 1] 2 6378.136 300 [0; 1] [2; 1] = Raise e
  | Raise e, _ =>
      example_grid (argsort_ins true) [Row 2 0 1 5; Row 2 1 3 4]
        [Row 2 0 2 5; Row 2 2 1 1] 2 6378.136 300 [0; 1] [2; 1] = Raise e
  end.
Proof.
  apply (example_grid_outcome (argsort_ins true) [Row 2 0 1 5; Row 2 1 3 4]
           [Row 2 0 2 5; Row 2 2 1 1] 2 6378.136 300 [0; 1] [2; 1]).
  - apply argsort_ins_spec.
  - lia.
  - intros _. lra.
Defined.




(** X24.  For colatitudes given in ascending order, as in the example, the
    sort of [ewh_calc] changes nothing: row [i] of the grid holds the
    heights at the [i]-th colatitude of [rlat]. *)
Theorem ewh_calc_ascending (argsort : list R -> list nat) (rlam rlat : list R)
    (dc ds : ndarray) (deg_max : nat) (lf : LegendreFunctions) (kn : list R) :
  is_argsort rlat (argsort rlat) ->
  StronglySorted Rle rlat ->
  (forall ele, In ele rlat ->
     exists h, waterheight rlam ele dc ds deg_max lf kn R_default = Ok h) ->
  exists grid,
    ewh_calc argsort rlam rlat dc ds deg_max lf kn = Ok grid /\
    has_shape grid (length rlat) (length rlam) /\
    forall i : nat, (i < length rlat)%nat ->
      waterheight rlam (nth i rlat 0) dc ds deg_max lf kn R_default =
      Ok (NDArray (length rlam + 1) [nth i rlat 0 :: nth i (rows grid) []]).
Proof.
  intros Hsort Hasc Hall.
  destruct (ewh_calc_grid_aux rlam dc ds deg_max lf kn argsort rlat Hsort Hall)
    as (grid & thetas & Eg & Hg & Hp & Hst & Hrows).
  assert (E : thetas = rlat) by (apply sorted_perm_unique; assumption).
  subst thetas. exists grid. split; [exact Eg|]. split; [exact Hg|exact Hrows].
Qed.

Lemma ewh_calc_ascending_witness :
  exists lf,
    LegendreFunctions_init 2 = Ok lf /\
    exists grid,
      ewh_calc (argsort_ins false) [0; 1] [1; 2] (ones 3 3) (zeros 3 3) 2 lf
               [0; 0; -0.303] = Ok grid /\
      has_shape grid (length [1; 2]) (length [0; 1]) /\
      forall i : nat, (i < length [1; 2])%nat ->
        waterheight [0; 1] (nth i [1; 2] 0) (ones 3 3) (zeros 3 3) 2 lf
                    [0; 0; -0.303] R_default =
        Ok (NDArray (length [0; 1] + 1)
              [nth i [1; 2] 0 :: nth i (rows grid) []]).
Proof.
  destruct (init_total 2) as (lf & Hlf & _); [lia|].
  exists lf. split; [exact Hlf|].
  apply (ewh_calc_ascending (argsort_ins false) [0; 1] [1; 2] (ones 3 3)
           (zeros 3 3) 2 lf [0; 0; -0.303]).
  - apply argsort_ins_spec.
  - repeat constructor; lra.
  - intros ele _.
    apply (waterheight_shapes_ok 2 2 [0; 1] ele (ones 3 3) (zeros 3 3)
             [0; 0; -0.303] lf R_default); [lia | exact Hlf | reflexivity].
Defined.



(** ** The equator *)

Lemma legendre_P10 (n : nat) (lf : LegendreFunctions) (theta : R)
    (P : ndarray) :
  LegendreFunctions_init n = Ok lf ->
  LegendreFunctions_call lf theta = Ok P ->
  get P 1 0 = sqrt 3 * cos theta.
Proof.
  intros Hlf HP.
  pose proof (init_degree_positive n lf Hlf) as Hn.
  destruct (call_recursion lf theta P HP) as (H00 & _ & Hsub & _).
  rewrite (init_maxdegree n lf Hlf) in Hsub.
  pose proof (Hsub 0%nat ltac:(lia)) as E. cbn [Nat.add] in E.
  destruct (init_tables n lf Hlf 1%nat 0%nat ltac:(lia) ltac:(lia)) as (E1 & _).
  destruct low_table_values as (V10 & _).
  rewrite E, E1, V10, H00. ring.
Qed.

(** [np.pi] lies below pi, by more than [1e-16]. *)
Lemma np_pi_below_PI : np_pi < PI.
Proof.
  pose proof (PI_2_3_7_ineq 7) as [H _].
  cbv [sum_f_R0 tg_alt PI_2_3_7_tg Ratan_seq Nat.mul Nat.add pow INR] in H.
  unfold np_pi. lra.
Qed.

Lemma cos_np_pi_2_pos : 0 < cos (np_pi / 2).
Proof.
  pose proof np_pi_below_PI as H.
  apply cos_gt_0; unfold np_pi in *; lra.
Qed.

(** C3, as stated, fails: the colatitude the program receives for the
    equator is the float [np.pi/2], which lies below pi/2; its cosine is not
    zero, and at maximum degree 2 the entry [Pnm[1][0]] (with [1 - 0] odd)
    is not zero. *)
Lemma legendre_equator_counterexample :
  exists lf Pnm,
    LegendreFunctions_init 2 = Ok lf /\
    LegendreFunctions_call lf (np_pi / 2) = Ok Pnm /\
    (0 <= 1 <= 2)%nat /\ Nat.odd (1 - 0) = true /\
    get Pnm 1 0 <> 0.
Proof.
  destruct (init_total 2) as (lf & Hlf & _); [lia|].
  destruct (init_call_total 2 lf (np_pi / 2) Hlf) as (Pnm & HP).
  exists lf, Pnm. split; [exact Hlf|]. split; [exact HP|].
  split; [lia|]. split; [reflexivity|].
  rewrite (legendre_P10 2 lf (np_pi / 2) Pnm Hlf HP).
  pose proof cos_np_pi_2_pos. pose proof (sqrt_lt_R0 3 ltac:(lra)). nra.
Qed.

(** C3, amended.  For every maximum degree of at least 1 (in particular
    2..20) and every colatitude, the engine is built, its evaluation
    returns, and the entries [Pnm[n][m]] with [m <= n <= maxdegree] and
    [n - m] odd are all zero exactly when the cosine of the colatitude is
    zero. *)
Theorem legendre_odd_zero_iff (maxdeg : nat) (theta : R) :
  (1 <= maxdeg)%nat ->
  exists lf Pnm,
    LegendreFunctions_init maxdeg = Ok lf /\
    LegendreFunctions_call lf theta = Ok Pnm /\
    (cos theta = 0 <->
     forall n m : nat, (m <= n)%nat -> (n <= maxdeg)%nat ->
       Nat.odd (n - m) = true -> get Pnm n m = 0).
Proof.
  intros Hd.
  destruct (init_total maxdeg Hd) as (lf & Hlf & _).
  destruct (init_call_total maxdeg lf theta Hlf) as (Pnm & HP).
  exists lf, Pnm. split; [exact Hlf|]. split; [exact HP|]. split.
  - intros Hcos n m Hmn Hn Hodd.
    destruct (call_inv lf theta Pnm HP) as (_ & _ & _ & Ho).
    apply (Ho Hcos).
    replace (n + m)%nat with ((n - m) + 2 * m)%nat by lia.
    rewrite Nat.odd_add_mul_2. exact Hodd.
  - intros Hz.
    pose proof (Hz 1%nat 0%nat ltac:(lia) Hd eq_refl) as E.
    rewrite (legendre_P10 maxdeg lf theta Pnm Hlf HP) in E.
    pose proof (sqrt_lt_R0 3 ltac:(lra)). nra.
Qed.

Lemma legendre_odd_zero_iff_witness :
  exists lf Pnm,
    LegendreFunctions_init 2 = Ok lf /\
    LegendreFunctions_call lf (PI / 2) = Ok Pnm /\
    (cos (PI / 2) = 0 <->
     forall n m : nat, (m <= n)%nat -> (n <= 2)%nat ->
       Nat.odd (n - m) = true -> get Pnm n m = 0).
Proof.
  apply (legendre_odd_zero_iff 2 (PI / 2)). lia.
Defined.

(** ** A filter radius of zero or below *)

(** The column [GaussFilterCoeff] returns, with the seed as the code computes
    it ([inf] included). *)
Lemma GaussFilterCoeff_values (R0 fr : R) (maxdeg : nat) :
  R0 <> 0 -> (1 <= maxdeg)%nat ->
  exists W,
    GaussFilterCoeff R0 fr maxdeg = Ok W /\
    has_shape W (maxdeg + 1) 1 /\
    get W 0 0 = 1 /\
    get W 1 0 = (1 + exp_times (-1) (seed_of (1 - cos (fr / R0)))) /
                (1 - exp_times (-2) (seed_of (1 - cos (fr / R0)))) -
                over 1 (seed_of (1 - cos (fr / R0))) /\
    forall n : nat, (2 <= n <= maxdeg)%nat ->
      get W n 0 = - (over (2 * INR n - 1) (seed_of (1 - cos (fr / R0)))) *
                  get W (n - 1) 0 + get W (n - 2) 0.
Proof.
  intros HR Hd.
  unfold GaussFilterCoeff. rewrite pydiv_nonzero by exact HR. cbn [bind].
  set (b := seed_of (1 - cos (fr / R0))).
  destruct (has_shape_zeros (maxdeg + 1) 1) as (Hr & Hc & Hwf).
  rewrite setitem_nonneg by lia. cbn [bind].
  destruct (has_shape_upd (zeros (maxdeg + 1) 1) (maxdeg + 1) 1
              (Z.to_nat 0) (Z.to_nat 0) 1 (has_shape_zeros _ _))
    as (Hr1 & Hc1 & Hwf1).
  rewrite setitem_nonneg by (rewrite ?Hr1, ?Hc1; lia). cbn [bind].
  match goal with
  | |- context [foldM _ _ ?W0] => set (V0 := W0)
  end.
  assert (HS0 : has_shape V0 (maxdeg + 1) 1).
  { unfold V0. apply has_shape_upd, has_shape_upd, has_shape_zeros. }
  destruct (gauss_loop_total (fun x => over x b) maxdeg V0 HS0)
    as (W & HW & HSW).
  exists W. split; [exact HW|]. split; [exact HSW|].
  destruct (gauss_loop_recursion (fun x => over x b) maxdeg V0 W HS0 HW Hd)
    as (E0 & E1 & HRec).
  rewrite E0, E1. unfold V0.
  rewrite !get_upd by (try exact Hwf1; try exact Hwf; rewrite ?Hr1, ?Hc1, ?Hr, ?Hc;
                       cbn; lia).
  rewrite get_zeros. cbn [Z.to_nat Nat.eqb andb].
  split; [reflexivity|]. split; [reflexivity|]. exact HRec.
Qed.

(** With the seed [inf] every weight is 1. *)
Lemma GaussFilterCoeff_zero_radius (R0 : R) (maxdeg : nat) :
  R0 <> 0 -> (1 <= maxdeg)%nat ->
  GaussFilterCoeff R0 0 maxdeg = Ok (ones (maxdeg + 1) 1).
Proof.
  intros HR Hd.
  destruct (GaussFilterCoeff_values R0 0 maxdeg HR Hd)
    as (W & E & HS & W0 & W1 & HRec).
  assert (Eb : seed_of (1 - cos (0 / R0)) = Binf).
  { replace (0 / R0) with 0 by (field; exact HR). rewrite cos_0.
    unfold seed_of. destruct (Req_dec_T (1 - 1) 0) as [_|C]; [reflexivity|].
    exfalso. apply C. ring. }
  rewrite Eb in W1, HRec. cbn [exp_times over] in W1, HRec.
  rewrite E. f_equal.
  apply (ndarray_ext W (ones (maxdeg + 1) 1) (maxdeg + 1) 1 HS
           (has_shape_ones _ _)).
  intros i j Hi Hj. replace j with 0%nat by lia.
  rewrite get_ones by lia. clear j Hj.
  induction i as [i IH] using lt_wf_ind.
  destruct i as [|[|i]].
  - exact W0.
  - rewrite W1. field.
  - rewrite HRec by lia.
    replace (S (S i) - 1)%nat with (S i) by lia.
    replace (S (S i) - 2)%nat with i by lia.
    rewrite (IH i) by lia. ring.
Qed.

(** Every finite seed gives a weight below 1 at degree 1. *)
Lemma gauss_seed_below_one (b : R) :
  0 < b -> (1 + exp (-1 * b)) / (1 - exp (-2 * b)) - 1 / b < 1.
Proof.
  intros Hb.
  set (e := exp (- b)).
  assert (He : 0 < e) by apply exp_pos.
  assert (Hinv : exp b * e = 1).
  { unfold e. rewrite <- exp_plus. replace (b + - b) with 0 by ring.
    apply exp_0. }
  assert (Hexp : 1 + b < exp b) by (apply exp_ineq1; lra).
  assert (Hbe : (1 + b) * e < 1) by nra.
  assert (He1 : e < 1) by nra.
  replace (exp (-1 * b)) with e by (unfold e; f_equal; ring).
  replace (exp (-2 * b)) with (e * e)
    by (unfold e; rewrite <- exp_plus; f_equal; ring).
  replace ((1 + e) / (1 - e * e) - 1 / b)
    with (1 + ((1 + b) * e - 1) * / (b * (1 - e))) by (field; nra).
  assert (Hpos : 0 < / (b * (1 - e))) by (apply Rinv_0_lt_compat; nra).
  nra.
Qed.

(** C2, as stated, fails for the generator: with an Earth radius of 0 the
    quotient [fr/R] raises [ZeroDivisionError]; with a maximum degree of 0
    the seed assignment raises [IndexError]; and a negative filter radius
    is filtered like its absolute value, with a weight below 1 at
    degree 1. *)
Lemma gauss_filter_no_bypass_counterexample :
  GaussFilterCoeff 0 0 2 = Raise ZeroDivisionError /\
  GaussFilterCoeff 1 0 0 = Raise IndexError /\
  - PI <= 0 /\
  exists W, GaussFilterCoeff 1 (- PI) 2 = Ok W /\ get W 1 0 <> 1.
Proof.
  split; [|split; [|split]].
  - destruct (GaussFilterCoeff_cases 0 0 2)
      as [(_ & E) | [(C & _) | (C & _)]]; [exact E | |]; exfalso; apply C;
      reflexivity.
  - destruct (GaussFilterCoeff_cases 1 0 0)
      as [(C & _) | [(_ & _ & E) | (_ & C & _)]]; [lra | exact E | lia].
  - pose proof PI_RGT_0. lra.
  - destruct (GaussFilterCoeff_values 1 (- PI) 2 ltac:(lra) ltac:(lia))
      as (W & E & _ & _ & W1 & _).
    exists W. split; [exact E|].
    replace (- PI / 1) with (- PI) in W1 by field.
    rewrite cos_neg, cos_PI in W1.
    rewrite seed_of_nonzero in W1 by lra. cbn [exp_times over] in W1.
    rewrite W1.
    assert (Hb : 0 < ln 2 / (1 - -1)).
    { apply Rdiv_lt_0_compat; [apply ln_2_pos | lra]. }
    pose proof (gauss_seed_below_one _ Hb). lra.
Qed.

(** C2, amended.  For every non-zero Earth radius and every maximum degree
    of at least 1, [GaussFilterCoeff] called with a filter radius of 0
    returns a column of [maxdegree + 1] weights that are all 1: the divisor
    of the seed is 0, the seed is [inf], and the seed term and the recursion
    are evaluated with [exp(-inf) = 0] and [x/inf = 0].  For every filter
    radius of 0 or below, every Earth radius and every maximum degree, the
    same column of ones is what the filter set-up of the example yields,
    which does not call [GaussFilterCoeff] then. *)
Theorem gauss_filter_zero_radius (R0 : R) (maxdeg : nat) :
  R0 <> 0 -> (1 <= maxdeg)%nat ->
  GaussFilterCoeff R0 0 maxdeg = Ok (ones (maxdeg + 1) 1) /\
  has_shape (ones (maxdeg + 1) 1) (maxdeg + 1) 1 /\
  (forall n : nat, (n <= maxdeg)%nat -> get (ones (maxdeg + 1) 1) n 0 = 1) /\
  forall (R' fr : R) (d : nat), fr <= 0 ->
    filter_coeff R' fr d = Ok (ones (d + 1) 1).
Proof.
  intros HR Hd.
  split; [apply GaussFilterCoeff_zero_radius; assumption|].
  split; [apply has_shape_ones|].
  split; [intros n Hn; apply get_ones; lia|].
  intros R' fr d Hfr. unfold filter_coeff.
  destruct (Rgt_dec fr 0) as [C|_]; [lra | reflexivity].
Qed.

Lemma gauss_filter_zero_radius_witness :
  GaussFilterCoeff 6378.136 0 90 = Ok (ones (90 + 1) 1) /\
  has_shape (ones (90 + 1) 1) (90 + 1) 1 /\
  (forall n : nat, (n <= 90)%nat -> get (ones (90 + 1) 1) n 0 = 1) /\
  forall (R' fr : R) (d : nat), fr <= 0 ->
    filter_coeff R' fr d = Ok (ones (d + 1) 1).
Proof.
  apply (gauss_filter_zero_radius 6378.136 90); [lra | lia].
Defined.

(** ** Coefficients above the diagonal *)

Lemma overflow_bound_big : IZR (2 ^ 1023) < overflow_bound.
Proof. unfold overflow_bound. apply IZR_lt. vm_compute. reflexivity. Qed.

Lemma two_pow_1022 : 2 * IZR (2 ^ 1022) = IZR (2 ^ 1023).
Proof. rewrite <- mult_IZR. f_equal. Qed.

Lemma pow_1022_pos : 0 < IZR (2 ^ 1022).
Proof. apply IZR_lt. vm_compute. reflexivity. Qed.

Lemma of_real_fin (r : R) : Rabs r <= IZR (2 ^ 1023) -> of_real r = Fin r.
Proof.
  intros H. unfold of_real.
  destruct (Rlt_dec (Rabs r) overflow_bound) as [_|C]; [reflexivity|].
  exfalso. pose proof overflow_bound_big. lra.
Qed.

Lemma of_real_0 : of_real 0 = Fin 0.
Proof.
  apply of_real_fin. rewrite Rabs_R0.
  pose proof two_pow_1022. pose proof pow_1022_pos. lra.
Qed.

Lemma xmul_zero_l (t : R) : xmul (Fin 0) (Fin t) = Fin 0.
Proof. cbn [xmul]. rewrite Rmult_0_l. apply of_real_0. Qed.

Lemma xmul_zero_r (t : R) : xmul (Fin t) (Fin 0) = Fin 0.
Proof. cbn [xmul]. rewrite Rmult_0_r. apply of_real_0. Qed.

Lemma xadd_zero : xadd (Fin 0) (Fin 0) = Fin 0.
Proof. cbn [xadd]. rewrite Rplus_0_l. apply of_real_0. Qed.

Lemma xmul_nan_r (x : xfloat) : xmul x NaN = NaN.
Proof. destruct x; reflexivity. Qed.

Lemma xadd_nan_r (x : xfloat) : xadd x NaN = NaN.
Proof. destruct x; reflexivity. Qed.

(** Two bounded finite coefficients, each times a factor of magnitude at
    most 1, add up to a finite value. *)
Lemma bounded_cell (a b : xfloat) (x y : R) :
  bounded_fin a -> bounded_fin b -> Rabs x <= 1 -> Rabs y <= 1 ->
  exists t, xadd (xmul a (Fin x)) (xmul b (Fin y)) = Fin t.
Proof.
  intros (c & -> & Hc) (d & -> & Hd) Hx Hy.
  pose proof two_pow_1022 as E. pose proof pow_1022_pos as P.
  assert (Hcx : Rabs (c * x) <= IZR (2 ^ 1022)).
  { rewrite Rabs_mult. pose proof (Rabs_pos c). pose proof (Rabs_pos x). nra. }
  assert (Hdy : Rabs (d * y) <= IZR (2 ^ 1022)).
  { rewrite Rabs_mult. pose proof (Rabs_pos d). pose proof (Rabs_pos y). nra. }
  cbn [xmul]. rewrite !of_real_fin by lra. cbn [xadd].
  rewrite of_real_fin.
  - eexists. reflexivity.
  - pose proof (Rabs_triang (c * x) (d * y)). lra.
Qed.

Lemma xhas_shape_xtab (r c : nat) (f : nat -> nat -> xfloat) :
  xhas_shape (xtab r c f) r c.
Proof.
  unfold xhas_shape, xnrows, xtab; cbn [xrows xncols].
  split; [rewrite length_map, length_seq; reflexivity|].
  split; [reflexivity|].
  apply Forall_forall; intros x Hx. apply in_map_iff in Hx as (i & <- & _).
  rewrite length_map, length_seq; reflexivity.
Qed.

Lemma xget_xtab (r c : nat) (f : nat -> nat -> xfloat) (i j : nat) :
  (i < r)%nat -> (j < c)%nat -> xget (xtab r c f) i j = f i j.
Proof.
  intros Hi Hj; unfold xget, xtab; cbn [xrows].
  rewrite nth_map_seq by exact Hi. apply nth_map_seq, Hj.
Qed.

Lemma xtab_ext (r c : nat) (f g : nat -> nat -> xfloat) :
  (forall i j, (i < r)%nat -> (j < c)%nat -> f i j = g i j) ->
  xtab r c f = xtab r c g.
Proof.
  intros H; unfold xtab; f_equal.
  apply map_ext_in; intros i Hi. apply map_ext_in; intros j Hj.
  apply in_seq in Hi, Hj. apply H; lia.
Qed.

Lemma inject_tab (r c : nat) (f : nat -> nat -> R) :
  inject (tab r c f) = xtab r c (fun i j => Fin (f i j)).
Proof.
  unfold inject, tab, xtab; cbn [rows ncols]. f_equal.
  rewrite map_map. apply map_ext; intros i. apply map_map.
Qed.

Lemma xget_inject (a : ndarray) (i j : nat) :
  xget (inject a) i j = Fin (get a i j).
Proof.
  unfold xget, inject, get; cbn [xrows].
  change (@nil xfloat) with (map Fin []).
  rewrite (map_nth (map Fin)), (map_nth Fin). reflexivity.
Qed.

Lemma xhas_shape_inject (a : ndarray) (r c : nat) :
  has_shape a r c -> xhas_shape (inject a) r c.
Proof.
  intros (Hr & Hc & Hwf).
  unfold xhas_shape, xnrows, inject, nrows, wf in *; cbn [xrows xncols].
  split; [rewrite length_map; exact Hr|]. split; [exact Hc|].
  apply Forall_forall; intros x Hx. apply in_map_iff in Hx as (y & <- & Hy).
  rewrite length_map. rewrite Forall_forall in Hwf. apply Hwf, Hy.
Qed.

Lemma xbget_in_shape (a : xarray) (i j : nat) :
  (i < xnrows a)%nat -> (j < xncols a)%nat -> xbget a i j = xget a i j.
Proof.
  intros Hi Hj; unfold xbget.
  destruct (xnrows a =? 1)%nat eqn:E1, (xncols a =? 1)%nat eqn:E2;
    try apply Nat.eqb_eq in E1; try apply Nat.eqb_eq in E2;
    repeat match goal with
           | H : (?k < ?n)%nat, E : ?n = 1%nat |- _ =>
               assert (k = 0%nat) by lia; subst k; clear H
           end; reflexivity.
Qed.

Lemma xbroadcast2_same_shape (g : xfloat -> xfloat -> xfloat) (a b : xarray)
    (r c : nat) :
  xhas_shape a r c -> xhas_shape b r c ->
  xbroadcast2 g a b = Ok (xtab r c (fun i j => g (xget a i j) (xget b i j))).
Proof.
  intros (Hra & Hca & _) (Hrb & Hcb & _). unfold xbroadcast2.
  rewrite Hra, Hrb, Hca, Hcb, !bdim_same. cbn [bind]. f_equal.
  apply xtab_ext; intros i j Hi Hj.
  rewrite !xbget_in_shape by lia. reflexivity.
Qed.

Lemma xbroadcast2_l (g : xfloat -> xfloat -> xfloat) (a : xarray) (r c : nat)
    (f : nat -> nat -> xfloat) :
  xhas_shape a r c ->
  xbroadcast2 g a (xtab r c f) =
  Ok (xtab r c (fun i j => g (xget a i j) (f i j))).
Proof.
  intros Ha.
  rewrite (xbroadcast2_same_shape g _ _ r c Ha (xhas_shape_xtab r c f)).
  f_equal. apply xtab_ext; intros i j Hi Hj. rewrite xget_xtab by assumption.
  reflexivity.
Qed.

Lemma xbroadcast2_xtab (g : xfloat -> xfloat -> xfloat) (r c : nat)
    (f1 f2 : nat -> nat -> xfloat) :
  xbroadcast2 g (xtab r c f1) (xtab r c f2) =
  Ok (xtab r c (fun i j => g (f1 i j) (f2 i j))).
Proof.
  rewrite (xbroadcast2_l g _ r c f2 (xhas_shape_xtab r c f1)).
  f_equal. apply xtab_ext; intros i j Hi Hj. rewrite xget_xtab by assumption.
  reflexivity.
Qed.

Lemma xrows_from_xtab (k r c : nat) (f : nat -> nat -> xfloat) :
  xrows_from k (xtab r c f) = xtab (r - k) c (fun i j => f (i + k)%nat j).
Proof.
  unfold xrows_from, xtab; cbn [xrows xncols]; f_equal. apply skipn_map_seq.
Qed.

Lemma xlsum_nan (l : list xfloat) : In NaN l -> xlsum l = NaN.
Proof.
  induction l as [|x l IH]; intros H; [destruct H|].
  cbn [xlsum fold_right]. destruct H as [->|H]; [reflexivity|].
  fold (xlsum l). rewrite (IH H). apply xadd_nan_r.
Qed.

Lemma xlsum_zero (l : list xfloat) :
  (forall x, In x l -> x = Fin 0) -> xlsum l = Fin 0.
Proof.
  induction l as [|x l IH]; intros H; [reflexivity|].
  cbn [xlsum fold_right]. fold (xlsum l).
  rewrite IH by (intros y Hy; apply H; right; exact Hy).
  rewrite (H x (or_introl eq_refl)). apply xadd_zero.
Qed.

Lemma xsum_xtab_nan (r c : nat) (f : nat -> nat -> xfloat) (i j : nat) :
  (i < r)%nat -> (j < c)%nat -> f i j = NaN -> xsum (xtab r c f) = NaN.
Proof.
  intros Hi Hj E. unfold xsum, xtab; cbn [xrows].
  apply xlsum_nan. apply in_map_iff.
  exists (map (f i) (seq 0 c)). split.
  - apply xlsum_nan. rewrite <- E. apply in_map, in_seq. lia.
  - apply in_map_iff. exists i. split; [reflexivity|]. apply in_seq. lia.
Qed.

Lemma xsum_xtab_zero (r c : nat) (f : nat -> nat -> xfloat) :
  (forall i j, (i < r)%nat -> (j < c)%nat -> f i j = Fin 0) ->
  xsum (xtab r c f) = Fin 0.
Proof.
  intros H. unfold xsum, xtab; cbn [xrows].
  apply xlsum_zero. intros x Hx.
  apply in_map_iff in Hx as (row & <- & Hrow).
  apply in_map_iff in Hrow as (i & <- & Hi). apply in_seq in Hi.
  apply xlsum_zero. intros y Hy.
  apply in_map_iff in Hy as (j & <- & Hj). apply in_seq in Hj.
  apply H; lia.
Qed.

(** An iteration of [waterheight_x] is [mt3], then the rest. *)
Lemma waterheight_x_unfold (lambdao : list R) (thetao : R) (cnm snm : xarray)
    (deg_max : nat) (lf : LegendreFunctions) (kn : list R) (R0 : R) :
  waterheight_x lambdao thetao cnm snm deg_max lf kn R0 =
  (ewh <- xsetitem (xzeros 1 (length lambdao + 1)) 0 0 (Fin thetao) ;;
   Pnm <- LegendreFunctions_call lf thetao ;;
   st <- foldM (fun long st =>
                  mt3 <- xmt3 cnm snm Pnm deg_max long ;;
                  xewh_tail mt3 deg_max kn R0 st)
               lambdao (ewh, 1%Z) ;;
   Ok (fst st)).
Proof.
  unfold waterheight_x.
  destruct (xsetitem _ 0 0 (Fin thetao)) as [ewh|]; cbn [bind]; [|reflexivity].
  destruct (LegendreFunctions_call lf thetao) as [Pnm|]; cbn [bind];
    [|reflexivity].
  rewrite (foldM_ext _ (fun long st =>
                          mt3 <- xmt3 cnm snm Pnm deg_max long ;;
                          xewh_tail mt3 deg_max kn R0 st)).
  - destruct (foldM _ lambdao (ewh, 1%Z)) as [[e i]|]; reflexivity.
  - intros long [e i]. unfold xmt3, xewh_tail.
    repeat match goal with
           | |- context [bind (xbroadcast2 ?g ?a ?b)] =>
               destruct (xbroadcast2 g a b); cbn [bind]; [|reflexivity]
           end.
    reflexivity.
Qed.

(** [mt3] for coefficient matrices of the full shape. *)
Lemma xmt3_cells (cnm snm : xarray) (Pnm : ndarray) (d : nat) (long : R) :
  xhas_shape cnm (d + 1) (d + 1) -> xhas_shape snm (d + 1) (d + 1) ->
  xmt3 cnm snm Pnm d long =
  xbroadcast2 xmul (inject Pnm)
    (xtab (d + 1) (d + 1) (fun i j =>
       xadd (xmul (xget cnm i j) (Fin (cos (long * INR j))))
            (xmul (xget snm i j) (Fin (sin (long * INR j)))))).
Proof.
  intros Hc Hs. unfold xmt3.
  rewrite ord_mat_tab, !amap_tab, !inject_tab. cbv beta.
  rewrite (xbroadcast2_l xmul cnm _ _ _ Hc). cbn [bind].
  rewrite (xbroadcast2_l xmul snm _ _ _ Hs). cbn [bind].
  rewrite xbroadcast2_xtab. cbn [bind]. reflexivity.
Qed.

(** The product with a lower-triangular [Pnm] does not see finite values
    above the diagonal. *)
Lemma xmt3_upper (Pnm : ndarray) (p d : nat) (g g' : nat -> nat -> xfloat) :
  has_shape Pnm p p -> (2 <= p)%nat -> lower_triangular Pnm ->
  (forall i j, (j <= i)%nat -> (i < d)%nat -> g i j = g' i j) ->
  (forall i j, (i < j)%nat -> (j < d)%nat ->
     exists t t', g i j = Fin t /\ g' i j = Fin t') ->
  xbroadcast2 xmul (inject Pnm) (xtab d d g) =
  xbroadcast2 xmul (inject Pnm) (xtab d d g').
Proof.
  intros HP Hp Hl Hlow Hup.
  destruct (Nat.eq_dec d 1) as [->|Hd1].
  { f_equal. apply xtab_ext. intros i j Hi Hj. apply Hlow; lia. }
  destruct (xhas_shape_inject Pnm p p HP) as (Pr & Pc & _).
  destruct (xhas_shape_xtab d d g) as (Gr & Gc & _).
  destruct (xhas_shape_xtab d d g') as (Gr' & Gc' & _).
  unfold xbroadcast2. rewrite Pr, Pc, Gr, Gc, Gr', Gc'.
  destruct (Nat.eq_dec p d) as [->|Hpd].
  - rewrite bdim_same. cbn [bind]. f_equal. apply xtab_ext. intros i j Hi Hj.
    rewrite !xbget_in_shape by (rewrite ?Pr, ?Pc, ?Gr, ?Gc, ?Gr', ?Gc'; lia).
    rewrite !xget_xtab by lia. rewrite xget_inject.
    destruct (Nat.le_gt_cases j i) as [Hji|Hij].
    + rewrite (Hlow i j Hji Hi). reflexivity.
    + destruct (Hup i j Hij Hj) as (t & t' & -> & ->).
      rewrite (Hl i j Hij), !xmul_zero_l. reflexivity.
  - destruct (Nat.eq_dec d 0) as [->|Hd0].
    + f_equal.
    + unfold bdim.
      replace (p =? d)%nat with false by (symmetry; apply Nat.eqb_neq; lia).
      replace (p =? 1)%nat with false by (symmetry; apply Nat.eqb_neq; lia).
      replace (d =? 1)%nat with false by (symmetry; apply Nat.eqb_neq; lia).
      reflexivity.
Qed.

Lemma xsetitem_nonneg (a : xarray) (i j : Z) (v : xfloat) :
  (0 <= i < Z.of_nat (xnrows a))%Z -> (0 <= j < Z.of_nat (xncols a))%Z ->
  xsetitem a i j v = Ok (xupd a (Z.to_nat i) (Z.to_nat j) v).
Proof.
  intros Hi Hj. unfold xsetitem.
  rewrite !norm_index_nonneg by assumption. reflexivity.
Qed.

Lemma xbroadcast2_inject_l (f : xfloat -> xfloat -> xfloat) (P : ndarray)
    (r c : nat) (g : nat -> nat -> xfloat) :
  has_shape P r c ->
  xbroadcast2 f (inject P) (xtab r c g) =
  Ok (xtab r c (fun i j => f (Fin (get P i j)) (g i j))).
Proof.
  intros HP.
  rewrite (xbroadcast2_l f _ r c g (xhas_shape_inject P r c HP)).
  f_equal. apply xtab_ext; intros i j _ _. rewrite xget_inject. reflexivity.
Qed.

(** The rest of an iteration, for a full-shape [mt3] and enough Love
    numbers. *)
Lemma xewh_tail_cells (m3 : nat -> nat -> xfloat) (d : nat) (kn : list R)
    (R0 : R) (ewh : xarray) (il : Z) :
  (d + 1 <= length kn)%nat ->
  xewh_tail (xtab (d + 1) (d + 1) m3) d kn R0 (ewh, il) =
  (ewh' <- xsetitem ewh 0 il
             (xmul (xdiv (xmul (Fin R0) (Fin 5540)) (xmul (Fin 3) (Fin 1000)))
                (xsum (xtab (d + 1 - 2) (d + 1) (fun i j =>
                   xmul (xdiv (Fin (2 * INR (i + 2) + 1))
                              (Fin (1 + nth (i + 2) kn 0)))
                        (m3 (i + 2)%nat j))))) ;;
   Ok (ewh', (il + 1)%Z)).
Proof.
  intros Hkn. unfold xewh_tail.
  rewrite ord_mat_tab, transpose_tab, kn_mat_tab, !amap_tab, !inject_tab.
  rewrite Nat.min_l by exact Hkn. cbv beta.
  rewrite xbroadcast2_xtab. cbn [bind].
  rewrite !xrows_from_xtab, xbroadcast2_xtab. cbn [bind]. reflexivity.
Qed.

(** [waterheight_x] for one longitude, in the standard set-up. *)
Lemma waterheight_x_one (long theta : R) (cnm snm : xarray) (d : nat)
    (lf : LegendreFunctions) (kn : list R) (R0 : R) (Pnm : ndarray) :
  xhas_shape cnm (d + 1) (d + 1) -> xhas_shape snm (d + 1) (d + 1) ->
  (d + 1 <= length kn)%nat ->
  LegendreFunctions_call lf theta = Ok Pnm ->
  has_shape Pnm (d + 1) (d + 1) ->
  exists r,
    waterheight_x [long] theta cnm snm d lf kn R0 = Ok r /\
    xget r 0 1 =
    xmul (xdiv (xmul (Fin R0) (Fin 5540)) (xmul (Fin 3) (Fin 1000)))
      (xsum (xtab (d + 1 - 2) (d + 1) (fun i j =>
         xmul (xdiv (Fin (2 * INR (i + 2) + 1)) (Fin (1 + nth (i + 2) kn 0)))
              (xmul (Fin (get Pnm (i + 2) j))
                 (xadd (xmul (xget cnm (i + 2) j) (Fin (cos (long * INR j))))
                       (xmul (xget snm (i + 2) j)
                             (Fin (sin (long * INR j))))))))).
Proof.
  intros Hc Hs Hkn HP HPs.
  rewrite waterheight_x_unfold.
  rewrite xsetitem_nonneg by (cbn; lia). cbn [bind]. rewrite HP. cbn [bind foldM].
  rewrite xmt3_cells by assumption.
  rewrite (xbroadcast2_inject_l xmul Pnm _ _ _ HPs). cbn [bind].
  rewrite xewh_tail_cells by exact Hkn.
  rewrite xsetitem_nonneg by (cbn; lia). cbn [bind fst].
  eexists. split; [reflexivity|]. reflexivity.
Qed.

Lemma million_below_bound : 1000000 <= IZR (2 ^ 1023).
Proof. apply IZR_le. vm_compute. discriminate. Qed.

Lemma of_real_small (r : R) : Rabs r <= 1000000 -> of_real r = Fin r.
Proof.
  intros H. apply of_real_fin. pose proof million_below_bound. lra.
Qed.

Lemma of_real_below (r : R) : Rabs r < overflow_bound -> of_real r = Fin r.
Proof.
  intros H. unfold of_real.
  destruct (Rlt_dec (Rabs r) overflow_bound) as [_|C];
    [reflexivity | contradiction].
Qed.

Lemma of_real_overflow (r : R) : overflow_bound <= r -> of_real r = Inf false.
Proof.
  intros H. pose proof overflow_bound_big. pose proof pow_1022_pos.
  pose proof two_pow_1022. unfold of_real.
  destruct (Rlt_dec (Rabs r) overflow_bound) as [C|_].
  - rewrite Rabs_pos_eq in C by lra. lra.
  - unfold is_neg. destruct (Rlt_dec r 0) as [C|_]; [lra | reflexivity].
Qed.

(** The height at one longitude for the matrices [upper_entry c] and
    [upper_entry s]: it is NaN as soon as the entry above the diagonal
    makes the bracketed term infinite. *)
Lemma upper_entry_height (long : R) (c s : xfloat) (lf : LegendreFunctions) :
  LegendreFunctions_init 3 = Ok lf ->
  exists r,
    waterheight_x [long] 1 (upper_entry c) (upper_entry s) 3 lf
                  [0; 0; 0; 0] 1 = Ok r /\
    (xadd (xmul c (Fin (cos (long * INR 3))))
          (xmul s (Fin (sin (long * INR 3)))) = Inf false ->
     xget r 0 1 = NaN) /\
    (c = Fin 0 -> s = Fin 0 -> xget r 0 1 = Fin 0).
Proof.
  intros Hlf.
  destruct (init_call_shape 3 lf 1 Hlf) as (Pnm & HP & HPs & Hl).
  destruct (waterheight_x_one long 1 (upper_entry c) (upper_entry s) 3 lf
              [0; 0; 0; 0] 1 Pnm)
    as (r & Er & Vr);
    [apply xhas_shape_xtab | apply xhas_shape_xtab | cbn; lia | exact HP
    | exact HPs |].
  exists r. split; [exact Er|]. split.
  - intros Hinf. rewrite Vr.
    rewrite (xsum_xtab_nan _ _ _ 0%nat 3%nat); [apply xmul_nan_r | lia | lia|].
    cbn [Nat.add]. unfold upper_entry. rewrite !xget_xtab by lia.
    cbn [Nat.eqb andb]. rewrite Hinf.
    rewrite (Hl 2%nat 3%nat) by lia.
    assert (E0 : xmul (Fin 0) (Inf false) = NaN).
    { cbn [xmul]. destruct (Req_dec_T 0 0) as [_|C]; [reflexivity|].
      exfalso. apply C. reflexivity. }
    rewrite E0. apply xmul_nan_r.
  - intros -> ->. rewrite Vr.
    assert (HK : xdiv (xmul (Fin 1) (Fin 5540)) (xmul (Fin 3) (Fin 1000)) =
                 Fin (1 * 5540 / (3 * 1000))).
    { cbn [xmul].
      rewrite !of_real_small by (rewrite Rabs_pos_eq by lra; lra).
      cbn [xdiv]. destruct (Req_dec_T (3 * 1000) 0) as [C|_]; [lra|].
      apply of_real_small. rewrite Rabs_pos_eq; lra. }
    rewrite HK.
    rewrite xsum_xtab_zero; [apply xmul_zero_r|].
    intros i j Hi Hj. unfold upper_entry. rewrite !xget_xtab by lia.
    assert (Ez : (if ((i + 2 =? 2)%nat && (j =? 3)%nat)%bool
                  then Fin 0 else Fin 0) = Fin 0)
      by (destruct ((i + 2 =? 2)%nat && (j =? 3)%nat)%bool; reflexivity).
    rewrite Ez, !xmul_zero_l, xadd_zero, xmul_zero_r.
    assert (Hm : exists v, xdiv (Fin (2 * INR (i + 2) + 1))
                             (Fin (1 + nth (i + 2) [0; 0; 0; 0] 0)) = Fin v).
    { destruct i as [|[|i]]; [| |cbn in Hi; lia];
        cbn [Nat.add nth INR xdiv];
        (destruct (Req_dec_T (1 + 0) 0) as [C|_]; [lra|]);
        rewrite of_real_small by (rewrite Rabs_pos_eq by lra; lra);
        eexists; reflexivity. }
    destruct Hm as (v & ->). apply xmul_zero_r.
Qed.

Lemma inv_sqrt2_bounds : 7 / 10 <= 1 / sqrt 2 <= 71 / 100.
Proof.
  pose proof (sqrt_lt_R0 2 ltac:(lra)) as Hp.
  pose proof (sqrt_sqrt 2 ltac:(lra)) as Hs.
  assert (H1 : 14 / 10 <= sqrt 2) by nra.
  assert (H2 : sqrt 2 <= 142 / 100) by nra.
  replace (1 / sqrt 2) with (sqrt 2 / 2) by (field_simplify_eq; lra).
  lra.
Qed.

(** C10, as stated, fails.  At maximum degree 3, take the zero matrices and
    change the entry [(2, 3)], above the diagonal.  An infinity there turns
    the height into NaN: the zero of the Legendre matrix times the infinity
    is NaN, and the sum keeps it.  So does the finite value [1.7e308] in
    both matrices at the longitude pi/12, where the sum of the two products
    with [cos (3 pi/12)] and [sin (3 pi/12)] overflows.  The zero matrices
    give the height 0. *)
Lemma waterheight_upper_triangle_counterexample :
  exists lf r0 r1 r2,
    LegendreFunctions_init 3 = Ok lf /\
    (forall (v : xfloat) (n m : nat), (m <= n)%nat -> (n <= 3)%nat ->
       xget (upper_entry v) n m = xget (upper_entry (Fin 0)) n m) /\
    IZR (17 * 10 ^ 307) < overflow_bound /\
    waterheight_x [0] 1 (upper_entry (Fin 0)) (upper_entry (Fin 0)) 3 lf
                  [0; 0; 0; 0] 1 = Ok r0 /\
    xget r0 0 1 = Fin 0 /\
    waterheight_x [0] 1 (upper_entry (Inf false)) (upper_entry (Fin 0)) 3 lf
                  [0; 0; 0; 0] 1 = Ok r1 /\
    xget r1 0 1 = NaN /\
    waterheight_x [PI / 12] 1 (upper_entry (Fin (IZR (17 * 10 ^ 307))))
                  (upper_entry (Fin (IZR (17 * 10 ^ 307)))) 3 lf
                  [0; 0; 0; 0] 1 = Ok r2 /\
    xget r2 0 1 = NaN.
Proof.
  destruct (init_total 3) as (lf & Hlf & _); [lia|].
  destruct (upper_entry_height 0 (Fin 0) (Fin 0) lf Hlf) as (r0 & E0 & _ & Z0).
  destruct (upper_entry_height 0 (Inf false) (Fin 0) lf Hlf)
    as (r1 & E1 & N1 & _).
  destruct (upper_entry_height (PI / 12) (Fin (IZR (17 * 10 ^ 307)))
              (Fin (IZR (17 * 10 ^ 307))) lf Hlf) as (r2 & E2 & N2 & _).
  assert (Hbig : IZR (17 * 10 ^ 307) < overflow_bound).
  { unfold overflow_bound. apply IZR_lt. vm_compute. reflexivity. }
  exists lf, r0, r1, r2. split; [exact Hlf|]. split.
  { intros v n m Hmn Hn. unfold upper_entry. rewrite !xget_xtab by lia.
    destruct (Nat.eqb_spec n 2), (Nat.eqb_spec m 3); cbn [andb];
      try reflexivity. lia. }
  split; [exact Hbig|]. split; [exact E0|].
  split; [apply Z0; reflexivity|]. split; [exact E1|]. split.
  - apply N1. rewrite Rmult_0_l, cos_0, xmul_zero_l.
    cbn [xmul]. destruct (Req_dec_T 1 0) as [C|_]; [lra|].
    unfold is_neg. destruct (Rlt_dec 1 0) as [C|_]; [lra | reflexivity].
  - split; [exact E2|]. apply N2.
    replace (PI / 12 * INR 3) with (PI / 4) by (cbn [INR]; field).
    rewrite cos_PI4, sin_PI4.
    pose proof inv_sqrt2_bounds as Hs.
    set (q := 1 / sqrt 2) in *. set (B := IZR (17 * 10 ^ 307)) in *.
    assert (HB : 0 < B) by (apply IZR_lt; vm_compute; reflexivity).
    assert (H71 : B * 71 < overflow_bound * 100).
    { unfold B, overflow_bound.
      change 71 with (IZR 71). change 100 with (IZR 100).
      rewrite <- !mult_IZR. apply IZR_lt. vm_compute. reflexivity. }
    assert (H14 : overflow_bound * 10 <= B * 14).
    { unfold B, overflow_bound.
      change 10 with (IZR 10). change 14 with (IZR 14).
      rewrite <- !mult_IZR. apply IZR_le. vm_compute. discriminate. }
    cbn [xmul].
    rewrite of_real_below by (rewrite Rabs_pos_eq by nra; nra).
    cbn [xadd]. apply of_real_overflow. nra.
Qed.

(** C10, amended.  Two pairs of coefficient matrices of shape
    [(maxdegree+1, maxdegree+1)] that agree on and below the diagonal,
    whatever floats they hold there, and whose entries above the diagonal
    are finite and at most [2^1022] in magnitude give the same outcome of
    [waterheight] for the same longitudes, colatitude, maximum degree, Love
    numbers and Legendre engine. *)
Theorem waterheight_upper_triangle_bounded (maxdeg lf_deg : nat)
    (lambdao : list R) (theta : R) (cnm snm cnm' snm' : xarray)
    (kn : list R) (lf : LegendreFunctions) (R0 : R) :
  xhas_shape cnm (maxdeg + 1) (maxdeg + 1) ->
  xhas_shape snm (maxdeg + 1) (maxdeg + 1) ->
  xhas_shape cnm' (maxdeg + 1) (maxdeg + 1) ->
  xhas_shape snm' (maxdeg + 1) (maxdeg + 1) ->
  (forall n m : nat, (m <= n)%nat -> (n <= maxdeg)%nat ->
     xget cnm n m = xget cnm' n m /\ xget snm n m = xget snm' n m) ->
  (forall n m : nat, (n < m)%nat -> (m <= maxdeg)%nat ->
     bounded_fin (xget cnm n m) /\ bounded_fin (xget snm n m) /\
     bounded_fin (xget cnm' n m) /\ bounded_fin (xget snm' n m)) ->
  LegendreFunctions_init lf_deg = Ok lf ->
  waterheight_x lambdao theta cnm snm maxdeg lf kn R0 =
  waterheight_x lambdao theta cnm' snm' maxdeg lf kn R0.
Proof.
  intros Hc Hs Hc' Hs' Hlow Hup Hlf.
  rewrite !waterheight_x_unfold.
  destruct (xsetitem _ 0 0 (Fin theta)) as [ewh|]; cbn [bind]; [|reflexivity].
  destruct (LegendreFunctions_call lf theta) as [Pnm|] eqn:HP; cbn [bind];
    [|reflexivity].
  destruct (call_inv lf theta Pnm HP) as (HPs & Hl & _).
  rewrite (init_maxdegree lf_deg lf Hlf) in HPs.
  pose proof (init_degree_positive lf_deg lf Hlf) as Hpos.
  rewrite (foldM_ext _ (fun long st =>
                          mt3 <- xmt3 cnm' snm' Pnm maxdeg long ;;
                          xewh_tail mt3 maxdeg kn R0 st)); [reflexivity|].
  intros long st. rewrite !xmt3_cells by assumption.
  rewrite (xmt3_upper Pnm (S lf_deg) (maxdeg + 1) _
             (fun i j =>
                xadd (xmul (xget cnm' i j) (Fin (cos (long * INR j))))
                     (xmul (xget snm' i j) (Fin (sin (long * INR j))))));
    [reflexivity | exact HPs | lia | exact Hl | |].
  - intros i j Hji Hi. destruct (Hlow i j Hji ltac:(lia)) as [-> ->].
    reflexivity.
  - intros i j Hij Hj.
    destruct (Hup i j Hij ltac:(lia)) as (B1 & B2 & B3 & B4).
    assert (Hcos : Rabs (cos (long * INR j)) <= 1)
      by (apply Rabs_le, COS_bound).
    assert (Hsin : Rabs (sin (long * INR j)) <= 1)
      by (apply Rabs_le, SIN_bound).
    destruct (bounded_cell _ _ _ _ B1 B2 Hcos Hsin) as (t & ->).
    destruct (bounded_cell _ _ _ _ B3 B4 Hcos Hsin) as (t' & ->).
    exists t, t'. split; reflexivity.
Qed.

Lemma waterheight_upper_triangle_bounded_witness :
  exists lf,
    LegendreFunctions_init 3 = Ok lf /\
    waterheight_x [0; 1] 1
      (xtab (3 + 1) (3 + 1)
         (fun i j => if (i <? j)%nat then Fin 7 else Fin (INR i)))
      (xtab (3 + 1) (3 + 1) (fun _ _ => Fin 1)) 3 lf
      [0; 0; -0.303; -0.194] 6378136.46 =
    waterheight_x [0; 1] 1
      (xtab (3 + 1) (3 + 1)
         (fun i j => if (i <? j)%nat then Fin 0 else Fin (INR i)))
      (xtab (3 + 1) (3 + 1)
         (fun i j => if (i <? j)%nat then Fin (-2) else Fin 1)) 3 lf
      [0; 0; -0.303; -0.194] 6378136.46.
Proof.
  destruct (init_total 3) as (lf & Hlf & _); [lia|].
  exists lf. split; [exact Hlf|].
  assert (B : forall x, Rabs x <= 7 -> bounded_fin (Fin x)).
  { intros x Hx. exists x. split; [reflexivity|].
    pose proof million_below_bound. pose proof two_pow_1022. lra. }
  apply (waterheight_upper_triangle_bounded 3 3 [0; 1] 1 _ _ _ _
           [0; 0; -0.303; -0.194] lf 6378136.46);
    try apply xhas_shape_xtab; [| |exact Hlf].
  - intros n m Hmn Hn. rewrite !xget_xtab by lia.
    replace (n <? m)%nat with false by (symmetry; apply Nat.ltb_ge; lia).
    split; reflexivity.
  - intros n m Hnm Hm. rewrite !xget_xtab by lia.
    replace (n <? m)%nat with true by (symmetry; apply Nat.ltb_lt; lia).
    repeat split; apply B.
    + rewrite Rabs_pos_eq; lra.
    + rewrite Rabs_pos_eq; lra.
    + rewrite Rabs_R0; lra.
    + rewrite Rabs_left; lra.
Defined.

(** ** The exceptions of [coeffisort] *)

Lemma xhas_shape_xzeros (r c : nat) : xhas_shape (xzeros r c) r c.
Proof.
  unfold xhas_shape, xnrows, xzeros; cbn [xrows xncols].
  split; [apply repeat_length|]. split; [reflexivity|].
  apply Forall_forall; intros x Hx. apply repeat_spec in Hx; subst.
  apply repeat_length.
Qed.

Lemma xhas_shape_xupd (a : xarray) (r c i j : nat) (v : xfloat) :
  xhas_shape a r c -> xhas_shape (xupd a i j v) r c.
Proof.
  intros (Hr & Hc & Hwf); unfold xhas_shape, xnrows, xupd in *;
    cbn [xrows xncols].
  split; [rewrite length_list_set; exact Hr|]. split; [exact Hc|].
  rewrite Forall_forall in Hwf.
  apply Forall_forall; intros x Hx.
  apply In_nth with (d := []) in Hx as (k & Hk & <-).
  rewrite length_list_set in Hk. rewrite nth_list_set.
  destruct ((k =? i)%nat && (i <? length (xrows a))%nat) eqn:E.
  - rewrite length_list_set. apply andb_prop in E as (_ & E).
    apply Nat.ltb_lt in E. apply Hwf, nth_In, E.
  - apply Hwf, nth_In, Hk.
Qed.

(** Writing a row of finite degree and order: the index pair is the cell
    of the row, or the write raises. *)
Lemma xsetitem_cell (a : xarray) (maxdeg : nat) (x y : R) (v : xfloat) :
  xhas_shape a (S maxdeg) (S maxdeg) ->
  xsetitem a (py_int x) (py_int y) v =
  (ij <- cell maxdeg (Row x y 0 0) ;; Ok (xupd a (fst ij) (snd ij) v)).
Proof.
  intros (Hr & Hc & _). unfold xsetitem, cell. cbn [row0 row1].
  rewrite Hr, Hc.
  destruct (norm_index (S maxdeg) (py_int x)); cbn [bind]; [|reflexivity].
  destruct (norm_index (S maxdeg) (py_int y)); cbn [bind]; reflexivity.
Qed.

(** One row within the degree limit: it raises its fault, or both matrices
    are written and the loop goes on. *)
Lemma coeffisort_x_step (maxdeg : nat) (r : xcoeff_row)
    (mat : list xcoeff_row) (cnm snm : xarray) :
  xhas_shape cnm (S maxdeg) (S maxdeg) ->
  xhas_shape snm (S maxdeg) (S maxdeg) ->
  x_gt (xrow0 r) (INR maxdeg) = false ->
  match row_fault maxdeg r with
  | Some e => coeffisort_x_loop (r :: mat) maxdeg cnm snm = Raise e
  | None =>
      exists cnm' snm',
        xhas_shape cnm' (S maxdeg) (S maxdeg) /\
        xhas_shape snm' (S maxdeg) (S maxdeg) /\
        coeffisort_x_loop (r :: mat) maxdeg cnm snm =
        coeffisort_x_loop mat maxdeg cnm' snm'
  end.
Proof.
  intros Hc Hs Hgt. cbn [coeffisort_x_loop]. rewrite Hgt.
  unfold row_fault.
  destruct (xrow0 r) as [a| |]; cbn [x_int bind]; [|reflexivity|reflexivity].
  destruct (xrow1 r) as [b| |]; cbn [x_int bind]; [|reflexivity|reflexivity].
  rewrite (xsetitem_cell cnm maxdeg a b _ Hc),
          (xsetitem_cell snm maxdeg a b _ Hs).
  destruct (cell maxdeg (Row a b 0 0)) as [[i j]|e]; cbn [bind fst snd];
    [|reflexivity].
  eexists. eexists. split; [|split; [|reflexivity]];
    apply xhas_shape_xupd; assumption.
Qed.

Lemma coeffisort_x_loop_raises (maxdeg : nat) (mat : list xcoeff_row) :
  forall cnm snm e,
  xhas_shape cnm (S maxdeg) (S maxdeg) ->
  xhas_shape snm (S maxdeg) (S maxdeg) ->
  (coeffisort_x_loop mat maxdeg cnm snm = Raise e <->
   exists pre r post,
     mat = pre ++ r :: post /\
     Forall (fun r' => x_gt (xrow0 r') (INR maxdeg) = false /\
                       row_fault maxdeg r' = None) pre /\
     x_gt (xrow0 r) (INR maxdeg) = false /\
     row_fault maxdeg r = Some e).
Proof.
  induction mat as [|r mat IH]; intros cnm snm e Hc Hs.
  - cbn [coeffisort_x_loop]. split; [discriminate|].
    intros (pre & r & post & E & _). destruct pre; discriminate.
  - destruct (x_gt (xrow0 r) (INR maxdeg)) eqn:Hgt.
    + cbn [coeffisort_x_loop]. rewrite Hgt. split; [discriminate|].
      intros (pre & r0 & post & E & Hpre & Hr0 & _).
      destruct pre as [|p pre]; cbn [app] in E; injection E as <- _.
      * congruence.
      * inversion Hpre as [|? ? (Hp & _) _]; subst. congruence.
    + pose proof (coeffisort_x_step maxdeg r mat cnm snm Hc Hs Hgt) as St.
      destruct (row_fault maxdeg r) as [e'|] eqn:Hf.
      * rewrite St. split.
        -- intros [= <-]. exists [], r, mat.
           split; [reflexivity|]. split; [constructor|]. split; assumption.
        -- intros (pre & r0 & post & E & Hpre & _ & Hf0).
           destruct pre as [|p pre]; cbn [app] in E; injection E as <- E.
           ++ congruence.
           ++ inversion Hpre as [|? ? (_ & Hp) _]; subst. congruence.
      * destruct St as (cnm' & snm' & Hc' & Hs' & ->).
        rewrite (IH cnm' snm' e Hc' Hs'). split.
        -- intros (pre & r0 & post & -> & Hpre & Hr0 & Hf0).
           exists (r :: pre), r0, post. split; [reflexivity|].
           split; [constructor; [split; assumption | exact Hpre]|].
           split; assumption.
        -- intros (pre & r0 & post & E & Hpre & Hr0 & Hf0).
           destruct pre as [|p pre]; cbn [app] in E; injection E as <- E.
           ++ congruence.
           ++ inversion Hpre as [|? ? _ Hpre']; subst.
              exists pre, r0, post. split; [reflexivity|].
              split; [exact Hpre'|]. split; assumption.
Qed.

Lemma row_fault_kinds (maxdeg : nat) (r : xcoeff_row) (e : exn) :
  row_fault maxdeg r = Some e ->
  e = IndexError \/ e = ValueError \/ e = OverflowError.
Proof.
  unfold row_fault, cell. cbn [row0 row1].
  destruct (xrow0 r) as [a| |]; [| intros [= <-]; auto | intros [= <-]; auto].
  destruct (xrow1 r) as [b| |]; [| intros [= <-]; auto | intros [= <-]; auto].
  destruct (norm_index_cases (S maxdeg) (py_int a)) as [(i & -> & _)| ->];
    cbn [bind]; [|intros [= <-]; auto].
  destruct (norm_index_cases (S maxdeg) (py_int b)) as [(j & -> & _)| ->];
    cbn [bind]; [discriminate | intros [= <-]; auto].
Qed.

(** X6.  The exceptions of [coeffisort], on rows that may hold infinities
    and NaN.  It raises nothing but [IndexError], [ValueError] and
    [OverflowError], and it raises exactly when a row is reached (no row
    before it is over the degree limit or faulty) that is itself not over
    the limit and faulty; the exception is the fault of that row:
    [ValueError] for a NaN degree, [OverflowError] for an infinite one,
    then the same for the order, then [IndexError] for a pair outside the
    matrices. *)
Theorem coeffisort_x_raises_iff (mat : list xcoeff_row) (maxdeg : nat)
    (e : exn) :
  coeffisort_x mat maxdeg = Raise e <->
  (e = IndexError \/ e = ValueError \/ e = OverflowError) /\
  exists pre r post,
    mat = pre ++ r :: post /\
    Forall (fun r' => x_gt (xrow0 r') (INR maxdeg) = false /\
                      row_fault maxdeg r' = None) pre /\
    x_gt (xrow0 r) (INR maxdeg) = false /\
    row_fault maxdeg r = Some e.
Proof.
  unfold coeffisort_x.
  rewrite (coeffisort_x_loop_raises maxdeg mat _ _ e
             (xhas_shape_xzeros _ _) (xhas_shape_xzeros _ _)).
  split.
  - intros (pre & r & post & E & Hpre & Hgt & Hf).
    split; [exact (row_fault_kinds maxdeg r e Hf)|].
    exists pre, r, post. auto.
  - intros (_ & H). exact H.
Qed.

Lemma inject_upd (a : ndarray) (i j : nat) (v : R) :
  inject (upd a i j v) = xupd (inject a) i j (Fin v).
Proof.
  assert (LS : forall (A B : Type) (f : A -> B) (k : nat) (x : A) (l : list A),
            map f (list_set k x l) = list_set k (f x) (map f l)).
  { intros A B f k x l. revert k.
    induction l as [|y l IH]; intros k; [destruct k; reflexivity|].
    destruct k; cbn [list_set map]; [reflexivity|]. rewrite IH. reflexivity. }
  unfold inject, upd, xupd; cbn [rows ncols xrows xncols]. f_equal.
  rewrite LS, LS. do 2 f_equal.
  change (@nil xfloat) with (map Fin []). symmetry.
  apply (map_nth (map Fin)).
Qed.

(** On rows of finite numbers [coeffisort_x] is [coeffisort]. *)
Lemma coeffisort_x_lift (maxdeg : nat) (mat : list coeff_row) :
  forall cnm snm,
  has_shape cnm (S maxdeg) (S maxdeg) -> has_shape snm (S maxdeg) (S maxdeg) ->
  coeffisort_x_loop (map lift_row mat) maxdeg (inject cnm) (inject snm) =
  match coeffisort_loop mat maxdeg cnm snm with
  | Ok (c, s) => Ok (inject c, inject s)
  | Raise e => Raise e
  end.
Proof.
  induction mat as [|r mat IH]; intros cnm snm Hc Hs; [reflexivity|].
  cbn [map coeffisort_x_loop coeffisort_loop lift_row xrow0 xrow1 xrow2 xrow3
       x_gt x_int bind].
  destruct (Rgt_dec (row0 r) (INR maxdeg)); [reflexivity|].
  rewrite (xsetitem_cell (inject cnm) maxdeg _ _ _
             (xhas_shape_inject _ _ _ Hc)),
          (xsetitem_cell (inject snm) maxdeg _ _ _
             (xhas_shape_inject _ _ _ Hs)).
  rewrite (setitem_cell cnm maxdeg r _ Hc), (setitem_cell snm maxdeg r _ Hs).
  replace (cell maxdeg (Row (row0 r) (row1 r) 0 0)) with (cell maxdeg r)
    by reflexivity.
  destruct (cell maxdeg r) as [[i j]|e]; cbn [bind fst snd]; [|reflexivity].
  rewrite <- !inject_upd. apply IH; apply has_shape_upd; assumption.
Qed.
